(** * RamCacheCLFUS: a shallow embedding of iocore/cache/RamCacheCLFUS.cc

    The cache is a heap of entries (RamCacheCLFUSEntry objects) that are
    threaded at the same time through one hash chain ([hash_link]) and one
    LRU queue ([lru_link]).  The embedding keeps that sharing: entries live
    in a finite map from addresses to records, and the hash chains and the
    two queues are sequences of addresses.

    Integer widths follow the C++ declarations.  [uint32_t] and [uint64_t]
    arithmetic wraps and is written out with [u32] and [u64].  The signed
    counters ([int64_t bytes, objects, history], [int ncompressed]) are
    unbounded integers: signed overflow is undefined in C++ and is not
    reachable with 32-bit sizes. *)

From Stdlib Require Import ZArith Lia List Strings.Byte SpecFloat.
From stdpp Require Import gmap list.

Open Scope Z_scope.

(** ** Machine integers *)

Definition u16 (z : Z) : Z := z mod 2 ^ 16.
Definition u32 (z : Z) : Z := z mod 2 ^ 32.
Definition u64 (z : Z) : Z := z mod 2 ^ 64.
(** [(int)x] for a 32-bit [int]. *)
Definition s32 (z : Z) : Z := (z + 2 ^ 31) mod 2 ^ 32 - 2 ^ 31.

(** ** Constants and macros of the file *)

Definition HISTORY_HYSTERIA : Z := 10.
Definition ENTRY_OVERHEAD : Z := 256.
Definition LZMA_BASE_MEMLIMIT : Z := 64 * 1024 * 1024.

(** [REQUEUE_HITS(_h) ((_h) ? 1 : 0)] *)
Definition REQUEUE_HITS (h : Z) : Z := if h =? 0 then 0 else 1.

(** IEEE-754 values, from the Standard Library's executable specification:
    [float] is binary32, [double] is binary64, both rounding to nearest
    even. *)
Definition float_of_Z (z : Z) : spec_float := binary_normalize 24 128 z 0 false.
Definition double_of_Z (z : Z) : spec_float := binary_normalize 53 1024 z 0 false.

(** The [double] literals [0.9] and [0.8]. *)
Definition REQUIRED_COMPRESSION : spec_float :=
  S754_finite false 8106479329266893 (-53).
Definition REQUIRED_SHRINK : spec_float :=
  S754_finite false 7205759403792794 (-53).

(** [CACHE_VALUE_HITS_SIZE(_h, _s) ((float)((_h)+1) / ((_s) + ENTRY_OVERHEAD))]
    with [_h : uint64_t] and [_s : uint32_t]. *)
Definition CACHE_VALUE_HITS_SIZE (h s : Z) : spec_float :=
  SFdiv 24 128 (float_of_Z (u64 (h + 1))) (float_of_Z (u32 (s + ENTRY_OVERHEAD))).

(** [l > c * x] for [uint32_t l, x] and a [double] constant [c]. *)
Definition exceeds (c : spec_float) (l x : Z) : bool :=
  SFltb (SFmul 53 1024 c (double_of_Z x)) (double_of_Z l).

(** [e->size + ENTRY_OVERHEAD]: [uint32_t + int], computed in [uint32_t]. *)
Definition footprint (sz : Z) : Z := u32 (sz + ENTRY_OVERHEAD).

Definition bucket_sizes : list Z :=
  [127; 251; 509; 1021; 2039; 4093; 8191; 16381; 32749; 65521; 131071; 262139;
   524287; 1048573; 2097143; 4194301; 8388593; 16777213; 33554393; 67108859;
   134217689; 268435399; 536870909; 1073741789; 2147483647].

(** ** Collaborators declared outside the file *)

(** Modelled from the spec: [INK_MD5] (P_Cache.h is not part of the sources)
    is the 128-bit digest of the key; [word i] is its [i]-th 32-bit word. *)
Record INK_MD5 : Type := MD5 { w0 : Z; w1 : Z; w2 : Z; w3 : Z }.

Definition word (k : INK_MD5) (i : nat) : Z :=
  match i with O => w0 k | 1%nat => w1 k | 2%nat => w2 k | _ => w3 k end.

#[global] Instance INK_MD5_eq_dec : EqDecision INK_MD5.
Proof. solve_decision. Defined.

(** Modelled from the spec: [IOBufferData] (I_IOBuffer.h is not part of the
    sources) is the payload buffer; the cache reads its bytes and its
    [block_size()]. *)
Record IOBufferData : Type := IOBuf { buf : list byte; block_size : Z }.

(** Modelled from the spec: the compression kinds of the knob
    [ram_cache_compress]: 0 off, 1 fastlz, 2 zlib, 3 lzma. *)
Definition CACHE_COMPRESSION_NONE : Z := 0.
Definition CACHE_COMPRESSION_FASTLZ : Z := 1.
Definition CACHE_COMPRESSION_LIBZ : Z := 2.
Definition CACHE_COMPRESSION_LIBLZMA : Z := 3.

(** ** Entries *)

(** Addresses of entries. *)
Abbreviation ptr := nat (only parsing).

Record RamCacheCLFUSEntry : Type := Entry {
  key : INK_MD5;
  auxkey1 : Z;                (* uint32_t *)
  auxkey2 : Z;                (* uint32_t *)
  hits : Z;                   (* uint64_t *)
  size : Z;                   (* uint32_t, memory used including padding *)
  len : Z;                    (* uint32_t, actual data length *)
  compressed_len : Z;         (* uint32_t *)
  flag_compressed : Z;        (* flag_bits.compressed : 3 *)
  flag_incompressible : bool; (* flag_bits.incompressible : 1 *)
  flag_lru : bool;            (* flag_bits.lru : 1, true = on lru[1] *)
  flag_copy : bool;           (* flag_bits.copy : 1 *)
  data : option IOBufferData  (* Ptr<IOBufferData>, None = NULL *)
}.

Definition set_aux (a1 a2 : Z) (e : RamCacheCLFUSEntry) :=
  Entry (key e) a1 a2 (hits e) (size e) (len e) (compressed_len e)
    (flag_compressed e) (flag_incompressible e) (flag_lru e) (flag_copy e) (data e).
Definition set_hits (h : Z) (e : RamCacheCLFUSEntry) :=
  Entry (key e) (auxkey1 e) (auxkey2 e) h (size e) (len e) (compressed_len e)
    (flag_compressed e) (flag_incompressible e) (flag_lru e) (flag_copy e) (data e).
Definition set_size (s : Z) (e : RamCacheCLFUSEntry) :=
  Entry (key e) (auxkey1 e) (auxkey2 e) (hits e) s (len e) (compressed_len e)
    (flag_compressed e) (flag_incompressible e) (flag_lru e) (flag_copy e) (data e).
Definition set_len (l : Z) (e : RamCacheCLFUSEntry) :=
  Entry (key e) (auxkey1 e) (auxkey2 e) (hits e) (size e) l (compressed_len e)
    (flag_compressed e) (flag_incompressible e) (flag_lru e) (flag_copy e) (data e).
Definition set_compressed_len (l : Z) (e : RamCacheCLFUSEntry) :=
  Entry (key e) (auxkey1 e) (auxkey2 e) (hits e) (size e) (len e) l
    (flag_compressed e) (flag_incompressible e) (flag_lru e) (flag_copy e) (data e).
Definition set_flag_compressed (c : Z) (e : RamCacheCLFUSEntry) :=
  Entry (key e) (auxkey1 e) (auxkey2 e) (hits e) (size e) (len e) (compressed_len e)
    c (flag_incompressible e) (flag_lru e) (flag_copy e) (data e).
Definition set_flag_incompressible (b : bool) (e : RamCacheCLFUSEntry) :=
  Entry (key e) (auxkey1 e) (auxkey2 e) (hits e) (size e) (len e) (compressed_len e)
    (flag_compressed e) b (flag_lru e) (flag_copy e) (data e).
Definition set_flag_lru (b : bool) (e : RamCacheCLFUSEntry) :=
  Entry (key e) (auxkey1 e) (auxkey2 e) (hits e) (size e) (len e) (compressed_len e)
    (flag_compressed e) (flag_incompressible e) b (flag_copy e) (data e).
Definition set_flag_copy (b : bool) (e : RamCacheCLFUSEntry) :=
  Entry (key e) (auxkey1 e) (auxkey2 e) (hits e) (size e) (len e) (compressed_len e)
    (flag_compressed e) (flag_incompressible e) (flag_lru e) b (data e).
Definition set_data (d : option IOBufferData) (e : RamCacheCLFUSEntry) :=
  Entry (key e) (auxkey1 e) (auxkey2 e) (hits e) (size e) (len e) (compressed_len e)
    (flag_compressed e) (flag_incompressible e) (flag_lru e) (flag_copy e) d.
(** [e->flags = 0] clears the four bit fields of the union. *)
Definition clear_flags (e : RamCacheCLFUSEntry) :=
  Entry (key e) (auxkey1 e) (auxkey2 e) (hits e) (size e) (len e) (compressed_len e)
    0 false false false (data e).

(** [CACHE_VALUE(_x)] *)
Definition CACHE_VALUE (e : RamCacheCLFUSEntry) : spec_float :=
  CACHE_VALUE_HITS_SIZE (hits e) (size e).

(** What [THREAD_ALLOC] hands out: a copy of the allocator's zeroed
    prototype.  It also stands for the contents read through an address
    that is not allocated, which no operation does on a consistent cache. *)
Definition proto_entry : RamCacheCLFUSEntry :=
  Entry (MD5 0 0 0 0) 0 0 0 0 0 0 0 false false false None.

(** ** The cache *)

Record RamCacheCLFUS : Type := Cache {
  max_bytes : Z;
  bytes : Z;
  objects : Z;
  history : Z;
  ibuckets : nat;
  nbuckets : Z;
  bucket : gmap Z (list ptr);      (* hash chains, head first *)
  lru0 : list ptr;                 (* lru[0], head (oldest) first *)
  lru1 : list ptr;                 (* lru[1], head (oldest) first *)
  seen : gmap Z Z;                 (* uint16_t array, absent = 0 *)
  ncompressed : Z;
  compressed : option ptr;         (* first uncompressed lru[0] entry *)
  heap : gmap ptr RamCacheCLFUSEntry;  (* the allocated entries *)
  next_ptr : ptr                   (* the entry allocator's next address *)
}.

Definition set_max_bytes (v : Z) (c : RamCacheCLFUS) :=
  Cache v (bytes c) (objects c) (history c) (ibuckets c) (nbuckets c) (bucket c)
    (lru0 c) (lru1 c) (seen c) (ncompressed c) (compressed c) (heap c) (next_ptr c).
Definition set_bytes (v : Z) (c : RamCacheCLFUS) :=
  Cache (max_bytes c) v (objects c) (history c) (ibuckets c) (nbuckets c) (bucket c)
    (lru0 c) (lru1 c) (seen c) (ncompressed c) (compressed c) (heap c) (next_ptr c).
Definition set_objects (v : Z) (c : RamCacheCLFUS) :=
  Cache (max_bytes c) (bytes c) v (history c) (ibuckets c) (nbuckets c) (bucket c)
    (lru0 c) (lru1 c) (seen c) (ncompressed c) (compressed c) (heap c) (next_ptr c).
Definition set_history (v : Z) (c : RamCacheCLFUS) :=
  Cache (max_bytes c) (bytes c) (objects c) v (ibuckets c) (nbuckets c) (bucket c)
    (lru0 c) (lru1 c) (seen c) (ncompressed c) (compressed c) (heap c) (next_ptr c).
Definition set_ibuckets (v : nat) (c : RamCacheCLFUS) :=
  Cache (max_bytes c) (bytes c) (objects c) (history c) v (nbuckets c) (bucket c)
    (lru0 c) (lru1 c) (seen c) (ncompressed c) (compressed c) (heap c) (next_ptr c).
Definition set_nbuckets (v : Z) (c : RamCacheCLFUS) :=
  Cache (max_bytes c) (bytes c) (objects c) (history c) (ibuckets c) v (bucket c)
    (lru0 c) (lru1 c) (seen c) (ncompressed c) (compressed c) (heap c) (next_ptr c).
Definition set_bucket (v : gmap Z (list ptr)) (c : RamCacheCLFUS) :=
  Cache (max_bytes c) (bytes c) (objects c) (history c) (ibuckets c) (nbuckets c) v
    (lru0 c) (lru1 c) (seen c) (ncompressed c) (compressed c) (heap c) (next_ptr c).
Definition set_lru0 (v : list ptr) (c : RamCacheCLFUS) :=
  Cache (max_bytes c) (bytes c) (objects c) (history c) (ibuckets c) (nbuckets c) (bucket c)
    v (lru1 c) (seen c) (ncompressed c) (compressed c) (heap c) (next_ptr c).
Definition set_lru1 (v : list ptr) (c : RamCacheCLFUS) :=
  Cache (max_bytes c) (bytes c) (objects c) (history c) (ibuckets c) (nbuckets c) (bucket c)
    (lru0 c) v (seen c) (ncompressed c) (compressed c) (heap c) (next_ptr c).
Definition set_seen (v : gmap Z Z) (c : RamCacheCLFUS) :=
  Cache (max_bytes c) (bytes c) (objects c) (history c) (ibuckets c) (nbuckets c) (bucket c)
    (lru0 c) (lru1 c) v (ncompressed c) (compressed c) (heap c) (next_ptr c).
Definition set_ncompressed (v : Z) (c : RamCacheCLFUS) :=
  Cache (max_bytes c) (bytes c) (objects c) (history c) (ibuckets c) (nbuckets c) (bucket c)
    (lru0 c) (lru1 c) (seen c) v (compressed c) (heap c) (next_ptr c).
Definition set_compressed (v : option ptr) (c : RamCacheCLFUS) :=
  Cache (max_bytes c) (bytes c) (objects c) (history c) (ibuckets c) (nbuckets c) (bucket c)
    (lru0 c) (lru1 c) (seen c) (ncompressed c) v (heap c) (next_ptr c).
Definition set_heap (v : gmap ptr RamCacheCLFUSEntry) (c : RamCacheCLFUS) :=
  Cache (max_bytes c) (bytes c) (objects c) (history c) (ibuckets c) (nbuckets c) (bucket c)
    (lru0 c) (lru1 c) (seen c) (ncompressed c) (compressed c) v (next_ptr c).
Definition set_next_ptr (v : ptr) (c : RamCacheCLFUS) :=
  Cache (max_bytes c) (bytes c) (objects c) (history c) (ibuckets c) (nbuckets c) (bucket c)
    (lru0 c) (lru1 c) (seen c) (ncompressed c) (compressed c) (heap c) v.

(** The constructor [RamCacheCLFUS()]. *)
Definition new_RamCacheCLFUS : RamCacheCLFUS :=
  Cache 0 0 0 0 0 0 ∅ [] [] ∅ 0 None ∅ 1%nat.

(** ** Entry access, queues and chains *)

(** [*p] *)
Definition deref (c : RamCacheCLFUS) (p : ptr) : RamCacheCLFUSEntry :=
  default proto_entry (heap c !! p).

(** An assignment through [p]. *)
Definition upd (p : ptr) (f : RamCacheCLFUSEntry → RamCacheCLFUSEntry)
    (c : RamCacheCLFUS) : RamCacheCLFUS :=
  set_heap (alter f p (heap c)) c.

(** [Que::remove], [Que::enqueue] (at the tail); [Que::dequeue] takes the
    head and is a pattern match where it is used. *)
Definition que_remove (p : ptr) (q : list ptr) : list ptr :=
  filter (λ x, x ≠ p) q.
Definition que_enqueue (p : ptr) (q : list ptr) : list ptr := q ++ [p].

(** [p->lru_link.next] and [p->lru_link.prev] inside the queue [q]. *)
Fixpoint que_next (q : list ptr) (p : ptr) : option ptr :=
  match q with
  | [] => None
  | x :: q' => if decide (x = p) then head q' else que_next q' p
  end.
Fixpoint que_prev (q : list ptr) (p : ptr) : option ptr :=
  match q with
  | [] => None
  | x :: q' =>
      match q' with
      | [] => None
      | y :: _ => if decide (x = p) then None
                  else if decide (y = p) then Some x else que_prev q' p
      end
  end.

(** [lru[i]] *)
Definition lru (c : RamCacheCLFUS) (i : bool) : list ptr :=
  if i then lru1 c else lru0 c.
Definition set_lru (i : bool) (q : list ptr) (c : RamCacheCLFUS) : RamCacheCLFUS :=
  if i then set_lru1 q c else set_lru0 q c.

(** [bucket[i]] as a chain, and [DList::push] (at the head), [DList::remove]. *)
Definition chain (c : RamCacheCLFUS) (i : Z) : list ptr :=
  default [] (bucket c !! i).
Definition bucket_push (i : Z) (p : ptr) (c : RamCacheCLFUS) : RamCacheCLFUS :=
  set_bucket (<[i := p :: chain c i]> (bucket c)) c.
Definition bucket_remove (i : Z) (p : ptr) (c : RamCacheCLFUS) : RamCacheCLFUS :=
  set_bucket (<[i := que_remove p (chain c i)]> (bucket c)) c.

(** [seen[s]] *)
Definition seen_at (c : RamCacheCLFUS) (s : Z) : Z := default 0 (seen c !! s).

(** ** Operations *)

(** [RamCacheCLFUS::resize_hashtable]: every chain of the old table is
    popped from its head and each entry pushed on the head of its chain in
    the new table; the seen array is reallocated and zeroed. *)
Definition rehash_push (anbuckets : Z) (c : RamCacheCLFUS)
    (nb : gmap Z (list ptr)) (p : ptr) : gmap Z (list ptr) :=
  let b := word (key (deref c p)) 3 mod anbuckets in
  <[b := p :: default [] (nb !! b)]> nb.

Definition resize_hashtable (c : RamCacheCLFUS) : RamCacheCLFUS :=
  let anbuckets := nth (ibuckets c) bucket_sizes 0 in
  let new_bucket :=
    foldl (λ nb i, foldl (rehash_push anbuckets c) nb (chain c i))
          ∅ (seqZ 0 (nbuckets c)) in
  set_seen ∅ (set_nbuckets anbuckets (set_bucket new_bucket c)).

(** [RamCacheCLFUS::init] *)
Definition init (abytes : Z) (c : RamCacheCLFUS) : RamCacheCLFUS :=
  let c := set_max_bytes abytes c in
  if max_bytes c =? 0 then c else resize_hashtable c.

(** [RamCacheCLFUS::move_compressed].  The entry is on the queue
    [lru[e->flag_bits.lru]] wherever this is called. *)
Definition move_compressed (p : ptr) (c : RamCacheCLFUS) : RamCacheCLFUS :=
  if decide (compressed c = Some p) then
    let q := lru c (flag_lru (deref c p)) in
    match que_next q p with
    | Some n => set_compressed (Some n) c
    | None => set_compressed (que_prev q p) (set_ncompressed (ncompressed c - 1) c)
    end
  else c.

(** [lru[e->flag_bits.lru].remove(e); lru[e->flag_bits.lru].enqueue(e);] *)
Definition requeue (p : ptr) (c : RamCacheCLFUS) : RamCacheCLFUS :=
  let i := flag_lru (deref c p) in
  set_lru i (que_enqueue p (que_remove p (lru c i))) c.

(** [RamCacheCLFUS::destroy]; the returned [e->hash_link.next] is the rest
    of the chain at the call site. *)
Definition destroy (p : ptr) (c : RamCacheCLFUS) : RamCacheCLFUS :=
  let e := deref c p in
  let c := move_compressed p c in
  let c := set_lru (flag_lru e) (que_remove p (lru c (flag_lru e))) c in
  let c :=
    if flag_lru e then set_history (history c - 1) c
    else upd p (set_data None)
           (set_bytes (bytes c - footprint (size e)) (set_objects (objects c - 1) c)) in
  let b := word (key e) 3 mod nbuckets c in
  let c := bucket_remove b p c in
  set_heap (delete p (heap c)) c.

(** [RamCacheCLFUS::tick] *)
Definition tick_free (p : ptr) (c : RamCacheCLFUS) : RamCacheCLFUS :=
  let c := upd p (set_flag_lru false) c in
  let c := set_history (history c - 1) c in
  let b := word (key (deref c p)) 3 mod nbuckets c in
  let c := bucket_remove b p c in
  set_heap (delete p (heap c)) c.

Definition tick (c : RamCacheCLFUS) : RamCacheCLFUS :=
  match lru1 c with
  | [] => c
  | p :: q =>
      let c := set_lru1 q c in
      let c := upd p (λ e, set_hits (u64 (Z.shiftl (hits e) 1)) e) c in
      if negb (hits (deref c p) =? 0) then
        let c := upd p (λ e, set_hits (REQUEUE_HITS (hits e)) e) c in
        let c := set_lru1 (que_enqueue p (lru1 c)) c in
        if history c <=? objects c + HISTORY_HYSTERIA then c
        else
          match lru1 c with
          | [] => c   (* not reached: [p] was just enqueued *)
          | p' :: q' => tick_free p' (set_lru1 q' c)
          end
      else tick_free p c
  end.

(** [RamCacheCLFUS::victimize] *)
Definition victimize (p : ptr) (c : RamCacheCLFUS) : RamCacheCLFUS :=
  let c := set_objects (objects c - 1) c in
  let c := upd p (λ e, set_flag_lru true (set_data None e)) c in
  let c := set_lru1 (que_enqueue p (lru1 c)) c in
  set_history (history c + 1) c.

(** One turn of the loop of [RamCacheCLFUS::requeue_victims], and the loop. *)
Definition requeue_victim (c : RamCacheCLFUS) (v : ptr) : RamCacheCLFUS :=
  let c := set_bytes (bytes c + footprint (size (deref c v))) c in
  let c := upd v (λ e, set_hits (REQUEUE_HITS (hits e)) e) c in
  set_lru0 (que_enqueue v (lru0 c)) c.

Definition requeue_victims (c : RamCacheCLFUS) (victims : list ptr) : RamCacheCLFUS :=
  foldl requeue_victim c victims.

(** [RamCacheCLFUS::fixup] *)
Definition entry_matches (k : INK_MD5) (a1 a2 : Z) (e : RamCacheCLFUSEntry) : bool :=
  bool_decide (key e = k) && (auxkey1 e =? a1) && (auxkey2 e =? a2).

Definition fixup (k : INK_MD5) (old_auxkey1 old_auxkey2 new_auxkey1 new_auxkey2 : Z)
    (c : RamCacheCLFUS) : Z * RamCacheCLFUS :=
  if max_bytes c =? 0 then (0, c)
  else
    let i := word k 3 mod nbuckets c in
    match List.find (λ p, entry_matches k old_auxkey1 old_auxkey2 (deref c p)) (chain c i) with
    | Some p => (1, upd p (set_aux new_auxkey1 new_auxkey2) c)
    | None => (0, c)
    end.

(** ** The read path *)

Section Get.

(** The decompressors and the buffer allocator are external libraries.
    Each decompressor takes the stored bytes, their length and the expected
    output length and returns its status together with the bytes it wrote. *)
Variable fastlz_decompress : list byte → Z → Z → Z * list byte.
Variable TS_HAS_LIBZ : bool.
Variable uncompress : list byte → Z → Z → Z * list byte.
Variable TS_HAS_LZMA : bool.
Variable lzma_stream_buffer_decode : Z → list byte → Z → Z → Z * list byte.
(** The block size of [new_IOBufferData(iobuffer_size_to_index(len, ...))]. *)
Variable iobuffer_block_size : Z → Z.

Definition Z_OK : Z := 0.
Definition LZMA_OK : Z := 0.

Definition data_bytes (e : RamCacheCLFUSEntry) : list byte :=
  match data e with Some d => buf d | None => [] end.

(** The [switch (e->flag_bits.compressed)] of [get]: [None] is [goto Lfailed],
    otherwise the contents of [b]. *)
Definition decompress (e : RamCacheCLFUSEntry) : option (list byte) :=
  if flag_compressed e =? CACHE_COMPRESSION_FASTLZ then
    let l := s32 (len e) in
    let r := fastlz_decompress (data_bytes e) (s32 (compressed_len e)) l in
    if l =? s32 (fst r) then Some (snd r) else None
  else if TS_HAS_LIBZ && (flag_compressed e =? CACHE_COMPRESSION_LIBZ) then
    let r := uncompress (data_bytes e) (compressed_len e) (len e) in
    if fst r =? Z_OK then Some (snd r) else None
  else if TS_HAS_LZMA && (flag_compressed e =? CACHE_COMPRESSION_LIBLZMA) then
    let memlimit := u32 (u32 (len e * 2) + LZMA_BASE_MEMLIMIT) in
    let r := lzma_stream_buffer_decode memlimit (data_bytes e) (compressed_len e) (len e) in
    if fst r =? LZMA_OK then Some (snd r) else None
  else None.

(** [RamCacheCLFUS::get].  The result is the returned [int], the buffer
    stored through [ret_data] (if any) and the cache afterwards. *)
Definition get (k : INK_MD5) (a1 a2 : Z) (c : RamCacheCLFUS)
    : Z * option IOBufferData * RamCacheCLFUS :=
  if max_bytes c =? 0 then (0, None, c)
  else
    let i := word k 3 mod nbuckets c in
    match List.find (λ p, entry_matches k a1 a2 (deref c p)) (chain c i) with
    | None => (0, None, c)
    | Some p =>
        let c := move_compressed p c in
        let c := requeue p c in
        if negb (flag_lru (deref c p)) then (* in memory *)
          let c := upd p (λ e, set_hits (u64 (hits e + 1)) e) c in
          let e := deref c p in
          if negb (flag_compressed e =? 0) then
            match decompress e with
            | None => (0, None, destroy p c)   (* Lfailed *)
            | Some b =>
                let d := IOBuf b (len e) in
                let c :=
                  if negb (flag_copy e) then
                    let delta := compressed_len e - size e in
                    let c := set_bytes (bytes c + delta) c in
                    upd p (λ e, set_data (Some d)
                                  (set_flag_compressed 0 (set_size (compressed_len e) e))) c
                  else c in
                (1, Some d, c)
            end
          else
            let d :=
              if flag_copy e then
                Some (IOBuf (take (Z.to_nat (len e)) (data_bytes e))
                            (iobuffer_block_size (len e)))
              else data e in
            (1, d, c)
        else (0, None, c)
    end.

End Get.

(** ** The write path *)

(** The buffer the cache keeps for [put]: the caller's ([copy = false]) or
    a private copy of its first [len] bytes. *)
Definition put_buffer (d : IOBufferData) (l : Z) (copy : bool) : IOBufferData :=
  if copy then IOBuf (take (Z.to_nat l) (buf d)) l else d.

(** The lookup loop of [put]: the first entry of the chain with the digest
    and both aux keys is kept; entries with the digest and other aux keys
    met before it are destroyed. *)
Fixpoint put_lookup (k : INK_MD5) (a1 a2 : Z) (ch : list ptr) (c : RamCacheCLFUS)
    : option ptr * RamCacheCLFUS :=
  match ch with
  | [] => (None, c)
  | p :: ch' =>
      let e := deref c p in
      if decide (key e = k) then
        if (auxkey1 e =? a1) && (auxkey2 e =? a2) then (Some p, c)
        else put_lookup k a1 a2 ch' (destroy p c)  (* discard when aux keys conflict *)
      else put_lookup k a1 a2 ch' c
  end.

(** Where the [while (1)] loop of [put] leaves to. *)
Inductive loop_exit : Type :=
  | Linsert (c : RamCacheCLFUS) (victims : list ptr)
  | Lhistory (c : RamCacheCLFUS) (victims : list ptr)
  | Lreturn0 (c : RamCacheCLFUS).

(** The head of one turn of the [while (1)] loop of [put], for a victim
    that was dequeued and left [q'] on [lru[0]]: from [bytes -= ...] to
    [tick()]. *)
Definition take_victim (victim : ptr) (q' : list ptr) (c : RamCacheCLFUS)
    : RamCacheCLFUS :=
  let c := set_lru0 q' c in
  let c := set_bytes (bytes c - footprint (size (deref c victim))) c in
  let c := if decide (compressed c = Some victim) then set_compressed None c
           else set_ncompressed (ncompressed c - 1) c in
  let c := upd victim (λ x, set_hits (u64 (Z.shiftl (hits x) 1)) x) c in
  tick c.

(** The [while (1)] loop of [put].  [q] is [lru[0]]: each turn dequeues its
    head, and nothing in the body changes [lru[0]] otherwise, so the loop
    is a recursion on [q]. *)
Fixpoint victim_loop (q : list ptr) (e : option ptr) (sz : Z)
    (c : RamCacheCLFUS) (victims : list ptr) : loop_exit :=
  match q with
  | [] => (* !victim *)
      if bytes c + sz <=? max_bytes c then Linsert c victims
      else
        let c := match e with
                 | Some p => set_lru1 (que_enqueue p (lru1 c)) c
                 | None => c
                 end in
        Lreturn0 (requeue_victims c victims)
  | victim :: q' =>
      let c := take_victim victim q' c in
      let victims := que_enqueue victim victims in
      match e with
      | None => Lhistory c victims
      | Some p => (* e from history *)
          if (bytes c + size (deref c victim) + sz >? max_bytes c)
             && SFltb (CACHE_VALUE (deref c p)) (CACHE_VALUE (deref c victim))
          then
            let c := requeue_victims c victims in
            Lreturn0 (set_lru1 (que_enqueue p (lru1 c)) c)
          else if bytes c + sz <=? max_bytes c then Linsert c victims
          else victim_loop q' e sz c victims
      end
  end.

(** One turn of the loop at [Linsert]. *)
Definition insert_victim (sz : Z) (c : RamCacheCLFUS) (victim : ptr) : RamCacheCLFUS :=
  if bytes c + sz + size (deref c victim) <=? max_bytes c then
    let c := set_bytes (bytes c + footprint (size (deref c victim))) c in
    let c := upd victim (λ e, set_hits (REQUEUE_HITS (hits e)) e) c in
    set_lru0 (que_enqueue victim (lru0 c)) c
  else victimize victim c.

(** The [else] branch of [if (e)] at [Linsert]: a fresh entry is allocated,
    pushed on its chain, and the table grows when [objects > nbuckets]. *)
Definition put_new_entry (k : INK_MD5) (a1 a2 : Z) (i : Z) (c : RamCacheCLFUS)
    : ptr * RamCacheCLFUS :=
  let p := next_ptr c in
  let c := set_next_ptr (S p) c in
  let c := set_heap (<[p := Entry k a1 a2 1 0 0 0 0 false false false None]> (heap c)) c in
  let c := bucket_push i p c in
  let c := if objects c >? nbuckets c
           then resize_hashtable (set_ibuckets (S (ibuckets c)) c) else c in
  (p, c).

(** The end of [put], from [e->flags = 0] to [return 1]: the entry [p]
    receives the payload and goes on [lru[0]]. *)
Definition put_install (d : IOBufferData) (l : Z) (copy : bool) (sz : Z) (p : ptr)
    (c : RamCacheCLFUS) : RamCacheCLFUS :=
  let c := upd p clear_flags c in
  let c := upd p (set_data (Some (put_buffer d l copy))) c in
  let c := upd p (set_flag_copy copy) c in
  let c := set_bytes (bytes c + footprint sz) c in
  let c := upd p (set_size sz) c in
  let c := set_objects (objects c + 1) c in
  let c := set_lru0 (que_enqueue p (lru0 c)) c in
  upd p (set_len l) c.

(** From [Linsert] to [return 1]. *)
Definition put_insert (k : INK_MD5) (d : IOBufferData) (l : Z) (copy : bool)
    (a1 a2 : Z) (i sz : Z) (e : option ptr) (c : RamCacheCLFUS) (victims : list ptr)
    : Z * RamCacheCLFUS :=
  let c := foldl (insert_victim sz) c victims in
  let '(p, c) :=
    match e with
    | Some p => (p, set_history (history c - 1) c) (* move from history *)
    | None => put_new_entry k a1 a2 i c
    end in
  (1, put_install d l copy sz p c).

(** From [Lhistory] to [return 0]. *)
Definition put_history (k : INK_MD5) (d : IOBufferData) (a1 a2 : Z) (i : Z)
    (c : RamCacheCLFUS) (victims : list ptr) : Z * RamCacheCLFUS :=
  let c := requeue_victims c victims in
  let p := next_ptr c in
  let c := set_next_ptr (S p) c in
  let c := set_heap (<[p := Entry k a1 a2 1 (u32 (block_size d)) 0 0
                            0 false false false None]> (heap c)) c in
  let c := bucket_push i p c in
  let c := upd p (set_flag_lru true) c in
  let c := set_lru1 (que_enqueue p (lru1 c)) c in
  let c := set_history (history c + 1) c in
  (0, c).

(** The in-place update of an entry found on [lru[0]]. *)
Definition put_hit (d : IOBufferData) (l : Z) (copy : bool) (sz : Z) (p : ptr)
    (c : RamCacheCLFUS) : Z * RamCacheCLFUS :=
  let c := move_compressed p c in
  let c := requeue p c in
  let delta := sz - size (deref c p) in
  let c := set_bytes (bytes c + delta) c in
  let c := upd p (λ e, set_size sz (set_data (Some (put_buffer d l copy)) e)) c in
  let c := upd p (set_flag_copy copy) c in
  let c := upd p (set_flag_compressed 0) c in
  (1, c).

(** The victim selection of [put] and where it leads. *)
Definition put_select (k : INK_MD5) (d : IOBufferData) (l : Z) (copy : bool)
    (a1 a2 : Z) (i sz : Z) (e : option ptr) (c : RamCacheCLFUS) : Z * RamCacheCLFUS :=
  match victim_loop (lru0 c) e sz c [] with
  | Linsert c victims => put_insert k d l copy a1 a2 i sz e c victims
  | Lhistory c victims => put_history k d a1 a2 i c victims
  | Lreturn0 c => (0, c)
  end.

(** [put] from the declaration of [victims] on: the initial fill, the seen
    filter for a key without an entry, then the victim selection. *)
Definition put_admission (k : INK_MD5) (d : IOBufferData) (l : Z) (copy : bool)
    (a1 a2 : Z) (i sz : Z) (e : option ptr) (c : RamCacheCLFUS) : Z * RamCacheCLFUS :=
  if (match lru1 c with [] => true | _ => false end) && (bytes c + sz <=? max_bytes c)
  then put_insert k d l copy a1 a2 i sz e c []   (* initial fill *)
  else
    match e with
    | None =>
        let s := word k 3 mod nth (ibuckets c) bucket_sizes 0 in
        let kw := u16 (Z.shiftr (word k 3) 16) in
        let kk := seen_at c s in
        let c := set_seen (<[s := kw]> (seen c)) c in
        if (history c >=? objects c) && negb (kk =? kw) then (0, c) (* UNSEEN *)
        else put_select k d l copy a1 a2 i sz e c
    | Some _ => put_select k d l copy a1 a2 i sz e c
    end.

(** [put] after the lookup, from [if (e)] on. *)
Definition put_found (k : INK_MD5) (d : IOBufferData) (l : Z) (copy : bool)
    (a1 a2 : Z) (i sz : Z) (e : option ptr) (c : RamCacheCLFUS) : Z * RamCacheCLFUS :=
  match e with
  | Some p =>
      let c := upd p (λ x, set_hits (u64 (hits x + 1)) x) c in
      if negb (flag_lru (deref c p)) then put_hit d l copy sz p c (* already in cache *)
      else put_admission k d l copy a1 a2 i sz e (set_lru1 (que_remove p (lru1 c)) c)
  | None => put_admission k d l copy a1 a2 i sz e c
  end.

(** [RamCacheCLFUS::put] *)
Definition put (k : INK_MD5) (d : IOBufferData) (l : Z) (copy : bool) (a1 a2 : Z)
    (c : RamCacheCLFUS) : Z * RamCacheCLFUS :=
  if max_bytes c =? 0 then (0, c)
  else
    let i := word k 3 mod nbuckets c in
    let sz := u32 (if copy then l else block_size d) in
    let '(e, c) := put_lookup k a1 a2 (chain c i) c in
    put_found k d l copy a1 a2 i sz e c.

(** ** The compressor sweep: committing one candidate *)

(** The commit of [compress_entries] for the candidate [p], run under the
    lock once the entry has been found again: from [if (failed)] to the end
    of [Lfailed:].  [l] is the length the compressor reported, [b] the
    buffer it filled and [ctype] is [cache_config_ram_cache_compress]. *)
Definition compress_commit (ctype : Z) (p : ptr) (l : Z) (b : list byte)
    (failed : bool) (c : RamCacheCLFUS) : RamCacheCLFUS :=
  let Lfailed := upd p (set_flag_incompressible true) in
  if failed then Lfailed c
  else
    let c := if exceeds REQUIRED_COMPRESSION l (len (deref c p))
             then upd p (set_flag_incompressible true) c else c in
    if exceeds REQUIRED_SHRINK l (size (deref c p)) then Lfailed c
    else
      let e := deref c p in
      if l <? len e then
        let c := upd p (set_flag_compressed (ctype mod 8)) c in
        let c := upd p (set_compressed_len l) c in
        let delta := l - size e in
        let c := set_bytes (bytes c + delta) c in
        let c := upd p (set_size l) c in
        upd p (set_data (Some (IOBuf (take (Z.to_nat l) b) l))) c
      else
        let c := upd p (set_flag_compressed 0) c in
        let bb := take (Z.to_nat (len e)) (data_bytes e) in
        let delta := len e - size e in
        let c := set_bytes (bytes c + delta) c in
        let c := upd p (set_size (len e)) c in
        upd p (set_data (Some (IOBuf bb (len e)))) c.

(** * Specification vocabulary

    The predicates the theorems are stated with, the concrete caches they are
    run on, and the proof tactics. *)

#[global] Arguments que_remove : simpl never.
#[global] Arguments que_enqueue : simpl never.
#[global] Arguments chain : simpl never.
#[global] Arguments deref : simpl never.
#[global] Arguments footprint : simpl never.
#[global] Arguments word : simpl never.

Ltac proj_simpl :=
  cbn [max_bytes bytes objects history ibuckets nbuckets bucket lru0 lru1 seen
       ncompressed compressed heap next_ptr upd set_max_bytes set_bytes set_objects
       set_history set_ibuckets set_nbuckets set_bucket set_lru0 set_lru1 set_seen
       set_ncompressed set_compressed set_heap set_next_ptr lru set_lru
       bucket_remove bucket_push] in *.

(** The bucket an entry belongs to: [e->key.word(3) % nbuckets]. *)
Definition bucket_of (c : RamCacheCLFUS) (e : RamCacheCLFUSEntry) : Z :=
  word (key e) 3 mod nbuckets c.

(** Consistency of the hash index: every allocated entry is on the chain of
    its bucket, every address on a chain is allocated, and a disabled cache
    ([max_bytes = 0]) holds no entry. *)
Definition index_inv (c : RamCacheCLFUS) : Prop :=
  map_Forall (λ p e, p ∈ chain c (bucket_of c e)) (heap c)
  ∧ map_Forall (λ _ ch, Forall (λ p, is_Some (heap c !! p)) ch) (bucket c)
  ∧ (max_bytes c = 0 → heap c = ∅).

#[global] Instance index_inv_dec c : Decision (index_inv c).
Proof. unfold index_inv. apply _. Defined.

(** The entry at [x] is in [c'] what it was in [c], its hit counter apart. *)
Definition hits_only (c c' : RamCacheCLFUS) (x : nat) : Prop :=
  ∃ h, heap c' !! x = set_hits h <$> heap c !! x.

(** The bytes charged for the entries [vs]: the sum of [size + ENTRY_OVERHEAD]. *)
Definition sum_fp (c : RamCacheCLFUS) (vs : list nat) : Z :=
  foldr (λ v acc, footprint (size (deref c v)) + acc) 0 vs.

#[global] Arguments sum_fp : simpl never.

(** Two states with the same capacity, object count, seen filter, allocator
    and table size. *)
Definition same_config (c c' : RamCacheCLFUS) : Prop :=
  max_bytes c' = max_bytes c ∧ objects c' = objects c ∧ seen c' = seen c
  ∧ next_ptr c' = next_ptr c ∧ nbuckets c' = nbuckets c ∧ ibuckets c' = ibuckets c.

(** No entry has a negative [size] (the field is a [uint32_t]). *)
Definition sizes_ok (c : RamCacheCLFUS) : Prop :=
  map_Forall (λ _ e, 0 ≤ size e) (heap c).

(** What the victim selection keeps of a state: its configuration, and every
    entry that is not a ghost but for its hit counter; ghosts may be freed. *)
Definition loop_frame (c c' : RamCacheCLFUS) : Prop :=
  same_config c c'
  ∧ (∀ x, x ∉ lru1 c → hits_only c c' x)
  ∧ (∀ x, heap c' !! x = None ∨ hits_only c c' x).

(** The size [put] charges: [copy ? len : data->block_size()]. *)
Definition put_size (d : IOBufferData) (l : Z) (copy : bool) : Z :=
  u32 (if copy then l else block_size d).

(** No entry of the key's chain carries the digest [k]. *)
Definition digest_free (k : INK_MD5) (c : RamCacheCLFUS) : Prop :=
  Forall (λ p, key (deref c p) ≠ k) (chain c (word k 3 mod nbuckets c)).

(** The slot and the fingerprint of the seen filter for [k]. *)
Definition seen_slot (k : INK_MD5) (c : RamCacheCLFUS) : Z :=
  word k 3 mod nth (ibuckets c) bucket_sizes 0.
Definition seen_tag (k : INK_MD5) : Z := u16 (Z.shiftr (word k 3) 16).

(** The test of the seen filter: [history >= objects && kk != k]. *)
Definition unseen (k : INK_MD5) (c : RamCacheCLFUS) : Prop :=
  objects c ≤ history c ∧ seen_at c (seen_slot k c) ≠ seen_tag k.

(** The initial-fill shortcut: [!lru[1].head] and [bytes + size <= max_bytes]. *)
Definition initial_fill (sz : Z) (c : RamCacheCLFUS) : Prop :=
  lru1 c = [] ∧ bytes c + sz ≤ max_bytes c.

(** The ghost [put] creates at [Lhistory]. *)
Definition ghost_entry (k : INK_MD5) (d : IOBufferData) (a1 a2 : Z) : RamCacheCLFUSEntry :=
  Entry k a1 a2 1 (u32 (block_size d)) 0 0 0 false true false None.

(** Resident entries are not on the history queue. *)
Definition queues_disjoint (c : RamCacheCLFUS) : Prop :=
  Forall (λ v, v ∉ lru1 c) (lru0 c).

(** What the lookup of [put] for [(k, a1, a2)] may have done to [c0]. *)
Definition lookup_rel (k : INK_MD5) (a1 a2 : Z) (c0 c : RamCacheCLFUS) : Prop :=
  max_bytes c = max_bytes c0 ∧ nbuckets c = nbuckets c0 ∧ ibuckets c = ibuckets c0
  ∧ seen c = seen c0 ∧ next_ptr c = next_ptr c0
  ∧ bytes c ≤ bytes c0
  ∧ (∀ x, x ∈ lru0 c → x ∈ lru0 c0) ∧ (∀ x, x ∈ lru1 c → x ∈ lru1 c0)
  ∧ (∀ x, heap c !! x = heap c0 !! x
          ∨ (heap c !! x = None ∧ key (deref c0 x) = k
             ∧ ¬ (auxkey1 (deref c0 x) = a1 ∧ auxkey2 (deref c0 x) = a2)))
  ∧ (∀ x, x ∈ lru0 c0 → key (deref c0 x) ≠ k → x ∈ lru0 c).

(** Resident entries were handed out by the allocator. *)
Definition resident_allocated (c : RamCacheCLFUS) : Prop :=
  Forall (λ v, (v < next_ptr c)%nat) (lru0 c).

(** Concrete keys, buffers and caches used to run the code: [ex_cold] is an
    empty cache of 1000 bytes, [ex_full] has three residents and one ghost,
    [ex_warm] is [ex_full] after one read of each resident, [ex_packed] holds
    one fastlz-compressed entry and [ex_tagged] one entry with aux keys (1, 1).
    The decompressors of the examples fail on every input. *)
Definition ex_key (n : Z) : INK_MD5 := MD5 0 0 0 n.
Definition ex_buf (n : Z) : IOBufferData := IOBuf [x01; x02; x03; x04] n.
Definition ex_put (n sz : Z) (c : RamCacheCLFUS) : RamCacheCLFUS :=
  (put (ex_key n) (ex_buf sz) 4 false 0 0 c).2.
Definition ex_fastlz (_ : list byte) (_ _ : Z) : Z * list byte := (0, []).
Definition ex_zlib (_ : list byte) (_ _ : Z) : Z * list byte := (0, []).
Definition ex_lzma (_ : Z) (_ : list byte) (_ _ : Z) : Z * list byte := (0, []).
Definition ex_get := get ex_fastlz false ex_zlib false ex_lzma (λ _, 128).
Definition ex_cold : RamCacheCLFUS := init 1000 new_RamCacheCLFUS.
Definition ex_full : RamCacheCLFUS :=
  ex_put 4 100 (ex_put 3 100 (ex_put 2 100 (ex_put 1 100 ex_cold))).
Definition ex_warm : RamCacheCLFUS :=
  (ex_get (ex_key 1) 0 0 (ex_get (ex_key 3) 0 0 (ex_get (ex_key 2) 0 0 ex_full).2).2).2.
Definition ex_blob : IOBufferData := IOBuf (repeat x61 100) 128.
Definition ex_plain : RamCacheCLFUS := (put (ex_key 1) ex_blob 100 false 0 0 ex_cold).2.
Definition ex_plain_copy : RamCacheCLFUS := (put (ex_key 1) ex_blob 100 true 0 0 ex_cold).2.
Definition ex_packed : RamCacheCLFUS :=
  compress_commit CACHE_COMPRESSION_FASTLZ 1 50 (repeat x00 50) false ex_plain.
Definition ex_tagged : RamCacheCLFUS :=
  (put (ex_key 65536) (ex_buf 100) 4 false 1 1 ex_cold).2.

#[global] Instance queues_disjoint_dec c : Decision (queues_disjoint c).
Proof. unfold queues_disjoint. apply _. Defined.
#[global] Instance resident_allocated_dec c : Decision (resident_allocated c).
Proof. unfold resident_allocated. apply _. Defined.
#[global] Instance sizes_ok_dec c : Decision (sizes_ok c).
Proof. unfold sizes_ok. apply _. Defined.
#[global] Instance digest_free_dec k c : Decision (digest_free k c).
Proof. unfold digest_free. apply _. Defined.
#[global] Instance unseen_dec k c : Decision (unseen k c).
Proof. unfold unseen. apply _. Defined.
#[global] Instance initial_fill_dec sz c : Decision (initial_fill sz c).
Proof. unfold initial_fill. apply _. Defined.

Ltac by_compute := apply (bool_decide_unpack _); vm_compute; exact I.

(** ** The shape of the store

    What the operations keep of the heap, the two queues and the chains:
    no address is twice on the queues, an entry on [lru[0]] is allocated and
    no ghost, an entry on [lru[1]] is an allocated ghost, every allocated
    address was handed out, and every address on a chain is allocated, hashes
    to that chain and occurs there once.  While [put] selects victims the
    dequeued victims [vs] still count with [lru[0]], and the ghost [g] it
    took off [lru[1]] with [lru[1]]. *)

(** An allocated entry was handed out by the allocator and its unsigned
    fields are not negative. *)
Definition entry_ok (np : nat) (p : nat) (e : RamCacheCLFUSEntry) : Prop :=
  (p < np)%nat ∧ 0 ≤ size e ∧ 0 ≤ len e ∧ 0 ≤ compressed_len e.

(** The shape of the store: [A] lists the entries that are not ghosts and
    are on [lru[0]] or held as victims, [B] the ghosts on [lru[1]] or held
    aside by [put]. *)
Definition store_inv (A B : list nat) (h : gmap nat RamCacheCLFUSEntry)
    (bk : gmap Z (list nat)) (nb : Z) (np : nat) : Prop :=
  NoDup (A ++ B)
  ∧ (∀ p, p ∈ A → ∃ e, h !! p = Some e ∧ flag_lru e = false)
  ∧ (∀ p, p ∈ B → ∃ e, h !! p = Some e ∧ flag_lru e = true)
  ∧ map_Forall (entry_ok np) h
  ∧ (∀ i p, p ∈ default [] (bk !! i) → ∃ e, h !! p = Some e ∧ word (key e) 3 mod nb = i)
  ∧ (∀ i, NoDup (default [] (bk !! i))).

(** An assignment that keeps the key and the unsigned fields in range. *)
Definition keeps_entry (f : RamCacheCLFUSEntry → RamCacheCLFUSEntry)
    (e : RamCacheCLFUSEntry) : Prop :=
  key (f e) = key e
  ∧ (0 ≤ size e ∧ 0 ≤ len e ∧ 0 ≤ compressed_len e
     → 0 ≤ size (f e) ∧ 0 ≤ len (f e) ∧ 0 ≤ compressed_len (f e)).

(** What the chains of the new table hold while [resize_hashtable] moves the
    entries [S] over. *)
Definition rehash_inv (anbuckets : Z) (c : RamCacheCLFUS) (nb : gmap Z (list nat))
    (S : list nat) : Prop :=
  (∀ i p, p ∈ default [] (nb !! i) → p ∈ S ∧ word (key (deref c p)) 3 mod anbuckets = i)
  ∧ (∀ i, NoDup (default [] (nb !! i))).

(** The shape of the store while [put] holds the victims [vs] and the
    ghosts [g] off the queues, and between operations. *)
Definition held_inv (vs g : list nat) (c : RamCacheCLFUS) : Prop :=
  store_inv (lru0 c ++ vs) (lru1 c ++ g) (heap c) (bucket c) (nbuckets c) (next_ptr c).

Definition cache_inv (c : RamCacheCLFUS) : Prop := held_inv [] [] c.

(** The ghost [put] found under its key and took off [lru[1]], if any. *)
Definition held_ghost (e : option nat) : list nat :=
  match e with Some p => [p] | None => [] end.

(** Solves [keeps_entry] for a setter. *)
Ltac keeps_entry_tac :=
  intros; unfold keeps_entry;
  repeat match goal with e : RamCacheCLFUSEntry |- _ => destruct e end;
  cbn; repeat split; try done; try lia.

(** The states a cache goes through: [init] on a new cache, then [put],
    [get], [fixup] and commits of the compressor, with lengths that are not
    negative (they are [uint32_t] in the source). *)
Inductive reachable : RamCacheCLFUS → Prop :=
  | reachable_init abytes : reachable (init abytes new_RamCacheCLFUS)
  | reachable_put k d l copy a1 a2 c :
      reachable c → 0 ≤ l → reachable (put k d l copy a1 a2 c).2
  | reachable_get fastlz has_libz zlib has_lzma lzma block k a1 a2 c :
      reachable c → reachable (get fastlz has_libz zlib has_lzma lzma block k a1 a2 c).2
  | reachable_fixup k o1 o2 n1 n2 c :
      reachable c → reachable (fixup k o1 o2 n1 n2 c).2
  | reachable_compress_commit ctype p l b failed c :
      reachable c → 0 ≤ l → reachable (compress_commit ctype p l b failed c).

(** ** The index, the counters and the entries behind the results

    The vocabulary of the theorems on the states the cache reaches: the
    hash index (one entry per digest, every entry on the chain of its
    bucket), the counters [objects], [bytes] and [history] against the
    two queues as [check_accounting] reads them, and the entry a stored
    [put] leaves. *)

(** [ibuckets] indexes inside [bucket_sizes]. *)
Definition table_in_range (c : RamCacheCLFUS) : Prop :=
  (ibuckets c < length bucket_sizes)%nat.

(** No two entries on the chains carry the same digest. *)
Definition keys_unique (c : RamCacheCLFUS) : Prop :=
  ∀ i j p q, p ∈ chain c i → q ∈ chain c j → key (deref c p) = key (deref c q) → p = q.

(** While the table is in range, every allocated entry is on the chain of
    its bucket. *)
Definition index_complete (c : RamCacheCLFUS) : Prop :=
  table_in_range c → ∀ p e, heap c !! p = Some e → p ∈ chain c (bucket_of c e).

(** A disabled cache holds nothing; an enabled one has
    [nbuckets = bucket_sizes[ibuckets]]. *)
Definition table_inv (c : RamCacheCLFUS) : Prop :=
  (max_bytes c = 0 → heap c = ∅)
  ∧ (max_bytes c ≠ 0 → nbuckets c = nth (ibuckets c) bucket_sizes 0).

Definition index_ok (c : RamCacheCLFUS) : Prop :=
  keys_unique c ∧ index_complete c ∧ table_inv c.

(** Every address on a chain is allocated and hashes to that chain. *)
Definition chains_allocated (c : RamCacheCLFUS) : Prop :=
  ∀ i p, p ∈ chain c i → ∃ e, heap c !! p = Some e ∧ bucket_of c e = i.

(** [c'] comes from [c] by freeing entries, which leave their chains, and by
    assignments that keep keys; the table is the same. *)
Definition index_shrink (c c' : RamCacheCLFUS) : Prop :=
  max_bytes c' = max_bytes c ∧ nbuckets c' = nbuckets c ∧ ibuckets c' = ibuckets c
  ∧ (∀ i x, x ∈ chain c' i → x ∈ chain c i)
  ∧ (∀ i x, x ∈ chain c i → is_Some (heap c' !! x) → x ∈ chain c' i)
  ∧ (∀ x e', heap c' !! x = Some e' → ∃ e, heap c !! x = Some e ∧ key e' = key e).

(** No entry on the chains carries the digest [k]. *)
Definition digest_absent (k : INK_MD5) (c : RamCacheCLFUS) : Prop :=
  ∀ i x, x ∈ chain c i → key (deref c x) ≠ k.

(** [check_accounting] (compiled under [CHECK_ACOUNTING]): a walk of the two
    queues against the three counters; [true] when no [ink_assert] fails.
    The sums are [int64_t] and far from its bounds; each term
    [y->size + ENTRY_OVERHEAD] is [uint32_t] arithmetic. *)
Definition check_accounting (c : RamCacheCLFUS) : bool :=
  let '(x, xsize) :=
    foldl (λ '(x, xsize) y, (x + 1, xsize + footprint (size (deref c y)))) (0, 0) (lru0 c) in
  let h := foldl (λ h _, h + 1) 0 (lru1 c) in
  (x =? objects c) && (xsize =? bytes c) && (h =? history c).

(** A size to which [ENTRY_OVERHEAD] can be added within [uint32_t]. *)
Definition small (z : Z) : Prop := 0 ≤ z ∧ z + ENTRY_OVERHEAD < 2 ^ 32.

Definition small_sizes (c : RamCacheCLFUS) : Prop :=
  map_Forall (λ _ e, small (size e) ∧ small (len e) ∧ small (compressed_len e)) (heap c).

(** The sum [check_accounting] computes over a queue, on a heap. *)
Definition fp_sum (h : gmap nat RamCacheCLFUSEntry) (l : list nat) : Z :=
  foldr (λ v acc, footprint (size (default proto_entry (h !! v))) + acc) 0 l.

(** The counters against the queues: [A] and [B] are the entries counted by
    [objects] and [history], [L] is [lru[0]]; every allocated entry is
    counted where its [lru] flag says. *)
Definition acct_inv (A B L : list nat) (h : gmap nat RamCacheCLFUSEntry)
    (o b hi : Z) : Prop :=
  o = Z.of_nat (length A) ∧ b = fp_sum h L ∧ hi = Z.of_nat (length B)
  ∧ (∀ p e, h !! p = Some e → if flag_lru e then p ∈ B else p ∈ A).

(** The accounting while [put] holds the victims [vs] and the ghosts [g]. *)
Definition held_accounted (vs g : list nat) (c : RamCacheCLFUS) : Prop :=
  acct_inv (lru0 c ++ vs) (lru1 c ++ g) (lru0 c) (heap c) (objects c) (bytes c) (history c).

Definition accounted (c : RamCacheCLFUS) : Prop := held_accounted [] [] c.

#[global] Arguments fp_sum : simpl never.

Definition small_entry (e : RamCacheCLFUSEntry) : Prop :=
  small (size e) ∧ small (len e) ∧ small (compressed_len e).

(** The accounting together with the bound on sizes. *)
Definition books (vs g : list nat) (c : RamCacheCLFUS) : Prop :=
  held_accounted vs g c ∧ small_sizes c.

(** The state in which [check_accounting] is called before the new or
    promoted entry [p] is installed: [p] is counted nowhere. *)
Definition installable (p : nat) (c : RamCacheCLFUS) : Prop :=
  is_Some (heap c !! p) ∧ (p ∉ lru0 c)
  ∧ objects c = Z.of_nat (length (lru0 c)) ∧ bytes c = fp_sum (heap c) (lru0 c)
  ∧ history c = Z.of_nat (length (lru1 c))
  ∧ (∀ q e, heap c !! q = Some e → q ≠ p → if flag_lru e then q ∈ lru1 c else q ∈ lru0 c)
  ∧ small_sizes c.

(** The states reached with lengths and block sizes to which
    [ENTRY_OVERHEAD] can be added within [uint32_t]; the compressor commits
    results for entries of [lru[0]] only. *)
Inductive reachable_small : RamCacheCLFUS → Prop :=
  | small_init abytes : reachable_small (init abytes new_RamCacheCLFUS)
  | small_put k d l copy a1 a2 c :
      reachable_small c → small l → small (u32 (block_size d)) →
      reachable_small (put k d l copy a1 a2 c).2
  | small_get fastlz has_libz zlib has_lzma lzma block k a1 a2 c :
      reachable_small c →
      reachable_small (get fastlz has_libz zlib has_lzma lzma block k a1 a2 c).2
  | small_fixup k o1 o2 n1 n2 c :
      reachable_small c → reachable_small (fixup k o1 o2 n1 n2 c).2
  | small_compress_commit ctype p l b failed c :
      reachable_small c → p ∈ lru0 c → small l →
      reachable_small (compress_commit ctype p l b failed c).

(** Two states that differ at most in the compressor cursor, the entries
    and the queues. *)
Definition same_counters (c c' : RamCacheCLFUS) : Prop :=
  bucket c' = bucket c ∧ bytes c' = bytes c ∧ objects c' = objects c
  ∧ history c' = history c ∧ nbuckets c' = nbuckets c ∧ ibuckets c' = ibuckets c
  ∧ max_bytes c' = max_bytes c ∧ seen c' = seen c ∧ next_ptr c' = next_ptr c.

(** The entry [put] leaves for the key when it returns 1. *)
Definition stored_as (k : INK_MD5) (a1 a2 : Z) (d : IOBufferData) (l : Z) (copy : bool)
    (x : RamCacheCLFUSEntry) : Prop :=
  key x = k ∧ auxkey1 x = a1 ∧ auxkey2 x = a2
  ∧ flag_lru x = false ∧ flag_compressed x = 0 ∧ flag_copy x = copy
  ∧ data x = Some (put_buffer d l copy) ∧ size x = put_size d l copy.

(** Every entry on the chains that carries the digest [k] is a ghost. *)
Definition digest_ghost (k : INK_MD5) (c : RamCacheCLFUS) : Prop :=
  ∀ i x, x ∈ chain c i → key (deref c x) = k → flag_lru (deref c x) = true.

(** * Theorems *)

(** ** Entries, queues and the lookup of [get] and [fixup] *)

Lemma heap_upd p f c q :
  heap (upd p f c) !! q = if decide (p = q) then f <$> heap c !! q else heap c !! q.
Proof. unfold upd; cbn. rewrite lookup_alter. by case_decide; subst. Qed.

Lemma deref_upd_eq p f c e :
  heap c !! p = Some e → deref (upd p f c) p = f e.
Proof. intros H. unfold deref. rewrite heap_upd, decide_True, H by done. done. Qed.

Lemma deref_upd_ne p f c q : p ≠ q → deref (upd p f c) q = deref c q.
Proof. intros H. unfold deref. by rewrite heap_upd, decide_False. Qed.

Lemma elem_of_que_remove p q x : x ∈ que_remove p q ↔ x ≠ p ∧ x ∈ q.
Proof. apply (list_elem_of_filter (λ x, x ≠ p)). Qed.



(** The entry found by [get] and [fixup]. *)
Lemma find_matches k a1 a2 c ch p :
  List.find (λ p, entry_matches k a1 a2 (deref c p)) ch = Some p →
  p ∈ ch ∧ entry_matches k a1 a2 (deref c p) = true.
Proof. intros [H1 H2]%find_some. split; [by apply list_elem_of_In|done]. Qed.

Lemma entry_matches_spec k a1 a2 e :
  entry_matches k a1 a2 e = true ↔ key e = k ∧ auxkey1 e = a1 ∧ auxkey2 e = a2.
Proof.
  unfold entry_matches. rewrite !andb_true_iff, bool_decide_eq_true, !Z.eqb_eq. tauto.
Qed.

Lemma chain_allocated c i p :
  index_inv c → p ∈ chain c i → is_Some (heap c !! p).
Proof.
  intros (_ & H & _) Hp. unfold chain in Hp.
  destruct (bucket c !! i) as [ch|] eqn:E; cbn in Hp; [|by apply elem_of_nil in Hp].
  specialize (H _ _ E). rewrite Forall_forall in H. by apply H.
Qed.

Lemma find_first_match k a1 a2 c ch :
  (∃ p, p ∈ ch ∧ entry_matches k a1 a2 (deref c p) = true)
  ↔ is_Some (List.find (λ p, entry_matches k a1 a2 (deref c p)) ch).
Proof.
  split.
  - intros (p & Hp & Hm). destruct (List.find _ ch) eqn:E; [by eexists|].
    apply list_elem_of_In in Hp. eapply find_none in E; [|exact Hp]. cbn in E. congruence.
  - intros [p Hp]. apply find_matches in Hp. by exists p.
Qed.

(** C7.  Fixup frame.  On an enabled cache, [fixup] returns 1 exactly when an
    entry of the key's chain matches the key and both old aux keys (and, when
    the index is consistent, exactly when some allocated entry does).  When it
    returns 1 the first such entry has its two aux keys overwritten, so that
    afterwards [auxkey1] is the new aux key 1 and [auxkey2] the new aux key 2,
    and is otherwise the same (key, hits, size, len, payload and flags), every
    other entry is untouched; otherwise it returns 0 and the state is
    unchanged.  In both cases the queues, the chains and the counters are as
    before. *)
Theorem fixup_frame k o1 o2 n1 n2 c :
  max_bytes c ≠ 0 →
  let i := word k 3 mod nbuckets c in
  let r := fixup k o1 o2 n1 n2 c in
  (r.1 = 1 ↔ ∃ p, p ∈ chain c i ∧ entry_matches k o1 o2 (deref c p) = true)
  ∧ (index_inv c →
       (r.1 = 1 ↔ ∃ p e, heap c !! p = Some e
                    ∧ key e = k ∧ auxkey1 e = o1 ∧ auxkey2 e = o2))
  ∧ (r.1 = 1 →
       ∃ p, p ∈ chain c i ∧ entry_matches k o1 o2 (deref c p) = true
         ∧ heap r.2 !! p = set_aux n1 n2 <$> heap c !! p
         ∧ (∀ q, q ≠ p → heap r.2 !! q = heap c !! q)
         ∧ (∀ e', heap r.2 !! p = Some e' → auxkey1 e' = n1 ∧ auxkey2 e' = n2)
         ∧ (index_inv c → is_Some (heap r.2 !! p)))
  ∧ (r.1 ≠ 1 → r.1 = 0 ∧ r.2 = c)
  ∧ (∀ e, auxkey1 (set_aux n1 n2 e) = n1 ∧ auxkey2 (set_aux n1 n2 e) = n2
          ∧ hits (set_aux n1 n2 e) = hits e ∧ size (set_aux n1 n2 e) = size e
          ∧ len (set_aux n1 n2 e) = len e ∧ data (set_aux n1 n2 e) = data e
          ∧ compressed_len (set_aux n1 n2 e) = compressed_len e
          ∧ flag_compressed (set_aux n1 n2 e) = flag_compressed e
          ∧ flag_incompressible (set_aux n1 n2 e) = flag_incompressible e
          ∧ flag_lru (set_aux n1 n2 e) = flag_lru e
          ∧ flag_copy (set_aux n1 n2 e) = flag_copy e
          ∧ key (set_aux n1 n2 e) = key e)
  ∧ lru0 r.2 = lru0 c ∧ lru1 r.2 = lru1 c ∧ bucket r.2 = bucket c
  ∧ bytes r.2 = bytes c ∧ objects r.2 = objects c ∧ history r.2 = history c
  ∧ seen r.2 = seen c ∧ compressed r.2 = compressed c ∧ ncompressed r.2 = ncompressed c
  ∧ max_bytes r.2 = max_bytes c ∧ nbuckets r.2 = nbuckets c.
Proof.
  intros Hmax%Z.eqb_neq i r. subst r. unfold fixup. rewrite Hmax. fold i.
  pose proof (find_first_match k o1 o2 c (chain c i)) as Hfirst.
  assert (Hheap : index_inv c →
    ((∃ p, p ∈ chain c i ∧ entry_matches k o1 o2 (deref c p) = true)
     ↔ ∃ p e, heap c !! p = Some e ∧ key e = k ∧ auxkey1 e = o1 ∧ auxkey2 e = o2)).
  { intros Hinv. split.
    - intros (p & Hin & Hm). destruct (chain_allocated _ _ _ Hinv Hin) as [e He].
      unfold deref in Hm. rewrite He in Hm. apply entry_matches_spec in Hm. by exists p, e.
    - intros (p & e & He & Hk & H1 & H2). exists p. destruct Hinv as (Hidx & _).
      specialize (Hidx _ _ He). cbn in Hidx. unfold bucket_of in Hidx. rewrite Hk in Hidx.
      split; [exact Hidx|]. unfold deref. rewrite He. by apply entry_matches_spec. }
  destruct (List.find _ _) as [p|] eqn:Hfind; cbn [fst snd]; proj_simpl.
  - apply find_matches in Hfind as [Hin Hm].
    split_and!; try done.
    + split; [intros _; by exists p|done].
    + intros Hinv. rewrite <- (Hheap Hinv). split; [intros _; by exists p|done].
    + intros _. exists p. split_and!; try done.
      * by rewrite lookup_alter_eq.
      * intros q Hq. by rewrite lookup_alter_ne.
      * intros e'. rewrite lookup_alter_eq.
        destruct (heap c !! p) as [e|]; [|done]. by intros [= <-].
      * intros Hinv. destruct (chain_allocated _ _ _ Hinv Hin) as [e He].
        rewrite lookup_alter_eq, He. by eexists.
  - assert (Hnone : ¬ ∃ p, p ∈ chain c i ∧ entry_matches k o1 o2 (deref c p) = true).
    { intros Hex%Hfirst. revert Hex. apply is_Some_None. }
    split_and!; try done.
    split; [done|]. intros Hex. exfalso. apply Hnone. by apply Hheap.
Qed.

(** [move_compressed] only moves the compressor cursor. *)
Lemma move_compressed_frame p c :
  let c' := move_compressed p c in
  heap c' = heap c ∧ lru0 c' = lru0 c ∧ lru1 c' = lru1 c ∧ bucket c' = bucket c
  ∧ bytes c' = bytes c ∧ objects c' = objects c ∧ history c' = history c
  ∧ nbuckets c' = nbuckets c ∧ max_bytes c' = max_bytes c ∧ seen c' = seen c
  ∧ ibuckets c' = ibuckets c ∧ next_ptr c' = next_ptr c.
Proof.
  unfold move_compressed. case_decide; [|done].
  by destruct (que_next _ _).
Qed.

Lemma requeue_frame p c :
  let c' := requeue p c in
  heap c' = heap c ∧ bucket c' = bucket c
  ∧ bytes c' = bytes c ∧ objects c' = objects c ∧ history c' = history c
  ∧ nbuckets c' = nbuckets c ∧ max_bytes c' = max_bytes c ∧ seen c' = seen c
  ∧ ibuckets c' = ibuckets c ∧ next_ptr c' = next_ptr c
  ∧ compressed c' = compressed c ∧ ncompressed c' = ncompressed c.
Proof. unfold requeue, set_lru. by destruct (flag_lru _). Qed.

Lemma requeue_lru p c :
  let i := flag_lru (deref c p) in
  lru (requeue p c) i = que_enqueue p (que_remove p (lru c i))
  ∧ lru (requeue p c) (negb i) = lru c (negb i).
Proof. unfold requeue, set_lru, lru. by destruct (flag_lru _). Qed.

Lemma delete_alter_heap (f : RamCacheCLFUSEntry → RamCacheCLFUSEntry) (p : nat)
    (m : gmap nat RamCacheCLFUSEntry) :
  delete p (alter f p m) = delete p m.
Proof.
  apply map_eq. intros q. rewrite !lookup_delete. case_decide; [done|].
  by rewrite lookup_alter_ne.
Qed.

(** [destroy] of a resident entry and of a ghost. *)
Lemma destroy_resident p c :
  flag_lru (deref c p) = false →
  let e := deref c p in
  let c' := destroy p c in
  heap c' = delete p (heap c)
  ∧ lru0 c' = que_remove p (lru0 c) ∧ lru1 c' = lru1 c
  ∧ objects c' = objects c - 1 ∧ bytes c' = bytes c - footprint (size e)
  ∧ history c' = history c
  ∧ bucket c' = <[bucket_of c e := que_remove p (chain c (bucket_of c e))]> (bucket c)
  ∧ nbuckets c' = nbuckets c ∧ max_bytes c' = max_bytes c ∧ seen c' = seen c
  ∧ ibuckets c' = ibuckets c ∧ next_ptr c' = next_ptr c.
Proof.
  intros Hlru. unfold destroy. rewrite Hlru.
  destruct (move_compressed_frame p c) as (Hh & Hl0 & Hl1 & Hb & Hby & Ho & Hhi & Hn & Hm & Hs & Hi & Hx).
  cbn. unfold upd, bucket_remove, chain. cbn.
  rewrite delete_alter_heap, Hh, Hl0, Hl1, Hb, Hby, Ho, Hhi, Hn, Hm, Hs, Hi, Hx.
  done.
Qed.

Lemma destroy_ghost p c :
  flag_lru (deref c p) = true →
  let e := deref c p in
  let c' := destroy p c in
  heap c' = delete p (heap c)
  ∧ lru0 c' = lru0 c ∧ lru1 c' = que_remove p (lru1 c)
  ∧ objects c' = objects c ∧ bytes c' = bytes c
  ∧ history c' = history c - 1
  ∧ bucket c' = <[bucket_of c e := que_remove p (chain c (bucket_of c e))]> (bucket c)
  ∧ nbuckets c' = nbuckets c ∧ max_bytes c' = max_bytes c ∧ seen c' = seen c
  ∧ ibuckets c' = ibuckets c ∧ next_ptr c' = next_ptr c.
Proof.
  intros Hlru. unfold destroy. rewrite Hlru.
  destruct (move_compressed_frame p c) as (Hh & Hl0 & Hl1 & Hb & Hby & Ho & Hhi & Hn & Hm & Hs & Hi & Hx).
  cbn. unfold bucket_remove, chain. cbn.
  rewrite Hh, Hl0, Hl1, Hb, Hby, Ho, Hhi, Hn, Hm, Hs, Hi, Hx.
  done.
Qed.

Section GetFacts.
Context (fastlz_decompress : list byte → Z → Z → Z * list byte)
        (TS_HAS_LIBZ : bool)
        (uncompress : list byte → Z → Z → Z * list byte)
        (TS_HAS_LZMA : bool)
        (lzma_stream_buffer_decode : Z → list byte → Z → Z → Z * list byte)
        (iobuffer_block_size : Z → Z).

Local Abbreviation cache_decompress :=
  (decompress fastlz_decompress TS_HAS_LIBZ uncompress TS_HAS_LZMA lzma_stream_buffer_decode).
Local Abbreviation cache_get :=
  (get fastlz_decompress TS_HAS_LIBZ uncompress TS_HAS_LZMA lzma_stream_buffer_decode
       iobuffer_block_size).

End GetFacts.

(** ** The history clock *)

Lemma tick_free_frame p c :
  let c' := tick_free p c in
  lru0 c' = lru0 c ∧ lru1 c' = lru1 c ∧ bytes c' = bytes c ∧ objects c' = objects c
  ∧ max_bytes c' = max_bytes c ∧ nbuckets c' = nbuckets c ∧ ibuckets c' = ibuckets c
  ∧ seen c' = seen c ∧ next_ptr c' = next_ptr c ∧ compressed c' = compressed c
  ∧ ncompressed c' = ncompressed c ∧ history c' = history c - 1
  ∧ heap c' = delete p (heap c).
Proof. unfold tick_free. proj_simpl. by rewrite delete_alter_heap. Qed.

Lemma tick_frame c :
  let c' := tick c in
  lru0 c' = lru0 c ∧ bytes c' = bytes c ∧ objects c' = objects c
  ∧ max_bytes c' = max_bytes c ∧ nbuckets c' = nbuckets c ∧ ibuckets c' = ibuckets c
  ∧ seen c' = seen c ∧ next_ptr c' = next_ptr c ∧ compressed c' = compressed c
  ∧ ncompressed c' = ncompressed c.
Proof.
  unfold tick. destruct (lru1 c) as [|p q]; [done|].
  repeat case_match; try done;
    match goal with
    | |- context [tick_free ?x ?y] =>
        destruct (tick_free_frame x y) as (-> & _ & -> & -> & -> & -> & -> & -> & -> & -> & -> & _)
    end; done.
Qed.

(** The clock only touches entries of [lru[1]], and adds none to it. *)
Lemma tick_heap c x : x ∉ lru1 c → heap (tick c) !! x = heap c !! x.
Proof.
  unfold tick. destruct (lru1 c) as [|p q] eqn:E; [done|]. intros Hx.
  apply not_elem_of_cons in Hx as [Hxp Hxq].
  repeat case_match; proj_simpl;
    repeat match goal with
    | |- context [tick_free ?x ?y] =>
        destruct (tick_free_frame x y) as (_ & _ & _ & _ & _ & _ & _ & _ & _ & _ & _ & _ & ->)
    end; proj_simpl; rewrite ?lookup_delete_ne, ?lookup_alter_ne; try done.
  all: try (intros ->; try done).
  all: match goal with
       | H : que_enqueue _ _ = _ :: _ |- _ =>
           assert (Hin : x ∈ que_enqueue p q) by (rewrite H; left);
           unfold que_enqueue in Hin; apply elem_of_app in Hin as [Hin|Hin%list_elem_of_singleton];
           done
       end.
Qed.

Lemma tick_lru1 c x : x ∈ lru1 (tick c) → x ∈ lru1 c.
Proof.
  unfold tick. destruct (lru1 c) as [|p q] eqn:E; [by rewrite E|].
  repeat case_match; proj_simpl;
    repeat match goal with
    | |- context [tick_free ?x ?y] =>
        destruct (tick_free_frame x y) as (_ & -> & _)
    end; proj_simpl; unfold que_enqueue in *.
  - set_solver.
  - set_solver.
  - intros Hx. assert (x ∈ q ++ [p]) by (rewrite H1; by right). set_solver.
  - set_solver.
Qed.

(** ** Entries that change in their hit counter only *)

Lemma set_hits_id e : set_hits (hits e) e = e.
Proof. by destruct e. Qed.

Lemma hits_only_refl c x : hits_only c c x.
Proof.
  unfold hits_only. destruct (heap c !! x) as [e|]; [|by exists 0].
  exists (hits e). cbn. by rewrite set_hits_id.
Qed.

Lemma hits_only_eq c c' x : heap c' !! x = heap c !! x → hits_only c c' x.
Proof. intros H. unfold hits_only. rewrite H. apply hits_only_refl. Qed.

Lemma hits_only_trans c1 c2 c3 x :
  hits_only c1 c2 x → hits_only c2 c3 x → hits_only c1 c3 x.
Proof.
  intros [h1 H1] [h2 H2]. exists h2. rewrite H2, H1.
  by destruct (heap c1 !! x).
Qed.

Lemma hits_only_alter c c' v (f : RamCacheCLFUSEntry → Z) x :
  heap c' = alter (λ e, set_hits (f e) e) v (heap c) → hits_only c c' x.
Proof.
  intros Hc. unfold hits_only. rewrite Hc, lookup_alter.
  case_decide; subst; [|apply hits_only_refl].
  destruct (heap c !! x) as [e|]; [|by exists 0]. by exists (f e).
Qed.

Lemma hits_only_deref c c' x :
  hits_only c c' x →
  let e := deref c x in let e' := deref c' x in
  key e' = key e ∧ auxkey1 e' = auxkey1 e ∧ auxkey2 e' = auxkey2 e
  ∧ size e' = size e ∧ len e' = len e ∧ data e' = data e
  ∧ compressed_len e' = compressed_len e ∧ flag_compressed e' = flag_compressed e
  ∧ flag_incompressible e' = flag_incompressible e ∧ flag_lru e' = flag_lru e
  ∧ flag_copy e' = flag_copy e.
Proof.
  intros [h H]. unfold deref. rewrite H. by destruct (heap c !! x).
Qed.

Lemma hits_only_size c c' x : hits_only c c' x → size (deref c' x) = size (deref c x).
Proof. intros H. by destruct (hits_only_deref _ _ _ H) as (_ & _ & _ & -> & _). Qed.

(** ** Requeueing victims *)

Lemma sum_fp_cons c v vs :
  sum_fp c (v :: vs) = footprint (size (deref c v)) + sum_fp c vs.
Proof. done. Qed.

Lemma sum_fp_app c vs ws : sum_fp c (vs ++ ws) = sum_fp c vs + sum_fp c ws.
Proof.
  induction vs as [|v vs IH]; [done|].
  rewrite <- app_comm_cons, !sum_fp_cons, IH. lia.
Qed.

Lemma sum_fp_ext c c' vs :
  (∀ x, x ∈ vs → size (deref c' x) = size (deref c x)) → sum_fp c' vs = sum_fp c vs.
Proof.
  induction vs as [|v vs IH]; intros H; [done|].
  rewrite !sum_fp_cons, H by left. rewrite IH; [done|]. intros x Hx. apply H. by right.
Qed.

Lemma sum_fp_nonneg c vs : 0 ≤ sum_fp c vs.
Proof.
  induction vs as [|v vs IH]; [done|]. rewrite sum_fp_cons.
  assert (0 ≤ footprint (size (deref c v))) by (unfold footprint, u32; apply Z.mod_pos_bound; lia).
  lia.
Qed.

Lemma same_config_refl c : same_config c c.
Proof. done. Qed.

Lemma same_config_trans c1 c2 c3 :
  same_config c1 c2 → same_config c2 c3 → same_config c1 c3.
Proof. unfold same_config. intros (?&?&?&?&?&?) (?&?&?&?&?&?). split_and!; congruence. Qed.

Lemma requeue_victim_spec c v :
  let c' := requeue_victim c v in
  lru0 c' = lru0 c ++ [v] ∧ bytes c' = bytes c + footprint (size (deref c v))
  ∧ lru1 c' = lru1 c ∧ history c' = history c ∧ bucket c' = bucket c
  ∧ same_config c c' ∧ ∀ x, hits_only c c' x.
Proof.
  unfold requeue_victim. proj_simpl. split_and!; try done.
  intros x. by apply (hits_only_alter _ _ v (λ e, REQUEUE_HITS (hits e))).
Qed.

Lemma requeue_victims_spec vs : ∀ c,
  let c' := requeue_victims c vs in
  lru0 c' = lru0 c ++ vs ∧ bytes c' = bytes c + sum_fp c vs
  ∧ lru1 c' = lru1 c ∧ history c' = history c ∧ bucket c' = bucket c
  ∧ same_config c c' ∧ ∀ x, hits_only c c' x.
Proof.
  induction vs as [|v vs IH]; intros c; cbn.
  { rewrite app_nil_r. change (sum_fp c []) with 0. rewrite Z.add_0_r.
    split_and!; try done. intros x. apply hits_only_refl. }
  rewrite sum_fp_cons.
  destruct (requeue_victim_spec c v) as (Hl0 & Hby & Hl1 & Hhi & Hb & Hcfg & Hh).
  destruct (IH (requeue_victim c v)) as (Il0 & Iby & Il1 & Ihi & Ib & Icfg & Ih).
  unfold requeue_victims in *. rewrite Il0, Iby, Il1, Ihi, Ib, Hl0, Hby, Hl1, Hhi, Hb.
  rewrite (sum_fp_ext c (requeue_victim c v)) by (intros; by apply hits_only_size).
  pose proof (same_config_trans _ _ _ Hcfg Icfg) as Hc.
  pose proof (λ x, hits_only_trans _ _ _ x (Hh x) (Ih x)) as Hx.
  rewrite <- app_assoc. split_and!; try done; try lia; apply Hc.
Qed.

(** Whatever the clock leaves allocated is an old entry, its hits apart. *)
Lemma tick_heap_all c x : heap (tick c) !! x = None ∨ hits_only c (tick c) x.
Proof.
  unfold tick. destruct (lru1 c) as [|p q] eqn:E; [right; apply hits_only_refl|].
  unfold hits_only.
  repeat case_match;
    repeat match goal with
    | |- context [tick_free ?x ?y] =>
        destruct (tick_free_frame x y) as (_ & _ & _ & _ & _ & _ & _ & _ & _ & _ & _ & _ & ->)
    end; proj_simpl; rewrite ?lookup_delete, ?lookup_alter;
    repeat case_decide; subst; try (by left); right;
    destruct (heap c !! x) as [e0|]; cbn; eauto;
    try (by exists 0); by (exists (hits e0); rewrite set_hits_id).
Qed.

(** ** Sizes within [uint32_t] *)

Lemma sizes_ok_deref c x : sizes_ok c → 0 ≤ size (deref c x).
Proof.
  intros H. unfold deref. destruct (heap c !! x) as [e|] eqn:E; cbn; [|done].
  by apply (H x e).
Qed.

Lemma sizes_ok_mono c c' :
  (∀ x, heap c' !! x = None ∨ hits_only c c' x) → sizes_ok c → sizes_ok c'.
Proof.
  intros H Hok x e' He'. destruct (H x) as [Hn|[h Hh]]; [congruence|].
  rewrite He' in Hh. destruct (heap c !! x) as [e|] eqn:E; [|done].
  injection Hh as ->. cbn. by apply (Hok x e).
Qed.

Lemma footprint_le s : 0 ≤ s → 0 ≤ footprint s ≤ s + ENTRY_OVERHEAD.
Proof.
  intros Hs. unfold footprint, u32, ENTRY_OVERHEAD.
  split; [apply Z.mod_pos_bound; lia|]. apply Z.mod_le; lia.
Qed.

(** ** The victim selection loop *)

Lemma take_victim_spec v q' c :
  let c' := take_victim v q' c in
  lru0 c' = q' ∧ bytes c' = bytes c - footprint (size (deref c v))
  ∧ same_config c c'
  ∧ (∀ x, x ∈ lru1 c' → x ∈ lru1 c)
  ∧ (∀ x, x ∉ lru1 c → hits_only c c' x)
  ∧ (∀ x, heap c' !! x = None ∨ hits_only c c' x).
Proof.
  unfold take_victim.
  set (c1 := set_bytes _ (set_lru0 q' c)).
  set (c2 := if decide (compressed c1 = Some v) then _ else _).
  set (c3 := upd v _ c2).
  assert (H2 : heap c2 = heap c ∧ lru0 c2 = q' ∧ lru1 c2 = lru1 c
               ∧ bytes c2 = bytes c - footprint (size (deref c v)) ∧ same_config c c2).
  { subst c2 c1. case_decide; proj_simpl; done. }
  destruct H2 as (Hh2 & Hl02 & Hl12 & Hby2 & Hcfg2).
  assert (H3 : ∀ x, hits_only c c3 x).
  { intros x. apply (hits_only_alter c c3 v (λ e, u64 (Z.shiftl (hits e) 1))).
    subst c3. proj_simpl. by rewrite Hh2. }
  destruct (tick_frame c3) as (T0 & T1 & T2 & T3 & T4 & T5 & T6 & T7 & _).
  subst c3. proj_simpl. rewrite T0, T1. split_and!; try done.
  - unfold same_config in *. rewrite T2, T3, T4, T5, T6, T7. proj_simpl. done.
  - intros x Hx. apply tick_lru1 in Hx. proj_simpl. by rewrite <- Hl12.
  - intros x Hx. eapply hits_only_trans; [apply H3|]. apply hits_only_eq.
    apply tick_heap. proj_simpl. by rewrite Hl12.
  - intros x. match goal with |- context [tick ?c0] => destruct (tick_heap_all c0 x) as [Hn|Hn] end.
    + by left.
    + right. eapply hits_only_trans; [apply H3|apply Hn].
Qed.

Lemma loop_frame_refl c : loop_frame c c.
Proof.
  split_and!; try done; [intros x _|intros x; right]; apply hits_only_refl.
Qed.

Lemma loop_frame_trans c1 c2 c3 :
  (∀ x, x ∈ lru1 c2 → x ∈ lru1 c1) →
  loop_frame c1 c2 → loop_frame c2 c3 → loop_frame c1 c3.
Proof.
  intros Hsub (Hc1 & Hn1 & Ha1) (Hc2 & Hn2 & Ha2). split_and!.
  - by eapply same_config_trans.
  - intros x Hx. eapply hits_only_trans; [by apply Hn1|]. apply Hn2. intros ?. by apply Hx, Hsub.
  - intros x. destruct (Ha2 x) as [?|H2]; [by left|].
    destruct (Ha1 x) as [H1|H1]; [|right; by eapply hits_only_trans].
    left. destruct H2 as [h H2]. by rewrite H2, H1.
Qed.

Lemma loop_frame_heap c c' c'' :
  heap c'' = heap c' → same_config c' c'' → loop_frame c c' → loop_frame c c''.
Proof.
  intros Hh Hc (Hc1 & Hn1 & Ha1). unfold loop_frame, hits_only in *. rewrite Hh.
  split_and!; try done. by eapply same_config_trans.
Qed.

Lemma loop_frame_all c c' :
  same_config c c' → (∀ x, hits_only c c' x) → loop_frame c c'.
Proof. intros Hc Hh. split_and!; [done|intros x _; apply Hh|intros x; right; apply Hh]. Qed.

Lemma hits_only_heap_l c c1 c' x :
  heap c1 = heap c → hits_only c1 c' x → hits_only c c' x.
Proof. unfold hits_only. by intros ->. Qed.

Lemma victim_loop_spec e sz q : ∀ c victims,
  lru0 c = q →
  (∀ x, x ∈ q ++ victims → x ∉ lru1 c) →
  match victim_loop q e sz c victims with
  | Linsert c' vs =>
      ∃ j, (j ≤ length q)%nat ∧ vs = victims ++ take j q ∧ lru0 c' = drop j q
        ∧ bytes c' + sz ≤ max_bytes c
        ∧ (∀ x, x ∈ lru1 c' → x ∈ lru1 c)
        ∧ loop_frame c c'
  | Lhistory c' vs =>
      e = None ∧ ∃ v q', q = v :: q' ∧ vs = victims ++ [v] ∧ c' = take_victim v q' c
  | Lreturn0 c' =>
      ∃ j, (j ≤ length q)%nat ∧ lru0 c' = drop j q ++ victims ++ take j q
        ∧ bytes c' = bytes c + sum_fp c victims
        ∧ (∀ x, x ∈ lru1 c' → x ∈ lru1 c ∨ e = Some x)
        ∧ loop_frame c c'
  end.
Proof.
  induction q as [|v q' IH]; intros c victims Hq Hdis; cbn [victim_loop].
  - destruct (bytes c + sz <=? max_bytes c) eqn:Hfit.
    + exists 0%nat. rewrite app_nil_r. split_and!; try done; [lia|apply loop_frame_refl].
    + exists 0%nat.
      set (c1 := match e with Some p => _ | None => c end).
      assert (H1 : heap c1 = heap c ∧ lru0 c1 = lru0 c ∧ bytes c1 = bytes c
                   ∧ same_config c c1 ∧ (∀ x, x ∈ lru1 c1 → x ∈ lru1 c ∨ e = Some x)).
      { subst c1. destruct e; proj_simpl; split_and!; try done; [|by left].
        intros x [?|Hx%list_elem_of_singleton]%elem_of_app; [by left|right; by rewrite Hx]. }
      destruct H1 as (Hh1 & Hl1 & Hb1 & Hc1 & Hs1).
      destruct (requeue_victims_spec victims c1) as (Rl0 & Rby & Rl1 & _ & _ & Rc & Rh).
      rewrite Rl0, Rby, Rl1, Hl1, Hq, Hb1. cbn. rewrite app_nil_r.
      rewrite (sum_fp_ext c c1) by (intros; unfold deref; by rewrite Hh1).
      split_and!; try done.
      apply loop_frame_all; [by eapply same_config_trans|].
      intros x. eapply hits_only_heap_l; [exact Hh1|apply Rh].
  - destruct (take_victim_spec v q' c) as (Tl0 & Tby & Tc & Tsub & Tn & Ta).
    set (c5 := take_victim v q' c) in *.
    assert (Tf : loop_frame c c5) by done.
    assert (Hv : v ∉ lru1 c) by (apply Hdis; set_solver).
    assert (Hsz : ∀ x, x ∈ (v :: q') ++ victims → size (deref c5 x) = size (deref c x)).
    { intros x Hx. apply hits_only_size, Tn, Hdis, Hx. }
    destruct e as [p|]; [|split; [done|]; by exists v, q'].
    destruct (_ && _) eqn:Hlose.
    + (* the contest is lost *)
      exists 1%nat.
      destruct (requeue_victims_spec (que_enqueue v victims) c5)
        as (Rl0 & Rby & Rl1 & _ & _ & Rc & Rh).
      proj_simpl. rewrite Rl0, Rby, Rl1, Tl0, Tby. unfold que_enqueue. cbn [drop take length].
      rewrite drop_0, take_0, sum_fp_app, sum_fp_cons.
      rewrite (sum_fp_ext c c5 victims) by (intros; apply Hsz; set_solver).
      rewrite Hsz by set_solver. change (sum_fp c5 []) with 0.
      split_and!; try done; [lia|lia| |].
      * intros x [?%Tsub|Hx%list_elem_of_singleton]%elem_of_app; [by left|right; by rewrite Hx].
      * eapply (loop_frame_trans c c5); [done|done|].
        apply loop_frame_all; [|done].
        unfold same_config in *. proj_simpl. done.
    + destruct (bytes c5 + sz <=? max_bytes c5) eqn:Hfit.
      * exists 1%nat. cbn [drop take length]. rewrite drop_0, take_0.
        destruct Tc as (Tm & _). rewrite Tm in Hfit.
        split_and!; try done; lia.
      * specialize (IH c5 (que_enqueue v victims) Tl0).
        assert (Hdis5 : ∀ x, x ∈ q' ++ que_enqueue v victims → x ∉ lru1 c5).
        { intros x Hx Hin. apply Tsub in Hin. revert Hin. apply Hdis.
          unfold que_enqueue in Hx. set_solver. }
        specialize (IH Hdis5).
        destruct (victim_loop q' (Some p) sz c5 (que_enqueue v victims)) as [c' vs|c' vs|c'].
        -- destruct IH as (j & Hj & Hvs & Hl0 & Hby & Hsub & Hf).
           exists (S j). cbn [drop take length]. unfold que_enqueue in Hvs.
           rewrite <- app_assoc in Hvs. destruct Tc as (Tm & Tc).
           split_and!; try done; [lia|lia|by intros x ?%Hsub%Tsub|].
           by eapply loop_frame_trans.
        -- by destruct IH.
        -- destruct IH as (j & Hj & Hl0 & Hby & Hsub & Hf).
           exists (S j). cbn [drop take length]. unfold que_enqueue in *.
           rewrite <- app_assoc in Hl0. cbn in Hl0.
           rewrite Hby, Tby, sum_fp_app, sum_fp_cons.
           rewrite (sum_fp_ext c c5 victims) by (intros; apply Hsz; set_solver).
           rewrite Hsz by set_solver. change (sum_fp c5 []) with 0.
           split_and!; try done; [lia|lia| |by eapply loop_frame_trans].
           intros x [?%Tsub|?]%Hsub; [by left|by right].
Qed.

Lemma put_lookup_free k a1 a2 ch c :
  Forall (λ p, key (deref c p) ≠ k) ch → put_lookup k a1 a2 ch c = (None, c).
Proof.
  induction 1 as [|p ch Hp _ IH]; cbn; [done|]. by rewrite decide_False.
Qed.

Lemma put_insert_fst k d l copy a1 a2 i sz e c vs :
  (put_insert k d l copy a1 a2 i sz e c vs).1 = 1.
Proof. unfold put_insert. destruct e; [done|]. by destruct (put_new_entry _ _ _ _ _). Qed.

Lemma resize_hashtable_frame c :
  let c' := resize_hashtable c in
  bytes c' = bytes c ∧ objects c' = objects c ∧ history c' = history c
  ∧ max_bytes c' = max_bytes c ∧ lru0 c' = lru0 c ∧ lru1 c' = lru1 c
  ∧ heap c' = heap c ∧ next_ptr c' = next_ptr c.
Proof. done. Qed.

Lemma put_new_entry_spec k a1 a2 i c :
  let r := put_new_entry k a1 a2 i c in
  r.1 = next_ptr c ∧ next_ptr r.2 = S (next_ptr c)
  ∧ heap r.2 = <[next_ptr c := Entry k a1 a2 1 0 0 0 0 false false false None]> (heap c)
  ∧ bytes r.2 = bytes c ∧ objects r.2 = objects c ∧ history r.2 = history c
  ∧ max_bytes r.2 = max_bytes c ∧ lru0 r.2 = lru0 c ∧ lru1 r.2 = lru1 c
  ∧ (objects c ≤ nbuckets c → seen r.2 = seen c ∧ nbuckets r.2 = nbuckets c).
Proof.
  unfold put_new_entry. cbn [fst snd]. proj_simpl.
  destruct (objects c >? nbuckets c) eqn:Hgrow.
  - split_and!; try done. intros ?. apply Z.gtb_lt in Hgrow. lia.
  - by split_and!.
Qed.

Lemma put_install_spec d l copy sz p c :
  let c' := put_install d l copy sz p c in
  bytes c' = bytes c + footprint sz ∧ objects c' = objects c + 1
  ∧ lru0 c' = lru0 c ++ [p] ∧ lru1 c' = lru1 c ∧ history c' = history c
  ∧ max_bytes c' = max_bytes c ∧ seen c' = seen c ∧ next_ptr c' = next_ptr c
  ∧ nbuckets c' = nbuckets c ∧ bucket c' = bucket c
  ∧ (∀ x, x ≠ p → heap c' !! x = heap c !! x).
Proof.
  unfold put_install. proj_simpl. split_and!; try done.
  intros x Hx. by rewrite !lookup_alter_ne.
Qed.

Lemma put_history_fst k d a1 a2 i c vs : (put_history k d a1 a2 i c vs).1 = 0.
Proof. done. Qed.

Lemma initial_fill_test sz c :
  (match lru1 c with [] => true | _ => false end) && (bytes c + sz <=? max_bytes c) = true
  ↔ initial_fill sz c.
Proof.
  unfold initial_fill. rewrite andb_true_iff, Z.leb_le.
  destruct (lru1 c); naive_solver.
Qed.

Lemma unseen_test k c :
  (history c >=? objects c) && negb (seen_at c (seen_slot k c) =? seen_tag k) = true
  ↔ unseen k c.
Proof.
  unfold unseen. rewrite andb_true_iff, negb_true_iff, Z.geb_le, Z.eqb_neq. lia.
Qed.

(** [put] of a key whose digest is not in its chain, unfolded. *)
Lemma put_new_key_unfold k d l copy a1 a2 c :
  max_bytes c ≠ 0 → digest_free k c →
  put k d l copy a1 a2 c =
  put_admission k d l copy a1 a2 (word k 3 mod nbuckets c) (put_size d l copy) None c.
Proof.
  intros Hmax%Z.eqb_neq Hfree. unfold put. rewrite Hmax.
  by rewrite (put_lookup_free _ _ _ _ _ Hfree).
Qed.

(** C10.  A key without entry in its chain.  If it passes the seen filter,
    [lru[0]] is [v :: rest] and the initial-fill shortcut does not apply
    ([lru[1]] non-empty or [bytes + size > max_bytes]), then [put] returns 0,
    [v] alone is dequeued and requeued ([lru[0]] becomes [rest ++ [v]]), and a
    ghost for the key is allocated, pushed on the head of the key's chain and
    enqueued at the back of [lru[1]]; [objects] is unchanged.  And [put]
    returns 1 for such a key only if [bytes + size <= max_bytes] and either
    [lru[1]] is empty or [lru[0]] is empty. *)
Theorem put_new_key_admission k d l copy a1 a2 c :
  max_bytes c ≠ 0 → digest_free k c →
  let sz := put_size d l copy in
  let r := put k d l copy a1 a2 c in
  (¬ unseen k c → ∀ v rest, lru0 c = v :: rest →
   lru1 c ≠ [] ∨ bytes c + sz > max_bytes c →
     r.1 = 0
     ∧ lru0 r.2 = rest ++ [v]
     ∧ heap r.2 !! next_ptr c = Some (ghost_entry k d a1 a2)
     ∧ (∃ g1, lru1 r.2 = g1 ++ [next_ptr c])
     ∧ (∃ ch, chain r.2 (word k 3 mod nbuckets c) = next_ptr c :: ch)
     ∧ objects r.2 = objects c)
  ∧ (r.1 = 1 → (lru1 c = [] ∨ lru0 c = []) ∧ bytes c + sz ≤ max_bytes c).
Proof.
  intros Hmax Hfree sz r. subst r. rewrite put_new_key_unfold by done. fold sz.
  unfold put_admission.
  destruct (_ && (bytes c + sz <=? max_bytes c)) eqn:Hfill.
  { apply initial_fill_test in Hfill as [Hl1 Hfit]. split; [|by auto].
    intros _ v rest _ [?|?]; [done|lia]. }
  assert (Hnofill : ¬ initial_fill sz c).
  { intros ?%initial_fill_test. congruence. }
  set (cs := set_seen _ c).
  change (seen_at c _) with (seen_at c (seen_slot k c)).
  change (u16 _) with (seen_tag k).
  change (history cs) with (history c). change (objects cs) with (objects c).
  destruct (_ && negb _) eqn:Hun.
  { apply unseen_test in Hun. split; [by intros ?|]. cbn. done. }
  assert (Hseen : ¬ unseen k c) by (intros ?%unseen_test; congruence).
  unfold put_select. change (lru0 cs) with (lru0 c).
  destruct (lru0 c) as [|v rest] eqn:Hl0.
  - (* lru[0] is empty *)
    split; [by intros _ v rest ?|]. cbn [victim_loop].
    change (bytes cs) with (bytes c). change (max_bytes cs) with (max_bytes c).
    destruct (bytes c + sz <=? max_bytes c) eqn:Hfit; cbn; [|done].
    intros _. split; [by right|lia].
  - split; [|by cbn]. intros _ v' rest' [= <- <-] _. cbn [victim_loop].
    destruct (take_victim_spec v rest cs) as (Tl0 & Tby & Tc & Tsub & Tn & Ta).
    set (c5 := take_victim v rest cs) in *.
    unfold put_history.
    destruct (requeue_victims_spec (que_enqueue v []) c5)
      as (Rl0 & Rby & Rl1 & Rhi & Rb & Rc & Rh).
    set (c6 := requeue_victims c5 (que_enqueue v [])) in *.
    destruct Rc as (_ & Ro & _ & Rn & _). destruct Tc as (_ & To & _ & Tnx & _).
    cbn [fst snd]. proj_simpl.
    rewrite Rl0, Tl0, Rl1, Rn, Tnx, Ro, To. split_and!; try done.
    + rewrite lookup_alter_eq, lookup_insert_eq. done.
    + by eexists.
    + unfold chain. cbn. rewrite lookup_insert_eq. by eexists.
Qed.


(** ** The lookup of [put] *)

Lemma lookup_rel_refl k a1 a2 c : lookup_rel k a1 a2 c c.
Proof. unfold lookup_rel. split_and!; try done. intros x. by left. Qed.

Lemma destroy_frame p c :
  let c' := destroy p c in
  heap c' = delete p (heap c)
  ∧ max_bytes c' = max_bytes c ∧ nbuckets c' = nbuckets c ∧ ibuckets c' = ibuckets c
  ∧ seen c' = seen c ∧ next_ptr c' = next_ptr c
  ∧ bytes c' ≤ bytes c
  ∧ (∀ x, x ∈ lru0 c' → x ∈ lru0 c) ∧ (∀ x, x ∈ lru1 c' → x ∈ lru1 c)
  ∧ (∀ x, x ∈ lru0 c → x ≠ p → x ∈ lru0 c').
Proof.
  destruct (flag_lru (deref c p)) eqn:Hlru.
  - destruct (destroy_ghost p c Hlru)
      as (Hh & Hl0 & Hl1 & Ho & Hby & Hhi & Hb & Hn & Hm & Hs & Hi & Hx).
    cbn zeta. rewrite Hh, Hl0, Hl1, Hby, Hn, Hm, Hs, Hi, Hx. split_and!; try done.
    intros x ?%elem_of_que_remove. tauto.
  - destruct (destroy_resident p c Hlru)
      as (Hh & Hl0 & Hl1 & Ho & Hby & Hhi & Hb & Hn & Hm & Hs & Hi & Hx).
    cbn zeta. rewrite Hh, Hl0, Hl1, Hby, Hn, Hm, Hs, Hi, Hx.
    assert (0 ≤ footprint (size (deref c p)))
      by (unfold footprint, u32; apply Z.mod_pos_bound; lia).
    split_and!; try done; [lia| |].
    + intros x ?%elem_of_que_remove. tauto.
    + intros x ? ?. by apply elem_of_que_remove.
Qed.

Lemma destroy_lookup_rel k a1 a2 c0 c p :
  lookup_rel k a1 a2 c0 c →
  key (deref c p) = k →
  ¬ (auxkey1 (deref c p) = a1 ∧ auxkey2 (deref c p) = a2) →
  lookup_rel k a1 a2 c0 (destroy p c).
Proof.
  intros (Hm & Hn & Hi & Hs & Hx & Hby & Hl0 & Hl1 & Hh & Hkeep) Hk Haux.
  destruct (destroy_frame p c) as (Dh & Dm & Dn & Di & Ds & Dx & Dby & Dl0 & Dl1 & Dkeep).
  assert (Hp : key (deref c0 p) = k
               ∧ ¬ (auxkey1 (deref c0 p) = a1 ∧ auxkey2 (deref c0 p) = a2)).
  { destruct (Hh p) as [Heq|(_ & ? & ?)]; [|done].
    unfold deref in *. by rewrite <- Heq. }
  unfold lookup_rel. rewrite Dh, Dm, Dn, Di, Ds, Dx. split_and!; try done; [lia|auto|auto| |].
  - intros x. rewrite lookup_delete. case_decide; [subst; right; by destruct Hp|apply Hh].
  - intros x Hx0 Hxk. apply Dkeep; [by apply Hkeep|]. intros ->. by destruct Hp.
Qed.

Lemma put_lookup_spec k a1 a2 ch : ∀ c0 c,
  lookup_rel k a1 a2 c0 c →
  let r := put_lookup k a1 a2 ch c in
  lookup_rel k a1 a2 c0 r.2
  ∧ (∀ p, r.1 = Some p →
       key (deref r.2 p) = k ∧ auxkey1 (deref r.2 p) = a1 ∧ auxkey2 (deref r.2 p) = a2).
Proof.
  induction ch as [|p ch IH]; intros c0 c Hrel; cbn [put_lookup].
  { split; [exact Hrel|]. intros p Hp. discriminate Hp. }
  destruct (decide (key (deref c p) = k)) as [Hk|Hk]; [|apply IH; exact Hrel].
  destruct ((auxkey1 (deref c p) =? a1) && (auxkey2 (deref c p) =? a2)) eqn:Haux.
  - apply andb_true_iff in Haux as [H1%Z.eqb_eq H2%Z.eqb_eq]. cbn [fst snd].
    split; [exact Hrel|]. intros p' Hp'. injection Hp' as <-. auto.
  - apply IH. apply destroy_lookup_rel; [exact Hrel|exact Hk|].
    intros [H1 H2]. rewrite H1, H2, !Z.eqb_refl in Haux. discriminate Haux.
Qed.

Lemma lookup_rel_disjoint k a1 a2 c0 c :
  lookup_rel k a1 a2 c0 c → queues_disjoint c0 → queues_disjoint c.
Proof.
  intros (_ & _ & _ & _ & _ & _ & Hl0 & Hl1 & _) Hd. unfold queues_disjoint in *.
  rewrite Forall_forall in *. intros x Hx Hin. apply (Hd x); auto.
Qed.

Lemma lookup_rel_sizes k a1 a2 c0 c :
  lookup_rel k a1 a2 c0 c → sizes_ok c0 → sizes_ok c.
Proof.
  intros (_ & _ & _ & _ & _ & _ & _ & _ & Hh & _) Hok x e He.
  destruct (Hh x) as [Heq|[? _]]; [|congruence]. rewrite Heq in He. by apply (Hok x e).
Qed.

(** ** Rejected puts *)

Lemma put_found_zero k d l copy a1 a2 i sz e c1 c' :
  queues_disjoint c1 →
  put_found k d l copy a1 a2 i sz e c1 = (0, c') →
  bytes c' = bytes c1 ∧ objects c' = objects c1 ∧ max_bytes c' = max_bytes c1
  ∧ (∃ j, (j ≤ length (lru0 c1))%nat ∧ lru0 c' = drop j (lru0 c1) ++ take j (lru0 c1))
  ∧ (∀ x, x ∈ lru0 c1 → x ≠ next_ptr c1 → hits_only c1 c' x)
  ∧ (next_ptr c' = next_ptr c1
     ∨ (e = None ∧ next_ptr c' = S (next_ptr c1)
        ∧ heap c' !! next_ptr c1 = Some (ghost_entry k d a1 a2))).
Proof.
  intros Hdis Hput. unfold queues_disjoint in Hdis. rewrite Forall_forall in Hdis.
  unfold put_found in Hput. destruct e as [p|].
  - (* an entry was found *)
    set (c1' := upd p _ c1) in Hput.
    assert (Hc1' : ∀ x, hits_only c1 c1' x).
    { intros x. by apply (hits_only_alter c1 c1' p (λ e, u64 (hits e + 1))). }
    destruct (negb _); [by discriminate Hput|].
    set (c2 := set_lru1 _ c1') in Hput.
    unfold put_admission in Hput.
    destruct (_ && _); [by pose proof (put_insert_fst k d l copy a1 a2 i sz (Some p) c2 []) as H; rewrite Hput in H|].
    unfold put_select in Hput.
    assert (Hdis2 : ∀ x, x ∈ lru0 c2 ++ [] → x ∉ lru1 c2).
    { intros x Hx. rewrite app_nil_r in Hx. subst c2 c1'. proj_simpl.
      intros [_ ?]%elem_of_que_remove. by apply (Hdis x). }
    pose proof (victim_loop_spec (Some p) sz (lru0 c2) c2 [] eq_refl Hdis2) as Hloop.
    destruct (victim_loop _ _ _ _ _) as [c'' vs|c'' vs|c''].
    + by pose proof (put_insert_fst k d l copy a1 a2 i sz (Some p) c'' vs) as H; rewrite Hput in H.
    + by destruct Hloop.
    + injection Hput as <-.
      destruct Hloop as (j & Hj & Hl0 & Hby & Hsub & (Hc & Hn & Ha)).
      change (sum_fp c2 []) with 0 in Hby. destruct Hc as (Cm & Co & _ & Cx & _).
      rewrite Hby, Cm, Co, Cx, Hl0.
      assert (Hh : ∀ x, x ∈ lru0 c1 → hits_only c1 c'' x).
      { intros x Hx. eapply hits_only_trans; [apply Hc1'|]. apply Hn.
        apply Hdis2. by rewrite app_nil_r. }
      subst c2 c1'. proj_simpl. split_and!; try done; [lia| |auto|by left].
      exists j. by rewrite app_nil_l.
  - (* no entry: the seen filter, then the victims *)
    unfold put_admission in Hput.
    destruct (_ && _); [by pose proof (put_insert_fst k d l copy a1 a2 i sz None c1 []) as H; rewrite Hput in H|].
    set (cs := set_seen _ c1) in Hput.
    destruct (_ && negb _).
    { injection Hput as <-. subst cs. proj_simpl.
      split_and!; try done; [|intros; by apply hits_only_eq|by left].
      exists 0%nat. rewrite drop_0, take_0, app_nil_r. split; [lia|done]. }
    unfold put_select in Hput.
    assert (Hdiss : ∀ x, x ∈ lru0 cs ++ [] → x ∉ lru1 cs).
    { intros x Hx. rewrite app_nil_r in Hx. by apply (Hdis x). }
    pose proof (victim_loop_spec None sz (lru0 cs) cs [] eq_refl Hdiss) as Hloop.
    destruct (victim_loop _ _ _ _ _) as [c'' vs|c'' vs|c''].
    + by pose proof (put_insert_fst k d l copy a1 a2 i sz None c'' vs) as H; rewrite Hput in H.
    + destruct Hloop as (_ & v & q' & Hq & -> & ->).
      destruct (take_victim_spec v q' cs) as (Tl0 & Tby & Tc & Tsub & Tn & Ta).
      set (c5 := take_victim v q' cs) in *.
      unfold put_history in Hput.
      destruct (requeue_victims_spec ([] ++ [v]) c5) as (Rl0 & Rby & Rl1 & Rhi & Rb & Rc & Rh).
      set (c6 := requeue_victims c5 ([] ++ [v])) in *.
      destruct Rc as (Rm & Ro & _ & Rx & _). destruct Tc as (Tm & To & _ & Tx & _).
      assert (Hv : v ∉ lru1 cs).
      { apply Hdiss. rewrite app_nil_r, Hq. by left. }
      clearbody c6 c5.
      apply (f_equal snd) in Hput. cbn [snd] in Hput. subst c'.
      proj_simpl. rewrite Rby, Tby, Rl0, Tl0, Rm, Tm, Ro, To, Rx, Tx.
      cbn [app]. rewrite sum_fp_cons. change (sum_fp c5 []) with 0.
      rewrite (hits_only_size cs c5 v) by (by apply Tn).
      change (lru0 cs) with (lru0 c1) in Hq. rewrite Hq.
      split_and!; try done; [subst cs; proj_simpl; lia| | |].
      * exists 1%nat. cbn. rewrite drop_0. split; [lia|done].
      * intros x Hx Hne. rewrite <- Hq in Hx.
        assert (hits_only c1 c6 x).
        { eapply hits_only_trans; [|apply Rh]. apply (Tn x). apply Hdiss. by rewrite app_nil_r. }
        unfold hits_only in *. subst cs. proj_simpl.
        by rewrite lookup_alter_ne, lookup_insert_ne.
      * right. subst cs. proj_simpl. split_and!; try done.
        by rewrite lookup_alter_eq, lookup_insert_eq.
    + injection Hput as <-.
      destruct Hloop as (j & Hj & Hl0 & Hby & Hsub & (Hc & Hn & Ha)).
      change (sum_fp cs []) with 0 in Hby. destruct Hc as (Cm & Co & _ & Cx & _).
      rewrite Hby, Cm, Co, Cx, Hl0. subst cs. proj_simpl.
      split_and!; try done; [lia| | |by left].
      * exists j. by rewrite app_nil_l.
      * intros x Hx _. apply (Hn x). apply Hdiss. by rewrite app_nil_r.
Qed.

Lemma put_unfold k d l copy a1 a2 c :
  max_bytes c ≠ 0 →
  let i := word k 3 mod nbuckets c in
  let lk := put_lookup k a1 a2 (chain c i) c in
  put k d l copy a1 a2 c = put_found k d l copy a1 a2 i (put_size d l copy) lk.1 lk.2.
Proof.
  intros Hmax%Z.eqb_neq i lk. unfold put. rewrite Hmax. fold i. subst lk.
  by destruct (put_lookup _ _ _ _ _).
Qed.

Lemma put_size_nonneg d l copy : 0 ≤ put_size d l copy.
Proof. unfold put_size, u32. apply Z.mod_pos_bound. lia. Qed.

(** ** Stored puts and the bytes counter *)

Lemma sizes_ok_alter (f : RamCacheCLFUSEntry → RamCacheCLFUSEntry) p c c' :
  heap c' = alter f p (heap c) → (∀ e, 0 ≤ size e → 0 ≤ size (f e)) →
  sizes_ok c → sizes_ok c'.
Proof.
  intros Hh Hf Hok x e'. rewrite Hh, lookup_alter. case_decide; subst.
  - destruct (heap c !! x) as [e|] eqn:E; [|done]. intros [= <-]. apply Hf. by apply (Hok x e).
  - apply Hok.
Qed.

Lemma sizes_ok_insert e p c c' :
  heap c' = <[p := e]> (heap c) → 0 ≤ size e → sizes_ok c → sizes_ok c'.
Proof.
  intros Hh He Hok x e'. rewrite Hh, lookup_insert. case_decide; subst.
  - by intros [= <-].
  - apply Hok.
Qed.

Lemma insert_victim_bytes sz c v :
  sizes_ok c →
  let c' := insert_victim sz c v in
  (bytes c' = bytes c
   ∨ (bytes c + sz + size (deref c v) ≤ max_bytes c
      ∧ bytes c' = bytes c + footprint (size (deref c v))))
  ∧ max_bytes c' = max_bytes c ∧ sizes_ok c'.
Proof.
  intros Hok. unfold insert_victim.
  destruct (bytes c + sz + size (deref c v) <=? max_bytes c) eqn:Hfit.
  - apply Z.leb_le in Hfit. proj_simpl. split_and!; [by right|done|].
    eapply (sizes_ok_alter _ v c); [by proj_simpl|done|done].
  - unfold victimize. proj_simpl. split_and!; [by left|done|].
    eapply (sizes_ok_alter _ v c); [by proj_simpl|done|done].
Qed.

Lemma insert_victims_bytes sz vs : ∀ c,
  sizes_ok c → bytes c + sz ≤ max_bytes c + ENTRY_OVERHEAD →
  let c' := foldl (insert_victim sz) c vs in
  bytes c' + sz ≤ max_bytes c + ENTRY_OVERHEAD ∧ max_bytes c' = max_bytes c ∧ sizes_ok c'.
Proof.
  induction vs as [|v vs IH]; intros c Hok Hb; cbn [foldl]; [done|].
  destruct (insert_victim_bytes sz c v Hok) as (Hby & Hm & Hok').
  pose proof (footprint_le _ (sizes_ok_deref c v Hok)) as Hfp.
  destruct (IH (insert_victim sz c v) Hok') as (Iby & Im & Iok).
  { rewrite Hm. destruct Hby as [->|[Hfit ->]]; lia. }
  rewrite Im, Hm in *. done.
Qed.

Lemma put_insert_bytes k d l copy a1 a2 i sz e c vs :
  sizes_ok c → 0 ≤ sz → bytes c + sz ≤ max_bytes c →
  bytes (put_insert k d l copy a1 a2 i sz e c vs).2 ≤ max_bytes c + 2 * ENTRY_OVERHEAD.
Proof.
  intros Hok Hsz Hfit. unfold put_insert.
  destruct (insert_victims_bytes sz vs c Hok) as (Hby & Hm & _); [unfold ENTRY_OVERHEAD; lia|].
  set (c1 := foldl _ c vs) in *. clearbody c1.
  pose proof (footprint_le sz Hsz) as Hfp.
  destruct e as [p|].
  - cbn [snd]. destruct (put_install_spec d l copy sz p (set_history (history c1 - 1) c1))
      as (-> & _). proj_simpl. lia.
  - destruct (put_new_entry_spec k a1 a2 i c1) as (_ & _ & _ & Nby & _).
    destruct (put_new_entry _ _ _ _ c1) as [p cn]. cbn [fst snd] in *.
    destruct (put_install_spec d l copy sz p cn) as (-> & _). lia.
Qed.

Lemma put_found_one k d l copy a1 a2 i sz e c1 c' :
  sizes_ok c1 → queues_disjoint c1 → 0 ≤ sz →
  put_found k d l copy a1 a2 i sz e c1 = (1, c') →
  bytes c' ≤ max_bytes c1 + 2 * ENTRY_OVERHEAD
  ∨ (∃ p, e = Some p ∧ flag_lru (deref c1 p) = false
       ∧ bytes c' = bytes c1 + sz - size (deref c1 p)).
Proof.
  intros Hok Hdis Hsz Hput. unfold queues_disjoint in Hdis. rewrite Forall_forall in Hdis.
  unfold put_found in Hput. destruct e as [p|].
  - set (c1' := upd p _ c1) in Hput.
    assert (Hc1' : ∀ x, hits_only c1 c1' x).
    { intros x. by apply (hits_only_alter c1 c1' p (λ e, u64 (hits e + 1))). }
    assert (Hok' : sizes_ok c1').
    { apply (sizes_ok_mono c1); [|done]. intros x. right. apply Hc1'. }
    destruct (hits_only_deref _ _ _ (Hc1' p)) as (_ & _ & _ & Hs & _ & _ & _ & _ & _ & Hl & _).
    rewrite Hl in Hput. destruct (flag_lru (deref c1 p)) eqn:Hlru; cbn [negb] in Hput.
    + (* from history *)
      left. set (c2 := set_lru1 _ c1') in Hput.
      assert (Hok2 : sizes_ok c2) by done.
      unfold put_admission in Hput.
      destruct (_ && _) eqn:Hfill.
      { apply initial_fill_test in Hfill as [_ Hfit].
        apply (f_equal snd) in Hput. cbn [snd] in Hput. subst c'.
        change (max_bytes c1) with (max_bytes c2). by apply put_insert_bytes. }
      unfold put_select in Hput.
      assert (Hdis2 : ∀ x, x ∈ lru0 c2 ++ [] → x ∉ lru1 c2).
      { intros x Hx. rewrite app_nil_r in Hx. subst c2 c1'. proj_simpl.
        intros [_ ?]%elem_of_que_remove. by apply (Hdis x). }
      pose proof (victim_loop_spec (Some p) sz (lru0 c2) c2 [] eq_refl Hdis2) as Hloop.
      destruct (victim_loop _ _ _ _ _) as [c'' vs|c'' vs|c'']; [|by destruct Hloop|done].
      destruct Hloop as (j & _ & _ & _ & Hfit & _ & ((Cm & _) & _ & Ha)).
      apply (f_equal snd) in Hput. cbn [snd] in Hput. subst c'.
      change (max_bytes c1) with (max_bytes c2). rewrite <- Cm.
      apply put_insert_bytes; [by apply (sizes_ok_mono c2)|done|lia].
    + (* in place *)
      right. exists p. split_and!; try done.
      unfold put_hit in Hput. apply (f_equal snd) in Hput. cbn [snd] in Hput. subst c'.
      destruct (move_compressed_frame p c1') as (Mh & _ & _ & _ & Mby & _).
      destruct (requeue_frame p (move_compressed p c1')) as (Rh & _ & Rby & _).
      proj_simpl. rewrite Rby, Mby. unfold deref at 1. rewrite Rh, Mh.
      fold (deref c1' p). rewrite Hs. subst c1'. proj_simpl. lia.
  - left. unfold put_admission in Hput.
    destruct (_ && _) eqn:Hfill.
    { apply initial_fill_test in Hfill as [_ Hfit].
      apply (f_equal snd) in Hput. cbn [snd] in Hput. subst c'.
      by apply put_insert_bytes. }
    set (cs := set_seen _ c1) in Hput.
    destruct (_ && negb _); [done|].
    unfold put_select in Hput.
    assert (Hdiss : ∀ x, x ∈ lru0 cs ++ [] → x ∉ lru1 cs).
    { intros x Hx. rewrite app_nil_r in Hx. by apply (Hdis x). }
    pose proof (victim_loop_spec None sz (lru0 cs) cs [] eq_refl Hdiss) as Hloop.
    destruct (victim_loop _ _ _ _ _) as [c'' vs|c'' vs|c'']; [|done|done].
    destruct Hloop as (j & _ & _ & _ & Hfit & _ & ((Cm & _) & _ & Ha)).
    apply (f_equal snd) in Hput. cbn [snd] in Hput. subst c'.
    change (max_bytes c1) with (max_bytes cs). rewrite <- Cm.
    apply put_insert_bytes; [by apply (sizes_ok_mono cs)|done|lia].
Qed.

Lemma put_found_result k d l copy a1 a2 i sz e c :
  (put_found k d l copy a1 a2 i sz e c).1 = 0 ∨ (put_found k d l copy a1 a2 i sz e c).1 = 1.
Proof.
  assert (Hsel : ∀ e c, (put_select k d l copy a1 a2 i sz e c).1 = 0
                        ∨ (put_select k d l copy a1 a2 i sz e c).1 = 1).
  { intros e0 c0. unfold put_select. destruct (victim_loop _ _ _ _ _); cbn [fst]; auto.
    right. apply put_insert_fst. }
  assert (Hadm : ∀ e c, (put_admission k d l copy a1 a2 i sz e c).1 = 0
                        ∨ (put_admission k d l copy a1 a2 i sz e c).1 = 1).
  { intros e0 c0. unfold put_admission. destruct (_ && _); [right; apply put_insert_fst|].
    destruct e0; [apply Hsel|]. destruct (_ && negb _); [by left|apply Hsel]. }
  unfold put_found. destruct e as [p|]; [|apply Hadm].
  destruct (negb _); [by right|apply Hadm].
Qed.

(** C2, as the code has it.  [put] returns 0 or 1.  A put that returns 0 does
    not raise [bytes].  A put that returns 1 either went through the insertion
    path, and then [bytes <= max_bytes + 2 * ENTRY_OVERHEAD], or updated a
    resident entry in place, and then [bytes] is what the lookup left plus
    the new size minus the entry's old size.  The two hypotheses hold in
    every reachable state ([reachable_shape]). *)
Theorem put_bytes_bound k d l copy a1 a2 c :
  sizes_ok c → queues_disjoint c →
  let sz := put_size d l copy in
  let lk := put_lookup k a1 a2 (chain c (word k 3 mod nbuckets c)) c in
  let r := put k d l copy a1 a2 c in
  (r.1 = 0 ∨ r.1 = 1)
  ∧ (r.1 = 0 → bytes r.2 ≤ bytes c)
  ∧ (r.1 = 1 →
       bytes r.2 ≤ max_bytes c + 2 * ENTRY_OVERHEAD
       ∨ (∃ p, lk.1 = Some p ∧ flag_lru (deref lk.2 p) = false
            ∧ bytes r.2 = bytes lk.2 + sz - size (deref lk.2 p))).
Proof.
  intros Hok Hdis sz lk r.
  destruct (decide (max_bytes c = 0)) as [Hz|Hmax].
  { subst r. unfold put. apply Z.eqb_eq in Hz. rewrite Hz. cbn. split_and!; [by left|done|done]. }
  subst r. rewrite put_unfold by done. fold lk sz.
  destruct (put_lookup_spec k a1 a2 (chain c (word k 3 mod nbuckets c)) c c
              (lookup_rel_refl _ _ _ _)) as [Hrel _]. fold lk in Hrel.
  pose proof (lookup_rel_disjoint _ _ _ _ _ Hrel Hdis) as Hdis1.
  pose proof (lookup_rel_sizes _ _ _ _ _ Hrel Hok) as Hok1.
  destruct Hrel as (Hm & _ & _ & _ & _ & Hby & _).
  split; [apply put_found_result|].
  destruct (put_found _ _ _ _ _ _ _ _ _ _) as [n c'] eqn:Hput. cbn [fst snd]. split.
  - intros ->. destruct (put_found_zero _ _ _ _ _ _ _ _ _ _ _ Hdis1 Hput) as (-> & _). done.
  - intros ->. rewrite <- Hm.
    by apply (put_found_one _ _ _ _ _ _ _ _ _ _ _ Hok1 Hdis1 (put_size_nonneg d l copy) Hput).
Qed.

(** The order of [lru[0]] through the victim selection loop. *)
Lemma victim_loop_lru0 e sz q : ∀ c victims,
  lru0 c = q →
  match victim_loop q e sz c victims with
  | Linsert _ _ => True
  | Lhistory c' vs =>
      e = None ∧ ∃ v q', q = v :: q' ∧ vs = victims ++ [v] ∧ lru0 c' = q'
  | Lreturn0 c' =>
      ∃ j, (j ≤ length q)%nat ∧ lru0 c' = drop j q ++ victims ++ take j q
  end.
Proof.
  induction q as [|v q' IH]; intros c victims Hq; cbn [victim_loop].
  - destruct (bytes c + sz <=? max_bytes c); [done|].
    exists 0%nat.
    destruct (requeue_victims_spec victims
                (match e with Some p => set_lru1 (que_enqueue p (lru1 c)) c | None => c end))
      as (-> & _).
    assert (Hl : lru0 (match e with Some p => set_lru1 (que_enqueue p (lru1 c)) c
                       | None => c end) = lru0 c) by (by destruct e).
    rewrite Hl, Hq. cbn. rewrite app_nil_r. split; [lia|done].
  - destruct (take_victim_spec v q' c) as (Tl0 & _).
    set (c5 := take_victim v q' c) in *. clearbody c5.
    destruct e as [p|]; [|split; [done|]; by exists v, q'].
    destruct (_ && _).
    + exists 1%nat.
      destruct (requeue_victims_spec (que_enqueue v victims) c5) as (Rl0 & _).
      proj_simpl. rewrite Rl0, Tl0. unfold que_enqueue. cbn [take drop length].
      rewrite take_0, drop_0. split; [lia|done].
    + destruct (bytes c5 + sz <=? max_bytes c5); [done|].
      specialize (IH c5 (que_enqueue v victims) Tl0).
      destruct (victim_loop q' (Some p) sz c5 (que_enqueue v victims)) as [c' vs|c' vs|c'];
        [done| |].
      * by destruct IH.
      * destruct IH as (j & Hj & Hl0). exists (S j). cbn [take drop length].
        unfold que_enqueue in Hl0. rewrite <- app_assoc in Hl0. split; [lia|done].
Qed.




(** ** The shape of the store in every reachable state *)

Lemma que_remove_notin p (q : list nat) : p ∉ q → que_remove p q = q.
Proof.
  intros Hp. unfold que_remove. induction q as [|x q IH]; [done|].
  apply not_elem_of_cons in Hp as [Hne Hq].
  rewrite (filter_cons_True (λ x, x ≠ p)) by done. by rewrite IH.
Qed.

Lemma NoDup_que_remove p (q : list nat) : NoDup q → NoDup (que_remove p q).
Proof. apply (NoDup_filter (λ x, x ≠ p)). Qed.

Lemma que_remove_app p (q1 q2 : list nat) :
  que_remove p (q1 ++ q2) = que_remove p q1 ++ que_remove p q2.
Proof. apply (filter_app (λ x, x ≠ p)). Qed.

Lemma store_inv_perm A B A' B' h bk nb np :
  A ≡ₚ A' → B ≡ₚ B' → store_inv A B h bk nb np → store_inv A' B' h bk nb np.
Proof.
  intros HA HB (Hnd & Hres & Hgh & Hok & Hch & Hcd).
  split_and!; try done.
  - by rewrite <- HA, <- HB.
  - intros p Hp. apply Hres. by rewrite HA.
  - intros p Hp. apply Hgh. by rewrite HB.
Qed.

(** Moving one entry between the lists together with an assignment to it. *)
Lemma store_inv_relist A B h bk nb np p e f :
  store_inv A B h bk nb np → h !! p = Some e → keeps_entry f e →
  store_inv (que_remove p A ++ (if flag_lru (f e) then [] else [p]))
            (que_remove p B ++ (if flag_lru (f e) then [p] else []))
            (alter f p h) bk nb np.
Proof.
  intros (Hnd & Hres & Hgh & Hok & Hch & Hcd) He [Hkey Hsz].
  assert (Hother : ∀ q, q ≠ p → alter f p h !! q = h !! q).
  { intros q Hq. by rewrite lookup_alter_ne. }
  assert (Hself : alter f p h !! p = Some (f e)).
  { by rewrite lookup_alter_eq, He. }
  split_and!.
  - assert (Hnd' : NoDup (que_remove p A ++ que_remove p B)).
    { rewrite <- que_remove_app. by apply NoDup_que_remove. }
    assert (Hp : p ∉ que_remove p A ++ que_remove p B).
    { rewrite <- que_remove_app. intros [? _]%elem_of_que_remove. done. }
    destruct (flag_lru (f e)).
    + rewrite app_nil_r. rewrite (assoc_L (++)).
      apply NoDup_app. split_and!; [done| |apply NoDup_singleton].
      intros x Hx ->%list_elem_of_singleton. done.
    + rewrite app_nil_r. rewrite <- (assoc_L (++)).
      eapply (NoDup_Permutation_proper); [|apply NoDup_cons_2; [exact Hp|exact Hnd']].
      by rewrite Permutation_middle.
  - intros q [Hq|Hq]%elem_of_app.
    + apply elem_of_que_remove in Hq as [Hne Hq]. rewrite Hother by done. by apply Hres.
    + destruct (flag_lru (f e)) eqn:Hf; [by apply elem_of_nil in Hq|].
      apply list_elem_of_singleton in Hq as ->. by exists (f e).
  - intros q [Hq|Hq]%elem_of_app.
    + apply elem_of_que_remove in Hq as [Hne Hq]. rewrite Hother by done. by apply Hgh.
    + destruct (flag_lru (f e)) eqn:Hf; [|by apply elem_of_nil in Hq].
      apply list_elem_of_singleton in Hq as ->. by exists (f e).
  - intros q x Hx. destruct (decide (q = p)) as [->|Hne].
    + rewrite Hself in Hx. injection Hx as <-.
      destruct (Hok _ _ He) as (? & ? & ? & ?). split; [done|]. apply Hsz. done.
    + rewrite Hother in Hx by done. by apply (Hok _ _ Hx).
  - intros i q Hq. destruct (Hch i q Hq) as (x & Hx & Hb).
    destruct (decide (q = p)) as [->|Hne].
    + rewrite He in Hx. injection Hx as <-. exists (f e). by rewrite Hkey.
    + exists x. by rewrite Hother.
  - done.
Qed.

(** An assignment to an entry that keeps its [lru] flag. *)
Lemma store_inv_alter A B h bk nb np p f :
  (∀ e, keeps_entry f e ∧ flag_lru (f e) = flag_lru e) →
  store_inv A B h bk nb np → store_inv A B (alter f p h) bk nb np.
Proof.
  intros Hf (Hnd & Hres & Hgh & Hok & Hch & Hcd).
  assert (Hl : ∀ q x, h !! q = Some x →
            ∃ y, alter f p h !! q = Some y ∧ key y = key x ∧ flag_lru y = flag_lru x
                 ∧ entry_ok np q y).
  { intros q x Hx. destruct (Hf x) as [[Hk Hs] Hfl]. pose proof (Hok _ _ Hx) as (? & ? & ? & ?).
    destruct (decide (q = p)) as [->|Hne].
    - exists (f x). rewrite lookup_alter_eq, Hx. split_and!; try done. split; [done|by apply Hs].
    - exists x. rewrite lookup_alter_ne by done. done. }
  split_and!; try done.
  - intros q Hq. destruct (Hres q Hq) as (x & Hx & Hfl).
    destruct (Hl _ _ Hx) as (y & Hy & _ & Hfy & _). exists y. by rewrite Hfy.
  - intros q Hq. destruct (Hgh q Hq) as (x & Hx & Hfl).
    destruct (Hl _ _ Hx) as (y & Hy & _ & Hfy & _). exists y. by rewrite Hfy.
  - intros q y Hy. destruct (h !! q) as [x|] eqn:Hx.
    + destruct (Hl _ _ Hx) as (y' & Hy' & _ & _ & Hok'). congruence.
    + destruct (decide (q = p)) as [->|Hne].
      * by rewrite lookup_alter_eq, Hx in Hy.
      * by rewrite lookup_alter_ne, Hx in Hy.
  - intros i q Hq. destruct (Hch i q Hq) as (x & Hx & Hb).
    destruct (Hl _ _ Hx) as (y & Hy & Hky & _). exists y. by rewrite Hky.
Qed.

(** Freeing an entry: it leaves the lists, the heap and its chain. *)
Lemma store_inv_delete A B h bk nb np p e :
  store_inv A B h bk nb np → h !! p = Some e →
  let b := word (key e) 3 mod nb in
  store_inv (que_remove p A) (que_remove p B) (delete p h)
            (<[b := que_remove p (default [] (bk !! b))]> bk) nb np.
Proof.
  intros (Hnd & Hres & Hgh & Hok & Hch & Hcd) He b.
  split_and!.
  - rewrite <- que_remove_app. by apply NoDup_que_remove.
  - intros q [Hne Hq]%elem_of_que_remove. rewrite lookup_delete_ne by done. by apply Hres.
  - intros q [Hne Hq]%elem_of_que_remove. rewrite lookup_delete_ne by done. by apply Hgh.
  - intros q x Hx. apply lookup_delete_Some in Hx as [_ Hx]. by apply (Hok _ _ Hx).
  - intros i q Hq. destruct (decide (i = b)) as [->|Hi].
    + rewrite lookup_insert_eq in Hq. cbn in Hq.
      apply elem_of_que_remove in Hq as [Hne Hq]. rewrite lookup_delete_ne by done.
      by apply Hch.
    + rewrite lookup_insert_ne in Hq by done.
      destruct (Hch i q Hq) as (x & Hx & Hb).
      assert (q ≠ p). { intros ->. rewrite He in Hx. injection Hx as <-. by apply Hi. }
      exists x. by rewrite lookup_delete_ne.
  - intros i. destruct (decide (i = b)) as [->|Hi].
    + rewrite lookup_insert_eq. cbn. by apply NoDup_que_remove.
    + by rewrite lookup_insert_ne.
Qed.

(** Allocating an entry and pushing it on its chain. *)
Lemma store_inv_alloc A B h bk nb np e :
  store_inv A B h bk nb np → 0 ≤ size e → 0 ≤ len e → 0 ≤ compressed_len e →
  let b := word (key e) 3 mod nb in
  store_inv A B (<[np := e]> h) (<[b := np :: default [] (bk !! b)]> bk) nb (S np).
Proof.
  intros (Hnd & Hres & Hgh & Hok & Hch & Hcd) Hs Hl Hc b.
  assert (Hfresh : h !! np = None).
  { destruct (h !! np) as [x|] eqn:Hx; [|done]. destruct (Hok _ _ Hx). lia. }
  assert (Hold : ∀ q x, h !! q = Some x → <[np := e]> h !! q = Some x).
  { intros q x Hx. rewrite lookup_insert_ne; [done|]. intros <-. congruence. }
  split_and!; try done.
  - intros q Hq. destruct (Hres q Hq) as (x & Hx & ?). exists x. by rewrite (Hold _ _ Hx).
  - intros q Hq. destruct (Hgh q Hq) as (x & Hx & ?). exists x. by rewrite (Hold _ _ Hx).
  - intros q x Hx. apply lookup_insert_Some in Hx as [[<- <-]|[Hne Hx]].
    + split; [lia|done].
    + destruct (Hok _ _ Hx) as (? & ?). split; [lia|done].
  - intros i q Hq. destruct (decide (i = b)) as [->|Hi].
    + rewrite lookup_insert_eq in Hq. cbn in Hq. apply elem_of_cons in Hq as [->|Hq].
      * exists e. by rewrite lookup_insert_eq.
      * destruct (Hch _ _ Hq) as (x & Hx & Hb). exists x. by rewrite (Hold _ _ Hx).
    + rewrite lookup_insert_ne in Hq by done.
      destruct (Hch _ _ Hq) as (x & Hx & Hb). exists x. by rewrite (Hold _ _ Hx).
  - intros i. destruct (decide (i = b)) as [->|Hi].
    + rewrite lookup_insert_eq. cbn. apply NoDup_cons_2; [|apply Hcd].
      intros Hq. destruct (Hch _ _ Hq) as (x & Hx & _). congruence.
    + by rewrite lookup_insert_ne.
Qed.

Lemma rehash_push_inv anb c : ∀ l nb S,
  rehash_inv anb c nb S → NoDup (S ++ l) →
  rehash_inv anb c (foldl (rehash_push anb c) nb l) (S ++ l).
Proof.
  induction l as [|p l IH]; intros nb S Hinv Hnd; cbn [foldl].
  { by rewrite app_nil_r. }
  replace (S ++ p :: l) with ((S ++ [p]) ++ l) in * by (by rewrite <- app_assoc).
  apply IH; [|done].
  destruct Hinv as [Hm Hn]. unfold rehash_push.
  set (b := word (key (deref c p)) 3 mod anb). split.
  - intros i q Hq. destruct (decide (i = b)) as [->|Hi].
    + rewrite lookup_insert_eq in Hq. cbn in Hq. apply elem_of_cons in Hq as [->|Hq].
      * split; [set_solver|done].
      * destruct (Hm _ _ Hq). split; [set_solver|done].
    + rewrite lookup_insert_ne in Hq by done. destruct (Hm _ _ Hq). split; [set_solver|done].
  - intros i. destruct (decide (i = b)) as [->|Hi].
    + rewrite lookup_insert_eq. cbn. apply NoDup_cons_2; [|apply Hn].
      intros Hq. destruct (Hm _ _ Hq) as [HS _].
      apply NoDup_app in Hnd as (Hnd & _ & _). apply NoDup_app in Hnd as (_ & Hd & _).
      apply (Hd p HS). set_solver.
    + by rewrite lookup_insert_ne.
Qed.

Lemma rehash_chains_inv anb c : ∀ (ixs : list Z) nb S,
  rehash_inv anb c nb S → NoDup (S ++ concat (map (chain c) ixs)) →
  rehash_inv anb c (foldl (λ nb i, foldl (rehash_push anb c) nb (chain c i)) nb ixs)
             (S ++ concat (map (chain c) ixs)).
Proof.
  induction ixs as [|i ixs IH]; intros nb S Hinv Hnd; cbn [foldl map concat] in *.
  { by rewrite app_nil_r. }
  rewrite (assoc_L (++)) in *.
  apply IH; [|done]. apply rehash_push_inv; [done|].
  by apply NoDup_app in Hnd as (Hnd & _ & _).
Qed.

Lemma elem_of_chains c (ixs : list Z) p :
  p ∈ concat (map (chain c) ixs) → ∃ i, i ∈ ixs ∧ p ∈ chain c i.
Proof.
  induction ixs as [|i ixs IH]; cbn; [by intros ?%elem_of_nil|].
  intros [Hp|Hp]%elem_of_app.
  - exists i. split; [by left|done].
  - destruct (IH Hp) as (j & Hj & Hpj). exists j. split; [by right|done].
Qed.

Lemma chains_NoDup A B c (ixs : list Z) :
  store_inv A B (heap c) (bucket c) (nbuckets c) (next_ptr c) →
  NoDup ixs → NoDup (concat (map (chain c) ixs)).
Proof.
  intros (_ & _ & _ & _ & Hch & Hcd).
  induction ixs as [|i ixs IH]; intros Hnd; cbn; [constructor|].
  apply NoDup_cons in Hnd as [Hi Hnd]. apply NoDup_app. split_and!.
  - apply Hcd.
  - intros p Hp (j & Hj & Hpj)%elem_of_chains.
    destruct (Hch i p Hp) as (e & He & Hbi). destruct (Hch j p Hpj) as (e' & He' & Hbj).
    rewrite He in He'. injection He' as <-. rewrite Hbi in Hbj. by subst.
  - by apply IH.
Qed.

(** [resize_hashtable] keeps the shape of the store. *)
Lemma resize_hashtable_inv vs g c :
  held_inv vs g c → held_inv vs g (resize_hashtable c).
Proof.
  intros Hinv. pose proof Hinv as (Hnd & Hres & Hgh & Hok & Hch & Hcd).
  unfold held_inv, resize_hashtable. proj_simpl.
  set (anb := nth (ibuckets c) bucket_sizes 0).
  pose proof (rehash_chains_inv anb c (seqZ 0 (nbuckets c)) ∅ []) as Hre.
  cbn [app] in Hre.
  destruct Hre as [Hm Hn].
  { split; intros i; rewrite lookup_empty; cbn; [by intros p ?%elem_of_nil|constructor]. }
  { eapply chains_NoDup; [exact Hinv|]. apply NoDup_seqZ. }
  split_and!; try done.
  intros i p Hp. destruct (Hm i p Hp) as [Hin Hb].
  apply elem_of_chains in Hin as (j & _ & Hj).
  destruct (Hch j p Hj) as (e & He & _). exists e. split; [done|].
  unfold deref in Hb. by rewrite He in Hb.
Qed.

Lemma held_inv_core vs g c c' :
  lru0 c' = lru0 c → lru1 c' = lru1 c → heap c' = heap c → bucket c' = bucket c →
  nbuckets c' = nbuckets c → next_ptr c' = next_ptr c →
  held_inv vs g c → held_inv vs g c'.
Proof. unfold held_inv. by intros -> -> -> -> -> ->. Qed.

Lemma held_inv_upd vs g c p f :
  (∀ e, keeps_entry f e ∧ flag_lru (f e) = flag_lru e) →
  held_inv vs g c → held_inv vs g (upd p f c).
Proof. intros Hf Hinv. unfold held_inv. proj_simpl. by apply store_inv_alter. Qed.

Lemma held_inv_allocated_l vs g c p :
  held_inv vs g c → p ∈ lru0 c ++ vs → ∃ e, heap c !! p = Some e ∧ flag_lru e = false.
Proof. intros (_ & H & _). apply H. Qed.

Lemma held_inv_allocated_r vs g c p :
  held_inv vs g c → p ∈ lru1 c ++ g → ∃ e, heap c !! p = Some e ∧ flag_lru e = true.
Proof. intros (_ & _ & H & _). apply H. Qed.

(** [tick_free] of the ghost [p] that was just dequeued. *)
Lemma tick_free_inv vs g p c :
  store_inv (lru0 c ++ vs) (p :: lru1 c ++ g) (heap c) (bucket c) (nbuckets c) (next_ptr c) →
  held_inv vs g (tick_free p c).
Proof.
  intros Hinv. pose proof Hinv as (Hnd & _ & Hgh & _).
  destruct (Hgh p) as (e & He & _); [by left|].
  pose proof (store_inv_delete _ _ _ _ _ _ _ _ Hinv He) as Hdel. cbn zeta in Hdel.
  assert (HpA : p ∉ lru0 c ++ vs).
  { apply NoDup_app in Hnd as (_ & Hd & _). intros Hp. apply (Hd p Hp). by left. }
  assert (HpB : p ∉ lru1 c ++ g).
  { apply NoDup_app in Hnd as (_ & _ & Hd). by apply NoDup_cons in Hd as [? _]. }
  rewrite (que_remove_notin _ _ HpA) in Hdel.
  unfold que_remove at 1 in Hdel.
  rewrite (filter_cons_False (λ x, x ≠ p)) in Hdel by naive_solver.
  fold (que_remove p (lru1 c ++ g)) in Hdel. rewrite (que_remove_notin _ _ HpB) in Hdel.
  unfold held_inv, tick_free. proj_simpl. rewrite delete_alter_heap.
  unfold deref, chain. cbn [heap set_history bucket].
  rewrite heap_upd, decide_True, He by done. cbn.
  exact Hdel.
Qed.

Lemma que_remove_perm p (q q' : list nat) :
  NoDup q → q ≡ₚ p :: q' → que_remove p q ≡ₚ q'.
Proof.
  intros Hnd Hp. unfold que_remove. rewrite Hp.
  rewrite (filter_cons_False (λ x, x ≠ p)) by naive_solver.
  fold (que_remove p q'). rewrite que_remove_notin; [done|].
  rewrite Hp in Hnd. by apply NoDup_cons in Hnd as [? _].
Qed.

(** Placing the entry [p] on the list its [lru] flag names after an
    assignment to it. *)
Lemma store_inv_place A B A' B' h bk nb np p e f :
  store_inv A B h bk nb np → h !! p = Some e → keeps_entry f e →
  A' ≡ₚ que_remove p A ++ (if flag_lru (f e) then [] else [p]) →
  B' ≡ₚ que_remove p B ++ (if flag_lru (f e) then [p] else []) →
  store_inv A' B' (alter f p h) bk nb np.
Proof.
  intros Hinv He Hf HA HB. eapply store_inv_perm; [symmetry; exact HA|symmetry; exact HB|].
  by apply store_inv_relist.
Qed.

Lemma hits_keeps_entry v e : keeps_entry (set_hits v) e ∧ flag_lru (set_hits v e) = flag_lru e.
Proof. by destruct e. Qed.

Lemma tick_inv vs g c : held_inv vs g c → held_inv vs g (tick c).
Proof.
  intros Hinv. unfold tick. destruct (lru1 c) as [|p q] eqn:Hl1; [done|].
  set (c1 := upd p _ (set_lru1 q c)).
  assert (H1 : store_inv (lru0 c1 ++ vs) (p :: lru1 c1 ++ g) (heap c1) (bucket c1)
                 (nbuckets c1) (next_ptr c1)).
  { subst c1. proj_simpl. apply store_inv_alter; [intros e; apply hits_keeps_entry|].
    unfold held_inv in Hinv. by rewrite Hl1 in Hinv. }
  clearbody c1. destruct (negb _).
  - set (c2 := upd p _ c1).
    assert (H2 : held_inv vs g (set_lru1 (que_enqueue p (lru1 c2)) c2)).
    { subst c2. unfold held_inv. proj_simpl.
      apply store_inv_alter; [intros e; apply hits_keeps_entry|].
      eapply store_inv_perm; [done| |exact H1].
      unfold que_enqueue. rewrite <- (assoc_L (++)). cbn.
      by rewrite <- Permutation_middle. }
    clearbody c2. set (c3 := set_lru1 _ c2) in *. clearbody c3.
    destruct (history c3 <=? _); [done|].
    destruct (lru1 c3) as [|p' q'] eqn:Hl3; [done|].
    apply tick_free_inv. proj_simpl. unfold held_inv in H2. by rewrite Hl3 in H2.
  - by apply tick_free_inv.
Qed.

Lemma take_victim_inv vs g v q' c :
  lru0 c = v :: q' → held_inv vs g c → held_inv (que_enqueue v vs) g (take_victim v q' c).
Proof.
  intros Hl0 Hinv. unfold take_victim. apply tick_inv.
  apply held_inv_upd; [intros e; apply hits_keeps_entry|].
  set (c1 := set_bytes _ (set_lru0 q' c)).
  assert (H1 : held_inv (que_enqueue v vs) g c1).
  { subst c1. unfold held_inv in *. proj_simpl. rewrite Hl0 in Hinv.
    eapply store_inv_perm; [|done|exact Hinv].
    unfold que_enqueue. cbn. by rewrite (assoc_L (++)), <- Permutation_cons_append. }
  clearbody c1. by case_decide.
Qed.

Lemma requeue_victim_inv vs g v c :
  held_inv (v :: vs) g c → held_inv vs g (requeue_victim c v).
Proof.
  intros Hinv. unfold requeue_victim, held_inv. proj_simpl.
  apply store_inv_alter; [intros e; apply hits_keeps_entry|].
  unfold que_enqueue. by rewrite <- (assoc_L (++)).
Qed.

Lemma requeue_victims_inv g ws : ∀ vs c,
  held_inv (vs ++ ws) g c → held_inv ws g (requeue_victims c vs).
Proof.
  induction vs as [|v vs IH]; intros c Hinv; [done|].
  cbn [requeue_victims foldl]. apply IH. by apply requeue_victim_inv.
Qed.

Lemma victimize_inv vs g v c :
  held_inv (v :: vs) g c → held_inv vs g (victimize v c).
Proof.
  intros Hinv. pose proof Hinv as (Hnd & Hres & _).
  destruct (Hres v) as (e & He & Hfl); [set_solver|].
  unfold victimize, held_inv. proj_simpl.
  eapply store_inv_place; [exact Hinv|exact He|by destruct e| |]; cbn [flag_lru set_flag_lru].
  - rewrite app_nil_r. symmetry. apply que_remove_perm.
    + by apply NoDup_app in Hnd as (? & _).
    + by rewrite <- Permutation_middle.
  - rewrite que_remove_notin.
    + unfold que_enqueue. rewrite <- !(assoc_L (++)). apply Permutation_app_head.
      apply Permutation_app_comm.
    + apply NoDup_app in Hnd as (_ & Hd & _). apply Hd. set_solver.
Qed.

Lemma insert_victim_inv sz vs g v c :
  held_inv (v :: vs) g c → held_inv vs g (insert_victim sz c v).
Proof.
  intros Hinv. unfold insert_victim. destruct (_ <=? _); [|by apply victimize_inv].
  by apply (requeue_victim_inv vs g v c).
Qed.

Lemma insert_victims_inv sz g ws : ∀ vs c,
  held_inv (vs ++ ws) g c → held_inv ws g (foldl (insert_victim sz) c vs).
Proof.
  induction vs as [|v vs IH]; intros c Hinv; [done|].
  cbn [foldl]. apply IH. by apply insert_victim_inv.
Qed.

(** Putting the ghost that [put] held aside back on [lru[1]]. *)
Lemma enqueue_ghost_inv vs p c :
  held_inv vs [p] c → held_inv vs [] (set_lru1 (que_enqueue p (lru1 c)) c).
Proof.
  intros Hinv. unfold held_inv in *. proj_simpl. unfold que_enqueue. by rewrite app_nil_r.
Qed.

(** The victim selection loop keeps the shape of the store; at [Linsert]
    and [Lhistory] the victims are still held, and so is the ghost. *)
Lemma victim_loop_inv e sz q : ∀ c victims,
  lru0 c = q → held_inv victims (held_ghost e) c →
  match victim_loop q e sz c victims with
  | Linsert c' vs | Lhistory c' vs =>
      held_inv vs (held_ghost e) c' ∧ nbuckets c' = nbuckets c
  | Lreturn0 c' => cache_inv c'
  end.
Proof.
  induction q as [|v q' IH]; intros c victims Hq Hinv; cbn [victim_loop].
  - destruct (bytes c + sz <=? max_bytes c); [done|].
    apply (requeue_victims_inv [] [] victims). rewrite app_nil_r.
    destruct e as [p|]; [by apply enqueue_ghost_inv|done].
  - pose proof (take_victim_inv _ _ _ _ _ Hq Hinv) as H5.
    destruct (take_victim_spec v q' c) as (Tl0 & _ & (_ & _ & _ & _ & Tn & _) & _).
    set (c5 := take_victim v q' c) in *. clearbody c5.
    destruct e as [p|]; [|done].
    destruct (_ && _).
    + apply enqueue_ghost_inv.
      apply (requeue_victims_inv [p] [] (que_enqueue v victims)). by rewrite app_nil_r.
    + destruct (bytes c5 + sz <=? max_bytes c5); [done|].
      specialize (IH c5 (que_enqueue v victims) Tl0 H5).
      destruct (victim_loop q' (Some p) sz c5 (que_enqueue v victims)); [| |done];
        by rewrite <- Tn.
Qed.

Lemma insert_victims_nbuckets sz vs : ∀ c,
  nbuckets (foldl (insert_victim sz) c vs) = nbuckets c.
Proof.
  induction vs as [|v vs IH]; intros c; cbn [foldl]; [done|].
  rewrite IH. unfold insert_victim, victimize. by destruct (_ <=? _).
Qed.

Lemma cache_inv_fresh c :
  cache_inv c → heap c !! next_ptr c = None ∧ (next_ptr c ∉ lru0 c) ∧ (next_ptr c ∉ lru1 c).
Proof.
  intros (_ & Hres & Hgh & Hok & _).
  assert (Hfresh : heap c !! next_ptr c = None).
  { destruct (heap c !! next_ptr c) as [x|] eqn:Hx; [|done]. destruct (Hok _ _ Hx). lia. }
  split_and!; [done| |].
  - intros Hp. destruct (Hres (next_ptr c)) as (x & Hx & _); [set_solver|congruence].
  - intros Hp. destruct (Hgh (next_ptr c)) as (x & Hx & _); [set_solver|congruence].
Qed.

Lemma put_new_entry_inv k a1 a2 c :
  cache_inv c →
  let r := put_new_entry k a1 a2 (word k 3 mod nbuckets c) c in
  cache_inv r.2 ∧ is_Some (heap r.2 !! r.1) ∧ (r.1 ∉ lru0 r.2) ∧ (r.1 ∉ lru1 r.2).
Proof.
  intros Hinv. destruct (cache_inv_fresh c Hinv) as (Hfresh & Hn0 & Hn1).
  unfold put_new_entry. cbn [fst snd].
  set (e0 := Entry k a1 a2 1 0 0 0 0 false false false None).
  set (c1 := bucket_push _ _ _).
  assert (H1 : cache_inv c1).
  { subst c1. unfold cache_inv, held_inv, chain. proj_simpl.
    by apply (store_inv_alloc _ _ _ _ _ _ e0 Hinv). }
  assert (H2 : heap c1 !! next_ptr c = Some e0 ∧ lru0 c1 = lru0 c ∧ lru1 c1 = lru1 c).
  { subst c1. proj_simpl. by rewrite lookup_insert_eq. }
  clearbody c1. destruct H2 as (Hh & Hl0 & Hl1).
  destruct (objects c1 >? nbuckets c1).
  - split_and!.
    + apply resize_hashtable_inv. by apply (held_inv_core [] [] c1).
    + by exists e0.
    + unfold resize_hashtable. proj_simpl. by rewrite Hl0.
    + unfold resize_hashtable. proj_simpl. by rewrite Hl1.
  - rewrite Hl0, Hl1. by split_and!.
Qed.

Lemma put_install_inv d l copy sz p g e c :
  held_inv [] g c → heap c !! p = Some e → p ∉ lru0 c →
  que_remove p (lru1 c ++ g) = lru1 c → 0 ≤ sz → 0 ≤ l →
  cache_inv (put_install d l copy sz p c).
Proof.
  intros Hinv He Hp0 Hp1 Hsz Hl.
  unfold put_install, cache_inv, held_inv. proj_simpl. rewrite !app_nil_r.
  apply store_inv_alter; [keeps_entry_tac|].
  apply store_inv_alter; [keeps_entry_tac|].
  apply store_inv_alter; [keeps_entry_tac|].
  apply store_inv_alter; [keeps_entry_tac|].
  eapply store_inv_place; [exact Hinv|exact He|keeps_entry_tac|..]; cbn [flag_lru clear_flags].
  - by rewrite app_nil_r, que_remove_notin.
  - by rewrite Hp1, app_nil_r.
Qed.

Lemma put_insert_inv k d l copy a1 a2 sz e c vs :
  0 ≤ sz → 0 ≤ l → held_inv vs (held_ghost e) c →
  cache_inv (put_insert k d l copy a1 a2 (word k 3 mod nbuckets c) sz e c vs).2.
Proof.
  intros Hsz Hl Hinv. unfold put_insert.
  pose proof (insert_victims_inv sz (held_ghost e) [] vs c) as H1.
  rewrite app_nil_r in H1. specialize (H1 Hinv).
  pose proof (insert_victims_nbuckets sz vs c) as Hn.
  set (c1 := foldl _ c vs) in *. clearbody c1.
  destruct e as [p|]; cbn [snd held_ghost] in *.
  - pose proof H1 as (Hnd & _ & Hgh & _).
    destruct (Hgh p) as (x & Hx & _); [set_solver|].
    rewrite app_nil_r in Hnd.
    eapply (put_install_inv _ _ _ _ _ [p] x); [by apply (held_inv_core [] [p] c1)|done|..];
      proj_simpl; try done.
    + apply NoDup_app in Hnd as (_ & Hd & _). intros Hp. apply (Hd p Hp). set_solver.
    + apply NoDup_app in Hnd as (_ & _ & Hd).
      rewrite que_remove_app, que_remove_notin.
      * unfold que_remove. rewrite (filter_cons_False (λ y, y ≠ p)) by naive_solver.
        by rewrite filter_nil, app_nil_r.
      * apply NoDup_app in Hd as (_ & Hd & _). intros Hp. apply (Hd p Hp). set_solver.
  - rewrite <- Hn. destruct (put_new_entry_inv k a1 a2 c1 H1) as (H2 & [x Hx] & Hp0 & Hp1).
    destruct (put_new_entry _ _ _ _ c1) as [p cn]. cbn [fst snd] in *.
    eapply (put_install_inv _ _ _ _ _ [] x); try done.
    by rewrite app_nil_r, que_remove_notin.
Qed.

Lemma put_history_inv k d a1 a2 c vs :
  held_inv vs [] c →
  cache_inv (put_history k d a1 a2 (word k 3 mod nbuckets c) c vs).2.
Proof.
  intros Hinv. unfold put_history. cbn [snd].
  pose proof (requeue_victims_inv [] [] vs c) as H1. rewrite app_nil_r in H1.
  specialize (H1 Hinv).
  destruct (requeue_victims_spec vs c) as (_ & _ & _ & _ & _ & (_ & _ & _ & _ & Hn & _) & _).
  set (c1 := requeue_victims c vs) in *. clearbody c1. rewrite <- Hn.
  destruct (cache_inv_fresh c1 H1) as (Hfresh & Hn0 & Hn1).
  set (e0 := Entry k a1 a2 1 (u32 (block_size d)) 0 0 0 false false false None).
  assert (Hsz : 0 ≤ u32 (block_size d)) by (unfold u32; apply Z.mod_pos_bound; lia).
  pose proof (store_inv_alloc _ _ _ _ _ _ e0 H1 Hsz (Z.le_refl 0) (Z.le_refl 0)) as H2.
  cbn zeta in H2.
  unfold cache_inv, held_inv, chain. proj_simpl. rewrite !app_nil_r in *.
  eapply store_inv_place; [exact H2|by rewrite lookup_insert_eq|keeps_entry_tac|..];
    cbn [flag_lru set_flag_lru].
  - by rewrite app_nil_r, que_remove_notin.
  - by rewrite que_remove_notin.
Qed.

Lemma destroy_inv p e c :
  cache_inv c → heap c !! p = Some e → cache_inv (destroy p c).
Proof.
  intros Hinv He. pose proof Hinv as (Hnd & Hres & Hgh & _).
  rewrite !app_nil_r in *.
  assert (Hd : deref c p = e) by (unfold deref; by rewrite He).
  pose proof (store_inv_delete _ _ _ _ _ _ _ _ Hinv He) as Hdel. cbn zeta in Hdel.
  rewrite !app_nil_r in Hdel.
  unfold cache_inv, held_inv. rewrite !app_nil_r.
  destruct (flag_lru e) eqn:Hfl.
  - destruct (destroy_ghost p c) as (-> & -> & -> & _ & _ & _ & -> & -> & _ & _ & _ & ->);
      [by rewrite Hd|].
    rewrite Hd. unfold bucket_of, chain.
    rewrite (que_remove_notin p (lru0 c)) in Hdel; [done|].
    intros Hp. destruct (Hres p Hp) as (x & Hx & Hfx). congruence.
  - destruct (destroy_resident p c) as (-> & -> & -> & _ & _ & _ & -> & -> & _ & _ & _ & ->);
      [by rewrite Hd|].
    rewrite Hd. unfold bucket_of, chain.
    rewrite (que_remove_notin p (lru1 c)) in Hdel; [done|].
    intros Hp. destruct (Hgh p Hp) as (x & Hx & Hfx). congruence.
Qed.

Lemma put_lookup_inv k a1 a2 : ∀ ch c,
  cache_inv c → NoDup ch → (∀ p, p ∈ ch → is_Some (heap c !! p)) →
  let r := put_lookup k a1 a2 ch c in
  cache_inv r.2 ∧ (∀ p, r.1 = Some p → is_Some (heap r.2 !! p))
  ∧ nbuckets r.2 = nbuckets c.
Proof.
  induction ch as [|p ch IH]; intros c Hinv Hnd Hall; cbn [put_lookup].
  { split_and!; try done. }
  apply NoDup_cons in Hnd as [Hp Hnd].
  assert (Hrest : ∀ q, q ∈ ch → is_Some (heap c !! q)) by (intros q ?; apply Hall; by right).
  destruct (decide (key (deref c p) = k)) as [Hk|Hk]; [|by apply IH].
  destruct (_ && _).
  - cbn [fst snd]. split_and!; try done. intros ? [= <-]. apply Hall. by left.
  - destruct (Hall p) as [e He]; [by left|].
    destruct (destroy_frame p c) as (Dh & _ & Dn & _).
    destruct (IH (destroy p c)) as (I1 & I2 & I3); [by eapply destroy_inv|done| |].
    + intros q Hq. rewrite Dh, lookup_delete_ne; [by apply Hrest|]. by intros ->.
    + split_and!; try done. by rewrite I3.
Qed.

Lemma requeue_inv p e c :
  cache_inv c → heap c !! p = Some e → cache_inv (requeue p c).
Proof.
  intros Hinv He. pose proof Hinv as (Hnd & Hres & Hgh & _). rewrite !app_nil_r in *.
  assert (Hd : deref c p = e) by (unfold deref; by rewrite He).
  assert (Hid : alter (λ x : RamCacheCLFUSEntry, x) p (heap c) = heap c) by (by apply alter_id).
  unfold cache_inv, held_inv, requeue. rewrite Hd.
  destruct (flag_lru e) eqn:Hfl; cbn [set_lru lru]; proj_simpl; rewrite !app_nil_r, <- Hid.
  - eapply store_inv_place; [exact Hinv|exact He|keeps_entry_tac|..]; rewrite Hfl, !app_nil_r.
    + rewrite que_remove_notin; [done|].
      intros Hp. destruct (Hres p Hp) as (x & Hx & Hfx). congruence.
    + done.
  - eapply store_inv_place; [exact Hinv|exact He|keeps_entry_tac|..]; rewrite Hfl, !app_nil_r.
    + done.
    + rewrite que_remove_notin; [done|].
      intros Hp. destruct (Hgh p Hp) as (x & Hx & Hfx). congruence.
Qed.

Lemma move_compressed_inv p c : cache_inv c → cache_inv (move_compressed p c).
Proof.
  destruct (move_compressed_frame p c) as (? & ? & ? & ? & _ & _ & _ & ? & _ & _ & _ & ?).
  by apply held_inv_core.
Qed.

Lemma put_hit_inv d l copy sz p e c :
  0 ≤ sz → cache_inv c → heap c !! p = Some e →
  cache_inv (put_hit d l copy sz p c).2.
Proof.
  intros Hsz Hinv He. unfold put_hit. cbn [snd].
  destruct (move_compressed_frame p c) as (Hh & _).
  pose proof (move_compressed_inv p c Hinv) as H1.
  set (c1 := move_compressed p c) in *. clearbody c1. rewrite <- Hh in He.
  pose proof (requeue_inv p e c1 H1 He) as H2.
  set (c2 := requeue p c1) in *. clearbody c2.
  apply held_inv_upd; [keeps_entry_tac|]. apply held_inv_upd; [keeps_entry_tac|].
  apply held_inv_upd; [keeps_entry_tac|]. by apply (held_inv_core [] [] c2).
Qed.

Lemma put_select_inv k d l copy a1 a2 sz e c :
  0 ≤ sz → 0 ≤ l → held_inv [] (held_ghost e) c →
  cache_inv (put_select k d l copy a1 a2 (word k 3 mod nbuckets c) sz e c).2.
Proof.
  intros Hsz Hl Hinv. unfold put_select.
  pose proof (victim_loop_inv e sz (lru0 c) c [] eq_refl Hinv) as Hloop.
  pose proof (victim_loop_lru0 e sz (lru0 c) c [] eq_refl) as Hexit.
  destruct (victim_loop _ _ _ _ _) as [c' vs|c' vs|c'].
  - destruct Hloop as [H1 <-]. by apply put_insert_inv.
  - destruct Hloop as [H1 <-]. destruct Hexit as [-> _]. by apply put_history_inv.
  - done.
Qed.

Lemma put_admission_inv k d l copy a1 a2 sz e c :
  0 ≤ sz → 0 ≤ l → held_inv [] (held_ghost e) c →
  cache_inv (put_admission k d l copy a1 a2 (word k 3 mod nbuckets c) sz e c).2.
Proof.
  intros Hsz Hl Hinv. unfold put_admission.
  destruct (_ && (bytes c + sz <=? max_bytes c)); [by apply put_insert_inv|].
  destruct e as [p|]; [by apply put_select_inv|].
  set (cs := set_seen _ c). destruct (_ && negb _); [done|].
  by apply (put_select_inv k d l copy a1 a2 sz None cs).
Qed.

Lemma put_found_inv k d l copy a1 a2 sz e c :
  0 ≤ sz → 0 ≤ l → cache_inv c → (∀ p, e = Some p → is_Some (heap c !! p)) →
  cache_inv (put_found k d l copy a1 a2 (word k 3 mod nbuckets c) sz e c).2.
Proof.
  intros Hsz Hl Hinv He. unfold put_found.
  destruct e as [p|]; [|by apply put_admission_inv].
  destruct (He p eq_refl) as [e He']. clear He.
  set (bump := λ x, set_hits (u64 (hits x + 1)) x).
  set (c1 := upd p bump c).
  assert (Hd1 : deref c1 p = bump e) by (by apply deref_upd_eq).
  rewrite Hd1. change (flag_lru (bump e)) with (flag_lru e).
  destruct (flag_lru e) eqn:Hfl; cbn [negb].
  - apply (put_admission_inv k d l copy a1 a2 sz (Some p)
             (set_lru1 (que_remove p (lru1 c1)) c1)); [done|done|].
    pose proof Hinv as (Hnd & Hres & _). rewrite !app_nil_r in *.
    subst c1. unfold held_inv, held_ghost. proj_simpl.
    eapply store_inv_place; [exact Hinv|exact He'|keeps_entry_tac|..];
      change (flag_lru (bump e)) with (flag_lru e); rewrite Hfl, !app_nil_r.
    + rewrite que_remove_notin; [done|].
      intros Hp. destruct (Hres p Hp) as (x & Hx & Hfx). congruence.
    + done.
  - apply (put_hit_inv d l copy sz p (bump e)); [done| |].
    + subst c1. apply held_inv_upd; [keeps_entry_tac|done].
    + subst c1. by rewrite heap_upd, decide_True, He'.
Qed.

(** [put] keeps the shape of the store. *)
Lemma put_inv k d l copy a1 a2 c :
  0 ≤ l → cache_inv c → cache_inv (put k d l copy a1 a2 c).2.
Proof.
  intros Hl Hinv. destruct (decide (max_bytes c = 0)) as [Hz|Hmax].
  { unfold put. apply Z.eqb_eq in Hz. by rewrite Hz. }
  rewrite put_unfold by done.
  pose proof Hinv as (_ & _ & _ & _ & Hch & Hcd).
  destruct (put_lookup_inv k a1 a2 (chain c (word k 3 mod nbuckets c)) c Hinv)
    as (H1 & H2 & H3).
  { apply Hcd. }
  { intros p Hp. destruct (Hch _ _ Hp) as (e & He & _). by exists e. }
  set (lk := put_lookup k a1 a2 _ c) in *. clearbody lk.
  rewrite <- H3. apply put_found_inv; [apply put_size_nonneg|done|done|done].
Qed.

(** [get] keeps the shape of the store, whatever the decompressors do. *)
Lemma get_inv fastlz has_libz zlib has_lzma lzma block k a1 a2 c :
  cache_inv c → cache_inv (get fastlz has_libz zlib has_lzma lzma block k a1 a2 c).2.
Proof.
  intros Hinv. unfold get. destruct (max_bytes c =? 0); [done|].
  destruct (List.find _ _) as [p|] eqn:Hfind; [|done].
  apply find_matches in Hfind as [Hin _].
  pose proof Hinv as (_ & _ & _ & Hok & Hch & _).
  destruct (Hch _ _ Hin) as (e & He & _).
  destruct (move_compressed_frame p c) as (Hh & _).
  pose proof (move_compressed_inv p c Hinv) as H1.
  set (c1 := move_compressed p c) in *. clearbody c1. rewrite <- Hh in He.
  pose proof (requeue_inv p e c1 H1 He) as H2.
  destruct (requeue_frame p c1) as (Hh2 & _).
  set (c2 := requeue p c1) in *. clearbody c2. rewrite <- Hh2 in He.
  destruct (negb (flag_lru (deref c2 p))); [|done].
  set (bump := λ x, set_hits (u64 (hits x + 1)) x).
  set (c3 := upd p bump c2).
  assert (H3 : cache_inv c3) by (subst c3; apply held_inv_upd; [keeps_entry_tac|done]).
  assert (He3 : heap c3 !! p = Some (bump e)).
  { subst c3. by rewrite heap_upd, decide_True, He. }
  clearbody c3.
  destruct (negb (flag_compressed (deref c3 p) =? 0)).
  - destruct (decompress _ _ _ _ _ _) as [b|]; cbn [snd].
    + destruct (negb (flag_copy (deref c3 p))); [|done].
      apply held_inv_upd; [keeps_entry_tac|]. by apply (held_inv_core [] [] c3).
    + by eapply destroy_inv.
  - done.
Qed.

Lemma fixup_inv k o1 o2 n1 n2 c : cache_inv c → cache_inv (fixup k o1 o2 n1 n2 c).2.
Proof.
  intros Hinv. unfold fixup. destruct (max_bytes c =? 0); [done|].
  destruct (List.find _ _) as [p|]; [|done].
  cbn [snd]. apply held_inv_upd; [keeps_entry_tac|done].
Qed.

Lemma cache_inv_len c p : cache_inv c → 0 ≤ len (deref c p).
Proof.
  intros (_ & _ & _ & Hok & _). unfold deref.
  destruct (heap c !! p) as [e|] eqn:He; [|done]. by destruct (Hok _ _ He) as (_ & _ & ? & _).
Qed.

Lemma compress_commit_inv ctype p l b failed c :
  0 ≤ l → cache_inv c → cache_inv (compress_commit ctype p l b failed c).
Proof.
  intros Hl Hinv. unfold compress_commit.
  destruct failed; [apply held_inv_upd; [keeps_entry_tac|done]|].
  set (c1 := if exceeds _ _ _ then _ else c).
  assert (H1 : cache_inv c1).
  { subst c1. destruct (exceeds _ _ _); [|done]. apply held_inv_upd; [keeps_entry_tac|done]. }
  clearbody c1.
  destruct (exceeds _ _ _); [apply held_inv_upd; [keeps_entry_tac|done]|].
  pose proof (cache_inv_len c1 p H1) as Hlen.
  destruct (l <? len (deref c1 p)).
  - do 2 (apply held_inv_upd; [keeps_entry_tac|]).
    apply (held_inv_core [] []
             (upd p (set_compressed_len l) (upd p (set_flag_compressed (ctype mod 8)) c1)));
      try done.
    by do 2 (apply held_inv_upd; [keeps_entry_tac|]).
  - do 2 (apply held_inv_upd; [keeps_entry_tac|]).
    apply (held_inv_core [] [] (upd p (set_flag_compressed 0) c1)); try done.
    apply held_inv_upd; [keeps_entry_tac|done].
Qed.

Lemma init_inv abytes : cache_inv (init abytes new_RamCacheCLFUS).
Proof.
  assert (H0 : ∀ m, cache_inv (set_max_bytes m new_RamCacheCLFUS)).
  { intros m. unfold cache_inv, held_inv, store_inv. cbn.
    split_and!; try done; try constructor.
    - by intros p ?%elem_of_nil.
    - by intros p ?%elem_of_nil.
    - intros i p. rewrite lookup_empty. by intros ?%elem_of_nil. }
  unfold init. destruct (_ =? 0); [apply H0|]. apply resize_hashtable_inv, H0.
Qed.

(** Every state the cache reaches has the shape of [cache_inv]. *)
Theorem reachable_inv c : reachable c → cache_inv c.
Proof.
  induction 1.
  - apply init_inv.
  - by apply put_inv.
  - by apply get_inv.
  - by apply fixup_inv.
  - by apply compress_commit_inv.
Qed.

Lemma cache_inv_queues_disjoint c : cache_inv c → queues_disjoint c.
Proof.
  intros (Hnd & _). rewrite !app_nil_r in Hnd. apply NoDup_app in Hnd as (_ & Hd & _).
  unfold queues_disjoint. by apply Forall_forall.
Qed.

Lemma cache_inv_sizes_ok c : cache_inv c → sizes_ok c.
Proof. intros (_ & _ & _ & Hok & _) p e He. by destruct (Hok _ _ He) as (_ & ? & _). Qed.

Lemma cache_inv_resident_allocated c : cache_inv c → resident_allocated c.
Proof.
  intros (_ & Hres & _ & Hok & _). unfold resident_allocated. apply Forall_forall.
  intros p Hp. destruct (Hres p) as (e & He & _); [set_solver|].
  by destruct (Hok _ _ He).
Qed.

(** The hypotheses on the queues and sizes used for [put] hold in every
    state the cache reaches. *)
Theorem reachable_shape c :
  reachable c → queues_disjoint c ∧ sizes_ok c ∧ resident_allocated c.
Proof.
  intros Hinv%reachable_inv. split_and!.
  - by apply cache_inv_queues_disjoint.
  - by apply cache_inv_sizes_ok.
  - by apply cache_inv_resident_allocated.
Qed.

(** The caches of the examples are reachable states. *)
Lemma ex_cold_reachable : reachable ex_cold.
Proof. apply reachable_init. Qed.

Lemma ex_full_reachable : reachable ex_full.
Proof. unfold ex_full, ex_put. repeat (apply reachable_put; [|lia]). apply reachable_init. Qed.

Lemma ex_warm_reachable : reachable ex_warm.
Proof. unfold ex_warm, ex_get. repeat apply reachable_get. apply ex_full_reachable. Qed.

Lemma ex_tagged_reachable : reachable ex_tagged.
Proof. unfold ex_tagged. apply reachable_put; [apply reachable_init|lia]. Qed.

Lemma ex_packed_reachable : reachable ex_packed.
Proof.
  unfold ex_packed, ex_plain. apply reachable_compress_commit; [|lia].
  apply reachable_put; [apply reachable_init|lia].
Qed.

(** ** The commit of the compressor and the hit counters *)

(** C8, as the code has it.  The commit of a compression result of length
    [l] for the entry [e]: if [l > REQUIRED_SHRINK * size] the buffer is
    abandoned and the entry is marked incompressible; otherwise the result is
    stored: compressed when [l < len] ([compressed] is the algorithm,
    [compressed_len] and [size] are [l], [bytes] moves by [l] minus the old
    size), as an uncompressed copy of [len] bytes when not; in both stored
    cases the entry is also marked incompressible when
    [l > REQUIRED_COMPRESSION * len].  Other entries, the queues and
    [objects] are untouched. *)
Theorem compress_commit_decision ctype p l b c e :
  heap c !! p = Some e → 0 ≤ ctype < 8 →
  let c' := compress_commit ctype p l b false c in
  let marked := exceeds REQUIRED_COMPRESSION l (len e) || flag_incompressible e in
  (exceeds REQUIRED_SHRINK l (size e) = true →
     heap c' !! p = Some (set_flag_incompressible true e) ∧ bytes c' = bytes c)
  ∧ (exceeds REQUIRED_SHRINK l (size e) = false → l < len e →
     heap c' !! p =
       Some (set_data (Some (IOBuf (take (Z.to_nat l) b) l))
              (set_size l (set_compressed_len l (set_flag_compressed ctype
                (set_flag_incompressible marked e)))))
     ∧ bytes c' = bytes c + (l - size e))
  ∧ (exceeds REQUIRED_SHRINK l (size e) = false → len e ≤ l →
     heap c' !! p =
       Some (set_data (Some (IOBuf (take (Z.to_nat (len e)) (data_bytes e)) (len e)))
              (set_size (len e) (set_flag_compressed 0
                (set_flag_incompressible marked e))))
     ∧ bytes c' = bytes c + (len e - size e))
  ∧ (∀ q, q ≠ p → heap c' !! q = heap c !! q)
  ∧ lru0 c' = lru0 c ∧ lru1 c' = lru1 c ∧ objects c' = objects c.
Proof.
  intros He Hct c' marked. subst c' marked. unfold compress_commit.
  assert (Hd : deref c p = e) by (unfold deref; by rewrite He).
  rewrite Hd.
  assert (Hmod : ctype mod 8 = ctype) by (apply Z.mod_small; lia).
  destruct (exceeds REQUIRED_COMPRESSION l (len e)) eqn:Hc;
    cbn [orb];
    [assert (Hd1 : deref (upd p (set_flag_incompressible true) c) p
                   = set_flag_incompressible true e)
       by (apply deref_upd_eq; done); rewrite Hd1|rewrite Hd];
    cbn [size set_flag_incompressible len];
    (destruct (exceeds REQUIRED_SHRINK l (size e)) eqn:Hs;
     [|destruct (l <? len e) eqn:Hl; [apply Z.ltb_lt in Hl|apply Z.ltb_ge in Hl]]);
    proj_simpl; rewrite ?lookup_alter_eq, ?He, ?Hmod; cbn [fmap option_fmap option_map];
    (split_and!; try done; try lia; try (by destruct e);
     try (intros q Hq; by rewrite ?lookup_alter_ne by done)).
Qed.

(** C3.  What the code does to hit counters is a left shift.  The clock
    requeues the oldest ghost with hits 1 whenever its hits are between 1 and
    2^63 - 1 (and the history is within its slack): such an entry is never
    freed.  A dequeued victim has its hits doubled modulo 2^64 before the
    value comparison. *)
Theorem tick_shifts_hits_left c p q e :
  lru1 c = p :: q → heap c !! p = Some e → 0 < hits e < 2 ^ 63 →
  history c ≤ objects c + HISTORY_HYSTERIA →
  heap (tick c) !! p = Some (set_hits 1 e)
  ∧ lru1 (tick c) = q ++ [p] ∧ history (tick c) = history c
  ∧ (∀ c0 v q' ev, v ∉ lru1 c0 → heap c0 !! v = Some ev →
       heap (take_victim v q' c0) !! v
       = Some (set_hits (u64 (Z.shiftl (hits ev) 1)) ev)).
Proof.
  intros Hq He Hh Hhist.
  assert (Hne : u64 (Z.shiftl (hits e) 1) ≠ 0).
  { rewrite Z.shiftl_mul_pow2 by lia. unfold u64. rewrite Z.mod_small; lia. }
  assert (Htick : tick c = set_lru1 (que_enqueue p q)
            (upd p (λ e, set_hits (REQUEUE_HITS (hits e)) e)
               (upd p (λ e, set_hits (u64 (Z.shiftl (hits e) 1)) e) (set_lru1 q c)))).
  { unfold tick. rewrite Hq.
    set (c1 := upd p _ (set_lru1 q c)).
    assert (Hd : deref c1 p = set_hits (u64 (Z.shiftl (hits e) 1)) e).
    { subst c1. unfold deref. proj_simpl. by rewrite lookup_alter_eq, He. }
    rewrite Hd. cbn [hits set_hits]. apply Z.eqb_neq in Hne. rewrite Hne. cbn [negb].
    subst c1. proj_simpl. apply Z.leb_le in Hhist. by rewrite Hhist. }
  split_and!.
  - rewrite Htick. proj_simpl. rewrite !lookup_alter_eq, He. cbn.
    unfold REQUEUE_HITS. apply Z.eqb_neq in Hne. by rewrite Hne.
  - by rewrite Htick.
  - by rewrite Htick.
  - intros c0 v q' ev Hv Hev. unfold take_victim.
    rewrite tick_heap.
    + proj_simpl. rewrite lookup_alter_eq.
      destruct (decide _); proj_simpl; by rewrite Hev.
    + proj_simpl. by destruct (decide _).
Qed.

(** C3 at [ex_full]: the ghost with one hit survives the tick unchanged. *)
Lemma tick_shifts_hits_left_witness :
  lru1 ex_full = [4%nat]
  ∧ heap (tick ex_full) !! 4%nat = heap ex_full !! 4%nat
  ∧ hits (deref ex_full 4) = 1.
Proof.
  assert (Hq : lru1 ex_full = 4%nat :: []) by (vm_compute; reflexivity).
  assert (He : heap ex_full !! 4%nat = Some (ghost_entry (ex_key 4) (ex_buf 100) 0 0))
    by (vm_compute; reflexivity).
  assert (Hh : 0 < hits (ghost_entry (ex_key 4) (ex_buf 100) 0 0) < 2 ^ 63) by (cbn; lia).
  assert (Hhist : history ex_full ≤ objects ex_full + HISTORY_HYSTERIA) by (vm_compute; discriminate).
  destruct (tick_shifts_hits_left ex_full 4%nat [] _ Hq He Hh Hhist) as (Ht & _).
  split_and!; [exact Hq| |vm_compute; reflexivity].
  rewrite Ht, He. reflexivity.
Defined.

(** C1.  Two puts of one key with [copy = true], of 2 and then of 4 bytes: the
    second put is stored in place and leaves the entry's [len] at 2, so the
    get that follows returns 1 with the first two bytes of the payload only. *)
Example put_in_place_keeps_stale_len :
  let small := IOBuf [x01; x02] 2 in
  let big := IOBuf [x0a; x0b; x0c; x0d] 4 in
  let c1 := (put (ex_key 1) small 2 true 0 0 ex_cold).2 in
  let r2 := put (ex_key 1) big 4 true 0 0 c1 in
  let g := ex_get (ex_key 1) 0 0 r2.2 in
  r2.1 = 1 ∧ g.1.1 = 1 ∧ g.1.2 = Some (IOBuf [x0a; x0b] 128)
  ∧ len (deref r2.2 1) = 2.
Proof. vm_compute. done. Qed.

(** C2 fails: on the empty cache of 1000 bytes a first put of 900 bytes is
    stored and leaves [bytes = 1156]; an update in place to 5000 bytes is
    stored and leaves [bytes = 5256]. *)
Lemma put_bytes_exceed_max_bytes :
  let r := put (ex_key 1) (ex_buf 900) 4 false 0 0 ex_cold in
  let r2 := put (ex_key 1) (ex_buf 5000) 4 false 0 0 r.2 in
  r.1 = 1 ∧ max_bytes r.2 = 1000 ∧ bytes r.2 = 1156
  ∧ r2.1 = 1 ∧ max_bytes r2.2 = 1000 ∧ bytes r2.2 = 5256.
Proof. vm_compute. done. Qed.

(** C2 (amended) at [ex_warm]. *)
Lemma put_bytes_bound_witness :
  sizes_ok ex_warm ∧ queues_disjoint ex_warm
  ∧ bytes (put (ex_key 4) (ex_buf 900) 4 false 0 0 ex_warm).2 ≤ bytes ex_warm.
Proof.
  assert (H1 : sizes_ok ex_warm) by by_compute.
  assert (H2 : queues_disjoint ex_warm) by by_compute.
  split_and!; [exact H1|exact H2|].
  destruct (put_bytes_bound (ex_key 4) (ex_buf 900) 4 false 0 0 ex_warm H1 H2) as (_ & H0 & _).
  apply H0. vm_compute. reflexivity.
Defined.







(** C8 fails: a result of 95 bytes for 100 bytes in a 128-byte block exceeds
    [REQUIRED_COMPRESSION * len], and is stored compressed (and the entry
    marked); a result of 85 bytes for 100 bytes in a 100-byte block exceeds
    only [REQUIRED_SHRINK * size], and the entry is marked incompressible. *)
Lemma compress_commit_stores_and_marks :
  let c1 := compress_commit CACHE_COMPRESSION_FASTLZ 1 95 (repeat x00 95) false ex_plain in
  let c2 := compress_commit CACHE_COMPRESSION_FASTLZ 1 85 (repeat x00 85) false ex_plain_copy in
  (len (deref ex_plain 1) = 100 ∧ size (deref ex_plain 1) = 128
   ∧ exceeds REQUIRED_COMPRESSION 95 100 = true
   ∧ flag_incompressible (deref c1 1) = true
   ∧ flag_compressed (deref c1 1) = CACHE_COMPRESSION_FASTLZ
   ∧ size (deref c1 1) = 95 ∧ data (deref c1 1) = Some (IOBuf (repeat x00 95) 95))
  ∧ (len (deref ex_plain_copy 1) = 100 ∧ size (deref ex_plain_copy 1) = 100
     ∧ exceeds REQUIRED_COMPRESSION 85 100 = false
     ∧ exceeds REQUIRED_SHRINK 85 100 = true
     ∧ flag_incompressible (deref c2 1) = true
     ∧ flag_compressed (deref c2 1) = 0
     ∧ data (deref c2 1) = data (deref ex_plain_copy 1)).
Proof. vm_compute. done. Qed.

(** C8 (amended) at [ex_plain] with a result of 50 bytes. *)
Lemma compress_commit_decision_witness :
  heap ex_plain !! 1%nat = Some (deref ex_plain 1)
  ∧ 0 ≤ CACHE_COMPRESSION_FASTLZ < 8
  ∧ bytes (compress_commit CACHE_COMPRESSION_FASTLZ 1 50 (repeat x00 50) false ex_plain)
    = bytes ex_plain + (50 - 128).
Proof.
  assert (H1 : heap ex_plain !! 1%nat = Some (deref ex_plain 1)) by (vm_compute; reflexivity).
  assert (H2 : 0 ≤ CACHE_COMPRESSION_FASTLZ < 8) by (unfold CACHE_COMPRESSION_FASTLZ; lia).
  split_and!; [exact H1|apply H2|apply H2|].
  destruct (compress_commit_decision CACHE_COMPRESSION_FASTLZ 1 50 (repeat x00 50)
              ex_plain _ H1 H2) as (_ & H0 & _).
  destruct H0 as [_ Hb]; [vm_compute; reflexivity|vm_compute; reflexivity|].
  rewrite Hb. vm_compute. reflexivity.
Defined.


(** C7 at [ex_tagged]: the entry with aux keys (1, 1) is found and carries
    the aux keys (7, 7) afterwards; a fixup from (2, 2) finds nothing and
    changes nothing. *)
Lemma fixup_frame_witness :
  max_bytes ex_tagged ≠ 0
  ∧ (fixup (ex_key 65536) 1 1 7 7 ex_tagged).1 = 1
  ∧ (∃ p e', heap (fixup (ex_key 65536) 1 1 7 7 ex_tagged).2 !! p = Some e'
       ∧ auxkey1 e' = 7 ∧ auxkey2 e' = 7)
  ∧ (fixup (ex_key 65536) 2 2 7 7 ex_tagged).2 = ex_tagged.
Proof.
  assert (H1 : max_bytes ex_tagged ≠ 0) by by_compute.
  assert (H2 : index_inv ex_tagged) by by_compute.
  split; [exact H1|].
  destruct (fixup_frame (ex_key 65536) 1 1 7 7 ex_tagged H1) as (Hiff & _ & Hhit & _).
  destruct (fixup_frame (ex_key 65536) 2 2 7 7 ex_tagged H1) as (_ & _ & _ & Hno & _).
  assert (H3 : (fixup (ex_key 65536) 1 1 7 7 ex_tagged).1 = 1).
  { apply Hiff. exists 1%nat. vm_compute. split; [|reflexivity].
    apply list_elem_of_here. }
  split_and!.
  - exact H3.
  - destruct (Hhit H3) as (p & _ & _ & _ & _ & Haux & Hal).
    destruct (Hal H2) as [e' He']. exists p, e'. split; [exact He'|]. by apply Haux.
  - apply Hno. vm_compute. discriminate.
Defined.

(** C10 at [ex_full] with a fifth key. *)
Lemma put_new_key_admission_witness :
  max_bytes ex_full ≠ 0 ∧ digest_free (ex_key 5) ex_full
  ∧ ¬ unseen (ex_key 5) ex_full ∧ lru0 ex_full = [2; 3; 1]%nat ∧ lru1 ex_full ≠ []
  ∧ (put (ex_key 5) (ex_buf 100) 4 false 0 0 ex_full).1 = 0
  ∧ lru0 (put (ex_key 5) (ex_buf 100) 4 false 0 0 ex_full).2 = [3; 1; 2]%nat.
Proof.
  assert (H1 : max_bytes ex_full ≠ 0) by by_compute.
  assert (H2 : digest_free (ex_key 5) ex_full) by by_compute.
  assert (H3 : ¬ unseen (ex_key 5) ex_full) by by_compute.
  assert (H4 : lru0 ex_full = 2%nat :: [3; 1]%nat) by (vm_compute; reflexivity).
  assert (H5 : lru1 ex_full ≠ []) by (vm_compute; discriminate).
  split_and!; [exact H1|exact H2|exact H3|exact H4|exact H5| |].
  - destruct (put_new_key_admission (ex_key 5) (ex_buf 100) 4 false 0 0 ex_full H1 H2)
      as (H0 & _).
    apply (H0 H3 _ _ H4). by left.
  - destruct (put_new_key_admission (ex_key 5) (ex_buf 100) 4 false 0 0 ex_full H1 H2)
      as (H0 & _).
    apply (H0 H3 _ _ H4). by left.
Defined.

(** ** The hash index in every reachable state *)

Lemma held_inv_chains vs g c : held_inv vs g c → chains_allocated c.
Proof. intros (_ & _ & _ & _ & H & _). exact H. Qed.

Lemma index_shrink_refl c : index_shrink c c.
Proof. unfold index_shrink. split_and!; try done. intros x e ?. by exists e. Qed.

Lemma index_shrink_trans c1 c2 c3 :
  index_shrink c1 c2 → index_shrink c2 c3 → index_shrink c1 c3.
Proof.
  intros (Hm & Hn & Hi & Hsub & Hkeep & Hk) (Hm' & Hn' & Hi' & Hsub' & Hkeep' & Hk').
  unfold index_shrink. split_and!; try congruence.
  - intros i x Hx. by apply Hsub, Hsub'.
  - intros i x Hx Hal. apply Hkeep'; [|done]. apply Hkeep; [done|].
    destruct Hal as [e' He']. destruct (Hk' _ _ He') as (e & He & _). by exists e.
  - intros x e'' He''. destruct (Hk' _ _ He'') as (e' & He' & Hke').
    destruct (Hk _ _ He') as (e & He & Hke). exists e. split; [done|congruence].
Qed.

Lemma index_shrink_core c c' :
  max_bytes c' = max_bytes c → nbuckets c' = nbuckets c → ibuckets c' = ibuckets c →
  bucket c' = bucket c → heap c' = heap c → index_shrink c c'.
Proof.
  intros Hm Hn Hi Hb Hh. unfold index_shrink, chain. rewrite Hm, Hn, Hi, Hb, Hh.
  split_and!; try done. intros x e ?. by exists e.
Qed.

Lemma index_shrink_upd p f c :
  (∀ e, key (f e) = key e) → index_shrink c (upd p f c).
Proof.
  intros Hf. unfold index_shrink, chain. proj_simpl. split_and!; try done.
  intros x e' He'. rewrite lookup_alter in He'. case_decide; subst.
  - destruct (heap c !! x) as [e|] eqn:He; [|done]. injection He' as <-.
    exists e. by rewrite Hf.
  - by exists e'.
Qed.

(** Freeing [p] and unlinking it from the chain [b]. *)
Lemma index_shrink_free p b c c' :
  max_bytes c' = max_bytes c → nbuckets c' = nbuckets c → ibuckets c' = ibuckets c →
  bucket c' = <[b := que_remove p (chain c b)]> (bucket c) →
  heap c' = delete p (heap c) → index_shrink c c'.
Proof.
  intros Hm Hn Hi Hb Hh. unfold index_shrink. split_and!; try done.
  - intros i x. unfold chain at 1. rewrite Hb. destruct (decide (i = b)) as [->|Hne].
    + rewrite lookup_insert_eq. cbn. by intros [_ ?]%elem_of_que_remove.
    + by rewrite lookup_insert_ne.
  - intros i x Hx [e He]. rewrite Hh in He. apply lookup_delete_Some in He as [Hxp _].
    unfold chain at 1. rewrite Hb. destruct (decide (i = b)) as [->|Hne].
    + rewrite lookup_insert_eq. cbn. by apply elem_of_que_remove.
    + by rewrite lookup_insert_ne.
  - intros x e' He'. rewrite Hh in He'. apply lookup_delete_Some in He' as [_ He'].
    by exists e'.
Qed.

Lemma index_ok_shrink c c' :
  chains_allocated c' → index_ok c → index_shrink c c' → index_ok c'.
Proof.
  intros Hal (Hu & Hc & Ht1 & Ht2) (Hm & Hn & Hi & Hsub & Hkeep & Hk).
  assert (Hkey : ∀ i x, x ∈ chain c' i → key (deref c' x) = key (deref c x)).
  { intros i x Hx. destruct (Hal i x Hx) as (e' & He' & _).
    destruct (Hk _ _ He') as (e & He & Hke). unfold deref. by rewrite He', He. }
  split_and!.
  - intros i j p q Hp Hq Hpq. apply (Hu i j); [by apply Hsub|by apply Hsub|].
    by rewrite <- (Hkey i p Hp), <- (Hkey j q Hq).
  - intros Hr p e' He'. destruct (Hk _ _ He') as (e & He & Hke).
    unfold table_in_range in *. rewrite Hi in Hr. specialize (Hc Hr p e He).
    unfold bucket_of in *. rewrite Hn, Hke. apply Hkeep; [done|by exists e'].
  - split; rewrite Hm; [|by rewrite Hn, Hi].
    intros Hz. specialize (Ht1 Hz). apply map_empty. intros x.
    destruct (heap c' !! x) as [e'|] eqn:He'; [|done].
    destruct (Hk _ _ He') as (e & He & _). by rewrite Ht1 in He.
Qed.

Lemma digest_absent_shrink k c c' :
  chains_allocated c' → digest_absent k c → index_shrink c c' → digest_absent k c'.
Proof.
  intros Hal Habs (_ & _ & _ & Hsub & _ & Hk) i x Hx.
  destruct (Hal i x Hx) as (e' & He' & _). destruct (Hk _ _ He') as (e & He & Hke).
  specialize (Habs i x (Hsub _ _ Hx)). unfold deref in *. rewrite He in Habs.
  rewrite He'. cbn in *. congruence.
Qed.

(** One step of a composition of setters and assignments. *)
Ltac shrink_step :=
  lazymatch goal with
  | |- index_shrink ?c ?c => apply index_shrink_refl
  | |- index_shrink ?c (upd ?p ?f ?c1) =>
      apply (index_shrink_trans c c1); [|apply index_shrink_upd; by intros []]
  | |- index_shrink ?c (?s ?v ?c1) =>
      apply (index_shrink_trans c c1); [|by apply index_shrink_core]
  end.

Lemma tick_free_shrink p c : index_shrink c (tick_free p c).
Proof.
  unfold tick_free.
  set (c1 := set_history _ (upd p (set_flag_lru false) c)).
  apply (index_shrink_trans c c1); [subst c1; repeat shrink_step|].
  eapply index_shrink_free; try done.
Qed.

Lemma tick_shrink c : index_shrink c (tick c).
Proof.
  unfold tick. destruct (lru1 c) as [|p q]; [apply index_shrink_refl|].
  set (c1 := upd p _ (set_lru1 q c)).
  assert (H1 : index_shrink c c1) by (subst c1; repeat shrink_step).
  clearbody c1. destruct (negb _).
  - set (c3 := set_lru1 _ (upd p _ c1)).
    assert (H3 : index_shrink c c3).
    { apply (index_shrink_trans c c1); [done|]. subst c3. repeat shrink_step. }
    clearbody c3. destruct (history c3 <=? _); [done|].
    destruct (lru1 c3) as [|p' q']; [done|].
    apply (index_shrink_trans c c3); [done|].
    apply (index_shrink_trans c3 (set_lru1 q' c3)); [repeat shrink_step|apply tick_free_shrink].
  - apply (index_shrink_trans c c1); [done|apply tick_free_shrink].
Qed.

Lemma take_victim_shrink v q' c : index_shrink c (take_victim v q' c).
Proof.
  unfold take_victim.
  eapply index_shrink_trans; [|apply tick_shrink].
  shrink_step. set (c1 := set_bytes _ _).
  apply (index_shrink_trans c c1); [subst c1; repeat shrink_step|].
  case_decide; by apply index_shrink_core.
Qed.

Lemma requeue_victims_shrink vs : ∀ c, index_shrink c (requeue_victims c vs).
Proof.
  induction vs as [|v vs IH]; intros c; cbn [requeue_victims foldl];
    [apply index_shrink_refl|].
  eapply index_shrink_trans; [|apply IH]. unfold requeue_victim. repeat shrink_step.
Qed.

Lemma insert_victims_shrink sz vs : ∀ c, index_shrink c (foldl (insert_victim sz) c vs).
Proof.
  induction vs as [|v vs IH]; intros c; cbn [foldl]; [apply index_shrink_refl|].
  eapply index_shrink_trans; [|apply IH]. unfold insert_victim, victimize.
  destruct (_ <=? _); repeat shrink_step.
Qed.

Lemma victim_loop_shrink e sz q : ∀ c victims,
  match victim_loop q e sz c victims with
  | Linsert c' _ | Lhistory c' _ | Lreturn0 c' => index_shrink c c'
  end.
Proof.
  induction q as [|v q' IH]; intros c victims; cbn [victim_loop].
  - destruct (bytes c + sz <=? max_bytes c); [apply index_shrink_refl|].
    eapply index_shrink_trans; [|apply requeue_victims_shrink].
    destruct e; repeat shrink_step.
  - pose proof (take_victim_shrink v q' c) as H5.
    set (c5 := take_victim v q' c) in *. clearbody c5.
    destruct e as [p|]; [|done].
    destruct (_ && _).
    + apply (index_shrink_trans c c5); [done|]. shrink_step. apply requeue_victims_shrink.
    + destruct (bytes c5 + sz <=? max_bytes c5); [done|].
      specialize (IH c5 (que_enqueue v victims)).
      destruct (victim_loop q' (Some p) sz c5 (que_enqueue v victims));
        by apply (index_shrink_trans c c5).
Qed.

Lemma move_compressed_shrink p c : index_shrink c (move_compressed p c).
Proof.
  destruct (move_compressed_frame p c) as (? & _ & _ & ? & _ & _ & _ & ? & ? & _ & ? & _).
  by apply index_shrink_core.
Qed.

Lemma requeue_shrink p c : index_shrink c (requeue p c).
Proof.
  destruct (requeue_frame p c) as (? & ? & _ & _ & _ & ? & ? & _ & ? & _).
  by apply index_shrink_core.
Qed.

Lemma destroy_shrink p c : index_shrink c (destroy p c).
Proof.
  destruct (flag_lru (deref c p)) eqn:Hfl.
  - destruct (destroy_ghost p c Hfl) as (Hh & _ & _ & _ & _ & _ & Hb & Hn & Hm & _ & Hi & _).
    by eapply index_shrink_free.
  - destruct (destroy_resident p c Hfl) as (Hh & _ & _ & _ & _ & _ & Hb & Hn & Hm & _ & Hi & _).
    by eapply index_shrink_free.
Qed.

Lemma put_lookup_shrink k a1 a2 : ∀ ch c, index_shrink c (put_lookup k a1 a2 ch c).2.
Proof.
  induction ch as [|p ch IH]; intros c; cbn [put_lookup]; [apply index_shrink_refl|].
  destruct (decide _); [|apply IH]. destruct (_ && _); [apply index_shrink_refl|].
  eapply index_shrink_trans; [apply destroy_shrink|apply IH].
Qed.

Lemma put_install_shrink d l copy sz p c : index_shrink c (put_install d l copy sz p c).
Proof. unfold put_install. repeat shrink_step. Qed.

Lemma put_hit_shrink d l copy sz p c : index_shrink c (put_hit d l copy sz p c).2.
Proof.
  unfold put_hit. cbn [snd]. do 4 shrink_step.
  eapply index_shrink_trans; [apply move_compressed_shrink|apply requeue_shrink].
Qed.

Lemma bucket_sizes_pos i : (i < length bucket_sizes)%nat → 0 < nth i bucket_sizes 0.
Proof.
  intros Hi. assert (Hall : Forall (λ x, 0 < x) bucket_sizes).
  { unfold bucket_sizes. repeat (apply Forall_cons; split; [lia|]). apply Forall_nil_2. }
  rewrite nth_lookup. destruct (bucket_sizes !! i) as [x|] eqn:Hx.
  - cbn. by apply (Forall_lookup_1 _ _ _ _ Hall Hx).
  - apply lookup_ge_None in Hx. lia.
Qed.

Lemma elem_of_chains_2 c (ixs : list Z) i p :
  i ∈ ixs → p ∈ chain c i → p ∈ concat (map (chain c) ixs).
Proof.
  induction ixs as [|j ixs IH]; cbn; [by intros ?%elem_of_nil|].
  intros [->|Hi]%elem_of_cons Hp; apply elem_of_app; [by left|right; by apply IH].
Qed.

(** Every entry moved by [resize_hashtable] is on its chain of the new table. *)
Lemma rehash_push_complete anb c : ∀ l nb (S : list nat),
  (∀ p, p ∈ S → p ∈ default [] (nb !! (word (key (deref c p)) 3 mod anb))) →
  ∀ p, p ∈ S ++ l →
    p ∈ default [] (foldl (rehash_push anb c) nb l !! (word (key (deref c p)) 3 mod anb)).
Proof.
  induction l as [|x l IH]; intros nb S HS p Hp; cbn [foldl].
  { rewrite app_nil_r in Hp. by apply HS. }
  apply (IH _ (S ++ [x])); [|by rewrite <- (assoc_L (++))].
  intros q Hq. unfold rehash_push.
  destruct (decide (word (key (deref c q)) 3 mod anb = word (key (deref c x)) 3 mod anb))
    as [Heq|Hne].
  - rewrite Heq, lookup_insert_eq. cbn.
    apply elem_of_app in Hq as [Hq|Hq%list_elem_of_singleton]; [|subst; by left].
    right. rewrite <- Heq. by apply HS.
  - rewrite lookup_insert_ne by done.
    apply elem_of_app in Hq as [Hq|Hq%list_elem_of_singleton]; [by apply HS|by subst].
Qed.

Lemma rehash_chains_complete anb c : ∀ (ixs : list Z) nb (S : list nat),
  (∀ p, p ∈ S → p ∈ default [] (nb !! (word (key (deref c p)) 3 mod anb))) →
  ∀ p, p ∈ S ++ concat (map (chain c) ixs) →
    p ∈ default [] (foldl (λ nb i, foldl (rehash_push anb c) nb (chain c i)) nb ixs
                      !! (word (key (deref c p)) 3 mod anb)).
Proof.
  induction ixs as [|i ixs IH]; intros nb S HS p Hp; cbn [foldl map concat] in *.
  { rewrite app_nil_r in Hp. by apply HS. }
  apply (IH _ (S ++ chain c i)); [|by rewrite <- (assoc_L (++))].
  intros q Hq. by apply (rehash_push_complete anb c (chain c i) nb S).
Qed.

(** [resize_hashtable] keeps the index: an entry is on a chain of the new
    table exactly when it was on a chain of the old one, and then on the
    chain [key.word(3) % anbuckets]. *)
Lemma resize_hashtable_chains c :
  cache_inv c →
  let c' := resize_hashtable c in
  (∀ j p, p ∈ chain c' j →
     (∃ i, 0 ≤ i < nbuckets c ∧ p ∈ chain c i) ∧ j = bucket_of c' (deref c p))
  ∧ (∀ i p, 0 ≤ i < nbuckets c → p ∈ chain c i → p ∈ chain c' (bucket_of c' (deref c p))).
Proof.
  intros Hinv c'. subst c'. unfold resize_hashtable, bucket_of, chain at 1 4. proj_simpl.
  set (anb := nth (ibuckets c) bucket_sizes 0).
  pose proof (rehash_chains_inv anb c (seqZ 0 (nbuckets c)) ∅ []) as Hre.
  cbn [app] in Hre. destruct Hre as [Hm _].
  { split; intros i; rewrite lookup_empty; cbn; [by intros p ?%elem_of_nil|constructor]. }
  { eapply chains_NoDup; [exact Hinv|]. apply NoDup_seqZ. }
  split.
  - intros j p Hp. destruct (Hm j p Hp) as [Hin Hb]. split; [|done].
    apply elem_of_chains in Hin as (i & Hi & Hpi). apply elem_of_seqZ in Hi.
    exists i. split; [lia|done].
  - intros i p Hi Hp.
    apply (rehash_chains_complete anb c (seqZ 0 (nbuckets c)) ∅ []);
      [by intros ? ?%elem_of_nil|].
    cbn [app]. apply (elem_of_chains_2 c _ i); [|done]. apply elem_of_seqZ. lia.
Qed.

Lemma resize_hashtable_index c :
  cache_inv c → keys_unique c → max_bytes c ≠ 0 →
  (table_in_range c → ∀ p e, heap c !! p = Some e →
     0 ≤ bucket_of c e < nbuckets c ∧ p ∈ chain c (bucket_of c e)) →
  index_ok (resize_hashtable c).
Proof.
  intros Hinv Hu Hmax Hc.
  destruct (resize_hashtable_chains c Hinv) as [Hback Hfwd].
  assert (Hd : ∀ p, deref (resize_hashtable c) p = deref c p) by done.
  split_and!.
  - intros i j p q Hp Hq Hpq. rewrite !Hd in Hpq.
    destruct (Hback _ _ Hp) as [(i' & _ & Hp') _]. destruct (Hback _ _ Hq) as [(j' & _ & Hq') _].
    by apply (Hu i' j').
  - intros Hr p e He. change (heap (resize_hashtable c)) with (heap c) in He.
    destruct (Hc Hr p e He) as [Hb Hp]. specialize (Hfwd _ _ Hb Hp).
    unfold deref in Hfwd. by rewrite He in Hfwd.
  - split; [done|]. intros _. done.
Qed.

(** Allocating an entry for a digest that is not in the index. *)
Lemma index_ok_alloc e0 c c1 :
  cache_inv c → index_ok c → digest_absent (key e0) c → max_bytes c ≠ 0 →
  max_bytes c1 = max_bytes c → nbuckets c1 = nbuckets c → ibuckets c1 = ibuckets c →
  heap c1 = <[next_ptr c := e0]> (heap c) →
  bucket c1 = <[bucket_of c e0 := next_ptr c :: chain c (bucket_of c e0)]> (bucket c) →
  index_ok c1.
Proof.
  intros Hinv (Hu & Hc & Ht1 & Ht2) Habs Hmax Hm Hn Hi Hh Hb.
  destruct (cache_inv_fresh c Hinv) as (Hfresh & _).
  pose proof (held_inv_chains _ _ _ Hinv) as Hal.
  set (p := next_ptr c) in *. set (b := bucket_of c e0) in *.
  assert (Hchain : ∀ i x, x ∈ chain c1 i ↔ (i = b ∧ x = p) ∨ x ∈ chain c i).
  { intros i x. unfold chain at 1. rewrite Hb. destruct (decide (i = b)) as [->|Hne].
    - rewrite lookup_insert_eq. cbn. rewrite elem_of_cons. naive_solver.
    - rewrite lookup_insert_ne by done. fold (chain c i). naive_solver. }
  assert (Hold : ∀ i x, x ∈ chain c i → x ≠ p ∧ deref c1 x = deref c x).
  { intros i x Hx. destruct (Hal i x Hx) as (e & He & _).
    assert (x ≠ p) by (intros ->; congruence).
    split; [done|]. unfold deref. by rewrite Hh, lookup_insert_ne. }
  assert (Hnew : deref c1 p = e0) by (unfold deref; by rewrite Hh, lookup_insert_eq).
  split_and!.
  - intros i j x y Hx Hy Hxy. apply Hchain in Hx, Hy.
    destruct Hx as [[-> ->]|Hx], Hy as [[-> ->]|Hy]; [done| | |].
    + destruct (Hold _ _ Hy) as [_ Hdy]. rewrite Hnew, Hdy in Hxy.
      by destruct (Habs _ _ Hy).
    + destruct (Hold _ _ Hx) as [_ Hdx]. rewrite Hnew, Hdx in Hxy.
      by destruct (Habs _ _ Hx).
    + destruct (Hold _ _ Hx) as [_ Hdx], (Hold _ _ Hy) as [_ Hdy].
      rewrite Hdx, Hdy in Hxy. by apply (Hu i j).
  - intros Hr x e He. unfold table_in_range in Hr. rewrite Hi in Hr.
    unfold bucket_of. rewrite Hn. apply Hchain. rewrite Hh in He.
    apply lookup_insert_Some in He as [[<- <-]|[Hne He]]; [by left|right].
    by apply (Hc Hr).
  - split; [by rewrite Hm|]. rewrite Hn, Hi. intros _. by apply Ht2.
Qed.

Lemma put_lookup_none k a1 a2 : ∀ ch c,
  (put_lookup k a1 a2 ch c).1 = None →
  ∀ x, x ∈ ch → ∀ e, heap (put_lookup k a1 a2 ch c).2 !! x = Some e → key e ≠ k.
Proof.
  induction ch as [|p ch IH]; intros c Hnone x Hx e He; cbn [put_lookup] in *;
    [by apply elem_of_nil in Hx|].
  destruct (decide (key (deref c p) = k)) as [Hk|Hk].
  - destruct (_ && _); [done|].
    apply elem_of_cons in Hx as [->|Hx]; [|by apply (IH _ Hnone x Hx)].
    destruct (put_lookup_shrink k a1 a2 ch (destroy p c)) as (_ & _ & _ & _ & _ & Hkeys).
    destruct (Hkeys _ _ He) as (e0 & He0 & _).
    destruct (destroy_frame p c) as (Dh & _). rewrite Dh, lookup_delete_eq in He0. done.
  - apply elem_of_cons in Hx as [->|Hx]; [|by apply (IH _ Hnone x Hx)].
    destruct (put_lookup_shrink k a1 a2 ch c) as (_ & _ & _ & _ & _ & Hkeys).
    destruct (Hkeys _ _ He) as (e0 & He0 & Hke). unfold deref in Hk. rewrite He0 in Hk.
    cbn in Hk. congruence.
Qed.

(** After a lookup of [put] that finds nothing, the digest is in no chain. *)
Lemma put_lookup_absent k a1 a2 c :
  cache_inv c →
  let r := put_lookup k a1 a2 (chain c (word k 3 mod nbuckets c)) c in
  r.1 = None → digest_absent k r.2.
Proof.
  intros Hinv r Hnone i x Hx Hk.
  pose proof Hinv as (_ & _ & _ & _ & Hch & Hcd).
  destruct (put_lookup_inv k a1 a2 (chain c (word k 3 mod nbuckets c)) c Hinv)
    as (H1 & _ & Hn).
  { apply Hcd. }
  { intros p Hp. destruct (Hch _ _ Hp) as (e & He & _). by exists e. }
  fold r in H1, Hn.
  destruct (held_inv_chains _ _ _ H1 i x Hx) as (e & He & Hb).
  assert (Hke : key e = k) by (unfold deref in Hk; by rewrite He in Hk).
  destruct (put_lookup_shrink k a1 a2 (chain c (word k 3 mod nbuckets c)) c)
    as (_ & _ & _ & Hsub & _).
  fold r in Hsub. specialize (Hsub _ _ Hx).
  unfold bucket_of in Hb. rewrite Hke, Hn in Hb. subst i.
  by apply (put_lookup_none k a1 a2 _ c Hnone x Hsub e He).
Qed.

Lemma keys_unique_core c c' :
  heap c' = heap c → bucket c' = bucket c → keys_unique c → keys_unique c'.
Proof. unfold keys_unique, chain, deref. by intros -> ->. Qed.

Lemma put_new_entry_index k a1 a2 c :
  cache_inv c → index_ok c → digest_absent k c → max_bytes c ≠ 0 →
  index_ok (put_new_entry k a1 a2 (word k 3 mod nbuckets c) c).2.
Proof.
  intros Hinv Hok Habs Hmax. unfold put_new_entry. cbn [snd].
  set (e0 := Entry k a1 a2 1 0 0 0 0 false false false None).
  set (c1 := bucket_push _ _ _).
  assert (H1 : cache_inv c1).
  { subst c1. unfold cache_inv, held_inv, chain. proj_simpl.
    by apply (store_inv_alloc _ _ _ _ _ _ e0 Hinv). }
  assert (Hok1 : index_ok c1).
  { apply (index_ok_alloc e0 c c1); try done. }
  assert (Hm1 : max_bytes c1 = max_bytes c) by reflexivity.
  clearbody c1. destruct (objects c1 >? nbuckets c1); [|done].
  destruct Hok1 as (Hu & Hc & Ht1 & Ht2).
  apply resize_hashtable_index.
  - by apply (held_inv_core [] [] c1).
  - by apply (keys_unique_core c1).
  - cbn. congruence.
  - intros Hr p e He. unfold table_in_range in Hr. cbn [ibuckets set_ibuckets] in Hr.
    assert (Hr1 : table_in_range c1) by (unfold table_in_range; lia).
    change (heap (set_ibuckets _ c1)) with (heap c1) in He.
    split; [|by apply (Hc Hr1)].
    unfold bucket_of. cbn [nbuckets set_ibuckets].
    apply Z.mod_pos_bound. rewrite Ht2 by congruence. by apply bucket_sizes_pos.
Qed.

Lemma put_insert_index k d l copy a1 a2 sz e c vs :
  0 ≤ sz → 0 ≤ l → held_inv vs (held_ghost e) c → index_ok c → max_bytes c ≠ 0 →
  (e = None → digest_absent k c) →
  index_ok (put_insert k d l copy a1 a2 (word k 3 mod nbuckets c) sz e c vs).2.
Proof.
  intros Hsz Hl Hinv Hok Hmax Habs.
  pose proof (put_insert_inv k d l copy a1 a2 sz e c vs Hsz Hl Hinv) as Hfin.
  unfold put_insert in *.
  pose proof (insert_victims_inv sz (held_ghost e) [] vs c) as H1.
  rewrite app_nil_r in H1. specialize (H1 Hinv).
  pose proof (insert_victims_nbuckets sz vs c) as Hn.
  pose proof (insert_victims_shrink sz vs c) as Hs.
  set (c1 := foldl _ c vs) in *. clearbody c1.
  pose proof (index_ok_shrink _ _ (held_inv_chains _ _ _ H1) Hok Hs) as Hok1.
  destruct e as [p|]; cbn [snd] in *.
  - eapply index_ok_shrink; [exact (held_inv_chains _ _ _ Hfin)|exact Hok1|].
    eapply index_shrink_trans; [|apply put_install_shrink]. by apply index_shrink_core.
  - rewrite <- Hn in *.
    assert (Habs1 : digest_absent k c1).
    { eapply digest_absent_shrink; [exact (held_inv_chains _ _ _ H1)|by apply Habs|done]. }
    assert (Hmax1 : max_bytes c1 ≠ 0) by (destruct Hs as (-> & _); done).
    pose proof (put_new_entry_index k a1 a2 c1 H1 Hok1 Habs1 Hmax1) as H2.
    destruct (put_new_entry _ _ _ _ c1) as [p cn]. cbn [fst snd] in *.
    eapply index_ok_shrink; [exact (held_inv_chains _ _ _ Hfin)|exact H2|].
    apply put_install_shrink.
Qed.

Lemma put_history_index k d a1 a2 c vs :
  held_inv vs [] c → index_ok c → max_bytes c ≠ 0 → digest_absent k c →
  index_ok (put_history k d a1 a2 (word k 3 mod nbuckets c) c vs).2.
Proof.
  intros Hinv Hok Hmax Habs.
  pose proof (put_history_inv k d a1 a2 c vs Hinv) as Hfin.
  unfold put_history in *. cbn [snd] in *.
  pose proof (requeue_victims_inv [] [] vs c) as H1. rewrite app_nil_r in H1.
  specialize (H1 Hinv).
  pose proof (requeue_victims_shrink vs c) as Hs.
  set (c1 := requeue_victims c vs) in *. clearbody c1.
  pose proof (index_ok_shrink _ _ (held_inv_chains _ _ _ H1) Hok Hs) as Hok1.
  assert (Habs1 : digest_absent k c1).
  { eapply digest_absent_shrink; [exact (held_inv_chains _ _ _ H1)|done|done]. }
  destruct Hs as (Hm & Hn & _). rewrite <- Hn in *.
  set (e0 := Entry k a1 a2 1 (u32 (block_size d)) 0 0 0 false false false None) in *.
  set (c2 := bucket_push _ _ (set_heap _ (set_next_ptr _ c1))) in *.
  assert (Hok2 : index_ok c2).
  { apply (index_ok_alloc e0 c1 c2); try done. congruence. }
  clearbody c2.
  eapply index_ok_shrink; [exact (held_inv_chains _ _ _ Hfin)|exact Hok2|].
  repeat shrink_step.
Qed.

Lemma put_select_index k d l copy a1 a2 sz e c :
  0 ≤ sz → 0 ≤ l → held_inv [] (held_ghost e) c → index_ok c → max_bytes c ≠ 0 →
  (e = None → digest_absent k c) →
  index_ok (put_select k d l copy a1 a2 (word k 3 mod nbuckets c) sz e c).2.
Proof.
  intros Hsz Hl Hinv Hok Hmax Habs. unfold put_select.
  pose proof (victim_loop_inv e sz (lru0 c) c [] eq_refl Hinv) as Hloop.
  pose proof (victim_loop_lru0 e sz (lru0 c) c [] eq_refl) as Hexit.
  pose proof (victim_loop_shrink e sz (lru0 c) c []) as Hs.
  destruct (victim_loop _ _ _ _ _) as [c' vs|c' vs|c'].
  - destruct Hloop as [H1 <-].
    pose proof (index_ok_shrink _ _ (held_inv_chains _ _ _ H1) Hok Hs) as Hok1.
    apply put_insert_index; try done.
    + destruct Hs as (-> & _). done.
    + intros He. eapply digest_absent_shrink; [exact (held_inv_chains _ _ _ H1)|by apply Habs|done].
  - destruct Hloop as [H1 <-]. destruct Hexit as [-> _].
    pose proof (index_ok_shrink _ _ (held_inv_chains _ _ _ H1) Hok Hs) as Hok1.
    apply put_history_index; try done.
    + destruct Hs as (-> & _). done.
    + eapply digest_absent_shrink; [exact (held_inv_chains _ _ _ H1)|by apply Habs|done].
  - cbn [snd]. by apply (index_ok_shrink c c' (held_inv_chains _ _ _ Hloop)).
Qed.

Lemma put_admission_index k d l copy a1 a2 sz e c :
  0 ≤ sz → 0 ≤ l → held_inv [] (held_ghost e) c → index_ok c → max_bytes c ≠ 0 →
  (e = None → digest_absent k c) →
  index_ok (put_admission k d l copy a1 a2 (word k 3 mod nbuckets c) sz e c).2.
Proof.
  intros Hsz Hl Hinv Hok Hmax Habs. unfold put_admission.
  destruct (_ && (bytes c + sz <=? max_bytes c)); [by apply put_insert_index|].
  destruct e as [p|]; [by apply put_select_index|].
  set (cs := set_seen _ c).
  assert (Hs : index_shrink c cs) by (by apply index_shrink_core).
  assert (Hoks : index_ok cs).
  { eapply index_ok_shrink; [|exact Hok|exact Hs]. exact (held_inv_chains [] [] cs Hinv). }
  destruct (_ && negb _); [done|].
  by apply (put_select_index k d l copy a1 a2 sz None cs).
Qed.

Lemma put_found_index k d l copy a1 a2 sz e c :
  0 ≤ sz → 0 ≤ l → cache_inv c → index_ok c → max_bytes c ≠ 0 →
  (∀ p, e = Some p → is_Some (heap c !! p)) → (e = None → digest_absent k c) →
  index_ok (put_found k d l copy a1 a2 (word k 3 mod nbuckets c) sz e c).2.
Proof.
  intros Hsz Hl Hinv Hok Hmax He Habs.
  pose proof (put_found_inv k d l copy a1 a2 sz e c Hsz Hl Hinv He) as Hfin.
  unfold put_found in *.
  destruct e as [p|]; [|by apply put_admission_index].
  destruct (He p eq_refl) as [e He']. clear He.
  set (bump := λ x, set_hits (u64 (hits x + 1)) x) in *.
  set (c1 := upd p bump c) in *.
  assert (Hs1 : index_shrink c c1) by (subst c1; repeat shrink_step).
  assert (Hinv1 : cache_inv c1) by (subst c1; apply held_inv_upd; [keeps_entry_tac|done]).
  pose proof (index_ok_shrink _ _ (held_inv_chains _ _ _ Hinv1) Hok Hs1) as Hok1.
  assert (Hd1 : deref c1 p = bump e) by (by apply deref_upd_eq).
  rewrite Hd1 in *. change (flag_lru (bump e)) with (flag_lru e) in *.
  destruct (flag_lru e) eqn:Hfl; cbn [negb] in *.
  - set (c2 := set_lru1 _ c1) in *.
    apply (put_admission_index k d l copy a1 a2 sz (Some p) c2); try done.
    + pose proof Hinv as (Hnd & Hres & _). rewrite !app_nil_r in *.
      subst c2 c1. unfold held_inv, held_ghost. proj_simpl.
      eapply store_inv_place; [exact Hinv|exact He'|keeps_entry_tac|..];
        change (flag_lru (bump e)) with (flag_lru e); rewrite Hfl, !app_nil_r.
      * rewrite que_remove_notin; [done|].
        intros Hp. destruct (Hres p Hp) as (x & Hx & Hfx). congruence.
      * done.
  - eapply index_ok_shrink; [exact (held_inv_chains _ _ _ Hfin)|exact Hok1|].
    apply put_hit_shrink.
Qed.

(** [put] keeps the index. *)
Lemma put_index k d l copy a1 a2 c :
  0 ≤ l → cache_inv c → index_ok c → index_ok (put k d l copy a1 a2 c).2.
Proof.
  intros Hl Hinv Hok. destruct (decide (max_bytes c = 0)) as [Hz|Hmax].
  { unfold put. apply Z.eqb_eq in Hz. by rewrite Hz. }
  rewrite put_unfold by done.
  pose proof Hinv as (_ & _ & _ & _ & Hch & Hcd).
  destruct (put_lookup_inv k a1 a2 (chain c (word k 3 mod nbuckets c)) c Hinv)
    as (H1 & H2 & H3).
  { apply Hcd. }
  { intros p Hp. destruct (Hch _ _ Hp) as (e & He & _). by exists e. }
  pose proof (put_lookup_absent k a1 a2 c Hinv) as Habs. cbn zeta in Habs.
  pose proof (put_lookup_shrink k a1 a2 (chain c (word k 3 mod nbuckets c)) c) as Hs.
  set (lk := put_lookup k a1 a2 _ c) in *. clearbody lk.
  pose proof (index_ok_shrink _ _ (held_inv_chains _ _ _ H1) Hok Hs) as Hok1.
  rewrite <- H3. apply put_found_index; try done; [apply put_size_nonneg|].
  destruct Hs as (-> & _). done.
Qed.

Lemma get_shrink fastlz has_libz zlib has_lzma lzma block k a1 a2 c :
  index_shrink c (get fastlz has_libz zlib has_lzma lzma block k a1 a2 c).2.
Proof.
  unfold get. destruct (max_bytes c =? 0); [apply index_shrink_refl|].
  destruct (List.find _ _) as [p|]; [|apply index_shrink_refl].
  pose proof (index_shrink_trans _ _ _ (move_compressed_shrink p c)
                (requeue_shrink p (move_compressed p c))) as H2.
  set (c2 := requeue p (move_compressed p c)) in *. clearbody c2.
  destruct (negb (flag_lru (deref c2 p))); [|done].
  set (c3 := upd p _ c2).
  assert (H3 : index_shrink c c3).
  { apply (index_shrink_trans c c2); [done|]. subst c3. repeat shrink_step. }
  clearbody c3.
  destruct (negb (flag_compressed (deref c3 p) =? 0)); [|done].
  destruct (decompress _ _ _ _ _ _) as [b|]; cbn [snd].
  - destruct (negb (flag_copy (deref c3 p))); [|done].
    apply (index_shrink_trans c c3); [done|]. repeat shrink_step.
  - apply (index_shrink_trans c c3); [done|apply destroy_shrink].
Qed.

Lemma fixup_shrink k o1 o2 n1 n2 c : index_shrink c (fixup k o1 o2 n1 n2 c).2.
Proof.
  unfold fixup. destruct (max_bytes c =? 0); [apply index_shrink_refl|].
  destruct (List.find _ _) as [p|]; [|apply index_shrink_refl]. cbn [snd].
  repeat shrink_step.
Qed.

Lemma compress_commit_shrink ctype p l b failed c :
  index_shrink c (compress_commit ctype p l b failed c).
Proof.
  unfold compress_commit. destruct failed; [repeat shrink_step|].
  set (c1 := if exceeds _ _ _ then _ else c).
  assert (H1 : index_shrink c c1).
  { subst c1. destruct (exceeds _ _ _); repeat shrink_step. }
  clearbody c1.
  destruct (exceeds _ _ _); [apply (index_shrink_trans c c1); [done|repeat shrink_step]|].
  destruct (l <? len (deref c1 p)); (apply (index_shrink_trans c c1); [done|]).
  - do 2 shrink_step.
    apply (index_shrink_trans c1
             (upd p (set_compressed_len l) (upd p (set_flag_compressed (ctype mod 8)) c1)));
      [repeat shrink_step|by apply index_shrink_core].
  - do 2 shrink_step.
    apply (index_shrink_trans c1 (upd p (set_flag_compressed 0) c1));
      [repeat shrink_step|by apply index_shrink_core].
Qed.

Lemma init_index abytes : index_ok (init abytes new_RamCacheCLFUS).
Proof.
  unfold init. destruct (max_bytes _ =? 0) eqn:Hz.
  - apply Z.eqb_eq in Hz. split_and!.
    + intros i j p q Hp. unfold chain in Hp. cbn in Hp. rewrite lookup_empty in Hp.
      by apply elem_of_nil in Hp.
    + intros _ p e He. cbn in He. by rewrite lookup_empty in He.
    + split; [done|]. intros Hne. done.
  - apply Z.eqb_neq in Hz. apply resize_hashtable_index.
    + assert (H0 : cache_inv (set_max_bytes abytes new_RamCacheCLFUS)).
      { unfold cache_inv, held_inv, store_inv. cbn.
        split_and!; try done; try constructor.
        - by intros p ?%elem_of_nil.
        - by intros p ?%elem_of_nil.
        - intros i p. rewrite lookup_empty. by intros ?%elem_of_nil. }
      exact H0.
    + intros i j p q Hp. unfold chain in Hp. cbn in Hp. rewrite lookup_empty in Hp.
      by apply elem_of_nil in Hp.
    + done.
    + intros _ p e He. cbn in He. by rewrite lookup_empty in He.
Qed.

(** The index in every reachable state. *)
Lemma reachable_index c : reachable c → index_ok c.
Proof.
  induction 1 as [abytes|k d l copy a1 a2 c Hr IH Hl|fl hz zl hl lz bl k a1 a2 c Hr IH
                 |k o1 o2 n1 n2 c Hr IH|ctype p l b failed c Hr IH Hl].
  - apply init_index.
  - apply put_index; [done|by apply reachable_inv|done].
  - eapply index_ok_shrink; [|exact IH|apply get_shrink].
    eapply held_inv_chains. apply reachable_inv. by apply reachable_get.
  - eapply index_ok_shrink; [|exact IH|apply fixup_shrink].
    eapply held_inv_chains. apply reachable_inv. by apply reachable_fixup.
  - eapply index_ok_shrink; [|exact IH|apply compress_commit_shrink].
    eapply held_inv_chains. apply reachable_inv. by apply reachable_compress_commit.
Qed.

(** ** The counters against the queues *)

Lemma fp_sum_cons h v l :
  fp_sum h (v :: l) = footprint (size (default proto_entry (h !! v))) + fp_sum h l.
Proof. done. Qed.

Lemma fp_sum_app h l1 l2 : fp_sum h (l1 ++ l2) = fp_sum h l1 + fp_sum h l2.
Proof.
  induction l1 as [|v l1 IH]; [done|]. rewrite <- app_comm_cons, !fp_sum_cons, IH. lia.
Qed.

Lemma fp_sum_ext h h' l :
  (∀ x, x ∈ l → size (default proto_entry (h' !! x)) = size (default proto_entry (h !! x))) →
  fp_sum h' l = fp_sum h l.
Proof.
  induction l as [|v l IH]; intros H; [done|].
  rewrite !fp_sum_cons, H by left. rewrite IH; [done|]. intros x Hx. apply H. by right.
Qed.

Lemma fp_sum_perm h l l' : l ≡ₚ l' → fp_sum h l = fp_sum h l'.
Proof.
  induction 1 as [|x l l' _ IH|x y l|l1 l2 l3 _ IH1 _ IH2]; rewrite ?fp_sum_cons;
    [done|by rewrite IH|lia|congruence].
Qed.


Lemma sum_fp_fp_sum c l : sum_fp c l = fp_sum (heap c) l.
Proof. done. Qed.

Lemma footprint_small s : small s → footprint s = s + ENTRY_OVERHEAD.
Proof. intros [? ?]. unfold footprint, u32. apply Z.mod_small. unfold ENTRY_OVERHEAD in *. lia. Qed.

Lemma check_accounting_walk c : ∀ l x xsize,
  foldl (λ '(x, xsize) y, (x + 1, xsize + footprint (size (deref c y)))) (x, xsize) l
  = (x + Z.of_nat (length l), xsize + fp_sum (heap c) l).
Proof.
  induction l as [|v l IH]; intros x xsize; cbn [foldl length].
  - f_equal; [lia|]. change (fp_sum (heap c) []) with 0. lia.
  - rewrite IH, fp_sum_cons. unfold deref. f_equal; lia.
Qed.

Lemma check_accounting_count (l : list nat) : ∀ h,
  foldl (λ h _, h + 1) h l = h + Z.of_nat (length l).
Proof. induction l as [|v l IH]; intros h; cbn [foldl length]; [lia|]. rewrite IH. lia. Qed.

Lemma check_accounting_true c :
  check_accounting c = true
  ↔ objects c = Z.of_nat (length (lru0 c)) ∧ bytes c = fp_sum (heap c) (lru0 c)
    ∧ history c = Z.of_nat (length (lru1 c)).
Proof.
  unfold check_accounting. rewrite check_accounting_walk, check_accounting_count.
  rewrite !andb_true_iff, !Z.eqb_eq. lia.
Qed.

Lemma accounted_check c : accounted c → check_accounting c = true.
Proof.
  intros (Ho & Hb & Hh & _). rewrite !app_nil_r in *. by apply check_accounting_true.
Qed.

Lemma acct_perm A B A' B' L h o b hi :
  A ≡ₚ A' → B ≡ₚ B' → acct_inv A B L h o b hi → acct_inv A' B' L h o b hi.
Proof.
  intros HA HB (Ho & Hb & Hh & Hq). split_and!; [by rewrite <- HA|done|by rewrite <- HB|].
  intros p e He. specialize (Hq p e He). destruct (flag_lru e); [by rewrite <- HB|by rewrite <- HA].
Qed.

(** An assignment that keeps the size and the [lru] flag. *)
Lemma acct_alter A B L h o b hi p f :
  (∀ e, size (f e) = size e ∧ flag_lru (f e) = flag_lru e) →
  acct_inv A B L h o b hi → acct_inv A B L (alter f p h) o b hi.
Proof.
  intros Hf (Ho & Hb & Hh & Hq). split_and!; try done.
  - rewrite Hb. symmetry. apply fp_sum_ext. intros x _. rewrite lookup_alter.
    case_decide; [subst|done]. destruct (h !! x) as [e|]; [cbn; apply Hf|done].
  - intros q e' He'. rewrite lookup_alter in He'. case_decide; [subst|by apply Hq].
    destruct (h !! q) as [e|] eqn:He; [|done]. injection He' as <-.
    destruct (Hf e) as [_ ->]. by apply Hq.
Qed.

(** [lru[0].enqueue(v)] with [bytes += v->size + ENTRY_OVERHEAD]. *)
Lemma acct_enqueue A B L h o b hi v :
  acct_inv A B L h o b hi →
  acct_inv A B (L ++ [v]) h o (b + footprint (size (default proto_entry (h !! v)))) hi.
Proof.
  intros (Ho & Hb & Hh & Hq). split_and!; try done.
  rewrite fp_sum_app, fp_sum_cons. change (fp_sum h []) with 0. lia.
Qed.

(** [lru[0].dequeue()] with [bytes -= v->size + ENTRY_OVERHEAD]. *)
Lemma acct_dequeue A B L h o b hi v :
  acct_inv A B (v :: L) h o b hi →
  acct_inv A B L h o (b - footprint (size (default proto_entry (h !! v)))) hi.
Proof. intros (Ho & Hb & Hh & Hq). split_and!; try done. rewrite fp_sum_cons in Hb. lia. Qed.

(** [victimize]: a counted entry that is off [lru[0]] becomes a ghost. *)
Lemma acct_victimize A A' B L h o b hi v f :
  (∀ e, size (f e) = size e ∧ flag_lru (f e) = true) →
  A ≡ₚ v :: A' →
  acct_inv A B L h o b hi →
  acct_inv A' (B ++ [v]) L (alter f v h) (o - 1) b (hi + 1).
Proof.
  intros Hf HA (Ho & Hb & Hh & Hq). split_and!.
  - rewrite Ho, HA. cbn [length]. lia.
  - rewrite Hb. symmetry. apply fp_sum_ext. intros x _. rewrite lookup_alter.
    case_decide; [subst|done]. destruct (h !! x) as [e|]; [cbn; apply Hf|done].
  - rewrite Hh, length_app. cbn [length]. lia.
  - intros q e' He'. rewrite lookup_alter in He'. case_decide; [subst|].
    + destruct (h !! q) as [e|] eqn:He; [|done]. injection He' as <-.
      destruct (Hf e) as [_ ->]. apply elem_of_app. right. by left.
    + specialize (Hq q e' He'). destruct (flag_lru e'); [apply elem_of_app; by left|].
      rewrite HA in Hq. by apply elem_of_cons in Hq as [?|?].
Qed.

(** Freeing a ghost that is off [lru[0]], with [history--]. *)
Lemma acct_free_ghost A B B' L h o b hi p :
  B ≡ₚ p :: B' → p ∉ A → p ∉ B' → p ∉ L →
  acct_inv A B L h o b hi →
  acct_inv A B' L (delete p h) o b (hi - 1).
Proof.
  intros HB HpA HpB HpL (Ho & Hb & Hh & Hq). split_and!; try done.
  - rewrite Hb. symmetry. apply fp_sum_ext. intros x Hx.
    rewrite lookup_delete_ne; [done|]. by intros ->.
  - rewrite Hh, HB. cbn [length]. lia.
  - intros q e He. apply lookup_delete_Some in He as [Hne He]. specialize (Hq q e He).
    destruct (flag_lru e); [|done]. rewrite HB in Hq. by apply elem_of_cons in Hq as [?|?].
Qed.

(** Freeing an entry of [lru[0]], with [objects--] and
    [bytes -= size + ENTRY_OVERHEAD]. *)
Lemma acct_free_resident A A' B L L' h o b hi p :
  A ≡ₚ p :: A' → L ≡ₚ p :: L' → p ∉ A' → p ∉ B → p ∉ L' →
  acct_inv A B L h o b hi →
  acct_inv A' B L' (delete p h) (o - 1)
           (b - footprint (size (default proto_entry (h !! p)))) hi.
Proof.
  intros HA HL HpA HpB HpL (Ho & Hb & Hh & Hq). split_and!; try done.
  - rewrite Ho, HA. cbn [length]. lia.
  - rewrite Hb, (fp_sum_perm h _ _ HL), fp_sum_cons.
    rewrite (fp_sum_ext h (delete p h) L'); [lia|].
    intros x Hx. rewrite lookup_delete_ne; [done|]. by intros ->.
  - intros q e He. apply lookup_delete_Some in He as [Hne He]. specialize (Hq q e He).
    destruct (flag_lru e); [done|]. rewrite HA in Hq. by apply elem_of_cons in Hq as [?|?].
Qed.

(** The end of [put]: the entry [p], not counted so far, goes on [lru[0]]. *)
Lemma acct_install A B L h h' o b hi p e' :
  (∀ q, q ≠ p → h' !! q = h !! q) → h' !! p = Some e' → flag_lru e' = false →
  p ∉ L →
  (∀ q e, h !! q = Some e → q ≠ p → if flag_lru e then q ∈ B else q ∈ A) →
  o = Z.of_nat (length A) → b = fp_sum h L → hi = Z.of_nat (length B) →
  acct_inv (A ++ [p]) B (L ++ [p]) h' (o + 1) (b + footprint (size e')) hi.
Proof.
  intros Hother Hp Hfl HpL Hq Ho Hb Hh. split_and!; try done.
  - rewrite length_app. cbn [length]. lia.
  - rewrite fp_sum_app, fp_sum_cons, Hp. cbn. change (fp_sum h' []) with 0.
    rewrite (fp_sum_ext h h' L); [lia|].
    intros x Hx. rewrite Hother; [done|]. by intros ->.
  - intros q e He. destruct (decide (q = p)) as [->|Hne].
    + rewrite Hp in He. injection He as <-. rewrite Hfl. apply elem_of_app. right. by left.
    + rewrite Hother in He by done. specialize (Hq q e He Hne).
      destruct (flag_lru e); [done|]. apply elem_of_app. by left.
Qed.

(** [Lhistory]: a fresh ghost goes on [lru[1]], with [history++]. *)
Lemma acct_alloc_ghost A B L h o b hi p e0 :
  h !! p = None → flag_lru e0 = true → p ∉ L →
  acct_inv A B L h o b hi →
  acct_inv A (B ++ [p]) L (<[p := e0]> h) o b (hi + 1).
Proof.
  intros Hfresh Hfl HpL (Ho & Hb & Hh & Hq). split_and!; try done.
  - rewrite Hb. symmetry. apply fp_sum_ext. intros x Hx.
    rewrite lookup_insert_ne; [done|]. by intros ->.
  - rewrite Hh, length_app. cbn [length]. lia.
  - intros q e He. apply lookup_insert_Some in He as [[<- <-]|[Hne He]].
    + rewrite Hfl. apply elem_of_app. right. by left.
    + specialize (Hq q e He). destruct (flag_lru e); [apply elem_of_app; by left|done].
Qed.

(** A new size for the entry [p] of [lru[0]], with [bytes += delta]. *)
Lemma acct_resize A B L h o b hi p e f :
  NoDup L → p ∈ L → h !! p = Some e → flag_lru (f e) = flag_lru e →
  small (size e) → small (size (f e)) →
  acct_inv A B L h o b hi →
  acct_inv A B L (alter f p h) o (b + (size (f e) - size e)) hi.
Proof.
  intros Hnd HpL He Hfl Hs Hs' (Ho & Hb & Hh & Hq). split_and!; try done.
  - apply list_elem_of_split in HpL as (l1 & l2 & ->).
    assert (Hperm : l1 ++ p :: l2 ≡ₚ p :: (l1 ++ l2)) by (by rewrite Permutation_middle).
    rewrite Hperm in Hnd. apply NoDup_cons in Hnd as [Hp Hnd].
    rewrite Hb, !(fp_sum_perm _ _ _ Hperm), !fp_sum_cons, lookup_alter_eq, He. cbn.
    rewrite (fp_sum_ext h (alter f p h) (l1 ++ l2)).
    + rewrite !footprint_small by done. lia.
    + intros x Hx. rewrite lookup_alter_ne; [done|]. by intros ->.
  - intros q e' He'. rewrite lookup_alter in He'. case_decide; [subst|by apply Hq].
    rewrite He in He'. injection He' as <-. rewrite Hfl. by apply Hq.
Qed.

Lemma small_sizes_upd p f c :
  (∀ e, small_entry e → small_entry (f e)) → small_sizes c → small_sizes (upd p f c).
Proof.
  intros Hf Hs x e' He'. rewrite heap_upd in He'. case_decide; [subst|by apply (Hs x)].
  destruct (heap c !! x) as [e|] eqn:He; [|done]. injection He' as <-.
  apply Hf. by apply (Hs x).
Qed.

Lemma small_sizes_core c c' : heap c' = heap c → small_sizes c → small_sizes c'.
Proof. unfold small_sizes. by intros ->. Qed.

Lemma small_sizes_delete p c c' :
  heap c' = delete p (heap c) → small_sizes c → small_sizes c'.
Proof.
  intros Hh Hs x e He. rewrite Hh in He. apply lookup_delete_Some in He as [_ He].
  by apply (Hs x).
Qed.

Lemma small_sizes_insert p e0 c c' :
  heap c' = <[p := e0]> (heap c) → small_entry e0 → small_sizes c → small_sizes c'.
Proof.
  intros Hh H0 Hs x e He. rewrite Hh in He.
  apply lookup_insert_Some in He as [[<- <-]|[_ He]]; [done|by apply (Hs x)].
Qed.

Ltac small_step :=
  lazymatch goal with
  | |- small_sizes (upd _ _ ?c) => apply small_sizes_upd; [by intros []|]
  | |- small_sizes (?s ?v ?c) => change (small_sizes c)
  end.

Lemma held_accounted_upd vs g c p f :
  (∀ e, size (f e) = size e ∧ flag_lru (f e) = flag_lru e) →
  held_accounted vs g c → held_accounted vs g (upd p f c).
Proof. intros Hf H. unfold held_accounted. proj_simpl. by apply acct_alter. Qed.

Lemma books_upd vs g c p f :
  (∀ e, size (f e) = size e ∧ flag_lru (f e) = flag_lru e) →
  (∀ e, small_entry e → small_entry (f e)) →
  books vs g c → books vs g (upd p f c).
Proof.
  intros Hf Hs [Ha Hsm]. split; [by apply held_accounted_upd|by apply small_sizes_upd].
Qed.

Lemma hits_keeps_books v e :
  size (set_hits v e) = size e ∧ flag_lru (set_hits v e) = flag_lru e.
Proof. by destruct e. Qed.

Lemma hits_keeps_small v e : small_entry e → small_entry (set_hits v e).
Proof. by destruct e. Qed.

Lemma tick_free_books vs g p c :
  store_inv (lru0 c ++ vs) (p :: lru1 c ++ g) (heap c) (bucket c) (nbuckets c) (next_ptr c) →
  acct_inv (lru0 c ++ vs) (p :: lru1 c ++ g) (lru0 c) (heap c)
           (objects c) (bytes c) (history c) →
  small_sizes c →
  books vs g (tick_free p c).
Proof.
  intros (Hnd & _) Hacct Hsm.
  assert (HpA : p ∉ lru0 c ++ vs).
  { apply NoDup_app in Hnd as (_ & Hd & _). intros Hp. apply (Hd p Hp). by left. }
  assert (HpB : p ∉ lru1 c ++ g).
  { apply NoDup_app in Hnd as (_ & _ & Hd). by apply NoDup_cons in Hd as [? _]. }
  destruct (tick_free_frame p c) as (Hl0 & Hl1 & Hby & Ho & _ & _ & _ & _ & _ & _ & _ & Hhi & Hh).
  split; [|by eapply small_sizes_delete].
  unfold held_accounted. rewrite Hl0, Hl1, Hby, Ho, Hhi, Hh.
  eapply acct_free_ghost; [done|done|done| |done].
  intros Hp. apply HpA. apply elem_of_app. by left.
Qed.

Lemma tick_books vs g c :
  held_inv vs g c → books vs g c → books vs g (tick c).
Proof.
  intros Hinv [Hacct Hsm]. unfold tick. destruct (lru1 c) as [|p q] eqn:Hl1; [done|].
  set (c1 := upd p _ (set_lru1 q c)).
  assert (H1 : store_inv (lru0 c1 ++ vs) (p :: lru1 c1 ++ g) (heap c1) (bucket c1)
                 (nbuckets c1) (next_ptr c1)).
  { subst c1. proj_simpl. apply store_inv_alter; [intros e; apply hits_keeps_entry|].
    unfold held_inv in Hinv. by rewrite Hl1 in Hinv. }
  assert (A1 : acct_inv (lru0 c1 ++ vs) (p :: lru1 c1 ++ g) (lru0 c1) (heap c1)
                 (objects c1) (bytes c1) (history c1)).
  { subst c1. proj_simpl. apply acct_alter; [by intros []|].
    unfold held_accounted in Hacct. by rewrite Hl1 in Hacct. }
  assert (S1 : small_sizes c1).
  { subst c1. apply small_sizes_upd; [by intros []|done]. }
  clearbody c1. destruct (negb _).
  - set (c2 := upd p _ c1).
    assert (H2 : held_inv vs g (set_lru1 (que_enqueue p (lru1 c2)) c2)).
    { subst c2. unfold held_inv. proj_simpl.
      apply store_inv_alter; [intros e; apply hits_keeps_entry|].
      eapply store_inv_perm; [done| |exact H1].
      unfold que_enqueue. rewrite <- (assoc_L (++)). cbn.
      by rewrite <- Permutation_middle. }
    assert (A2 : books vs g (set_lru1 (que_enqueue p (lru1 c2)) c2)).
    { subst c2. split.
      - unfold held_accounted. proj_simpl.
        apply acct_alter; [by intros []|].
        eapply acct_perm; [done| |exact A1].
        unfold que_enqueue. rewrite <- (assoc_L (++)). cbn.
        by rewrite <- Permutation_middle.
      - change (small_sizes (upd p (λ e, set_hits (REQUEUE_HITS (hits e)) e) c1)).
        apply small_sizes_upd; [by intros []|done]. }
    clearbody c2. set (c3 := set_lru1 _ c2) in *. clearbody c3.
    destruct (history c3 <=? _); [done|].
    destruct (lru1 c3) as [|p' q'] eqn:Hl3; [done|].
    destruct A2 as [A2 S2].
    apply tick_free_books; proj_simpl.
    + unfold held_inv in H2. by rewrite Hl3 in H2.
    + unfold held_accounted in A2. by rewrite Hl3 in A2.
    + done.
  - by apply tick_free_books.
Qed.

Lemma take_victim_books vs g v q' c :
  lru0 c = v :: q' → held_inv vs g c → books vs g c →
  books (que_enqueue v vs) g (take_victim v q' c).
Proof.
  intros Hl0 Hinv [Hacct Hsm]. unfold take_victim.
  set (c1 := set_bytes _ (set_lru0 q' c)).
  set (c2 := if decide (compressed c1 = Some v) then _ else _).
  assert (Hcore : lru0 c2 = q' ∧ lru1 c2 = lru1 c ∧ heap c2 = heap c ∧ bucket c2 = bucket c
                  ∧ nbuckets c2 = nbuckets c ∧ next_ptr c2 = next_ptr c
                  ∧ objects c2 = objects c ∧ history c2 = history c
                  ∧ bytes c2 = bytes c - footprint (size (deref c v))).
  { subst c2 c1. by case_decide. }
  clearbody c2. destruct Hcore as (E0 & E1 & Eh & Eb & En & Ex & Eo & Ehi & Eby).
  assert (H2 : held_inv (que_enqueue v vs) g c2).
  { unfold held_inv in *. rewrite E0, E1, Eh, Eb, En, Ex. rewrite Hl0 in Hinv.
    eapply store_inv_perm; [|done|exact Hinv].
    unfold que_enqueue. cbn. by rewrite (assoc_L (++)), <- Permutation_cons_append. }
  assert (A2 : books (que_enqueue v vs) g c2).
  { split; [|by apply (small_sizes_core c)].
    unfold held_accounted in *. rewrite E0, E1, Eh, Eo, Ehi, Eby. rewrite Hl0 in Hacct.
    apply acct_dequeue. eapply acct_perm; [|done|exact Hacct].
    unfold que_enqueue. cbn. by rewrite (assoc_L (++)), <- Permutation_cons_append. }
  apply tick_books.
  - apply held_inv_upd; [intros e; apply hits_keeps_entry|done].
  - apply books_upd; [by intros []|by intros []|done].
Qed.

Lemma requeue_victim_books vs g v c :
  books (v :: vs) g c → books vs g (requeue_victim c v).
Proof.
  intros [Hacct Hsm]. unfold requeue_victim. split.
  - unfold held_accounted in *. proj_simpl.
    apply acct_alter; [by intros []|].
    unfold que_enqueue. rewrite <- (assoc_L (++)). cbn. by apply acct_enqueue.
  - repeat small_step. done.
Qed.

Lemma requeue_victims_books g ws : ∀ vs c,
  books (vs ++ ws) g c → books ws g (requeue_victims c vs).
Proof.
  induction vs as [|v vs IH]; intros c H; [done|].
  cbn [requeue_victims foldl]. apply IH. by apply requeue_victim_books.
Qed.

Lemma victimize_books vs g v c :
  books (v :: vs) g c → books vs g (victimize v c).
Proof.
  intros [Hacct Hsm]. unfold victimize. split.
  - unfold held_accounted in *. proj_simpl.
    eapply acct_perm; [done| |].
    2: { eapply (acct_victimize _ (lru0 c ++ vs)); [by intros []| |exact Hacct].
         by rewrite <- Permutation_middle. }
    unfold que_enqueue. rewrite <- !(assoc_L (++)). apply Permutation_app_head.
    apply Permutation_app_comm.
  - repeat small_step. done.
Qed.

Lemma insert_victim_books sz vs g v c :
  books (v :: vs) g c → books vs g (insert_victim sz c v).
Proof.
  intros H. unfold insert_victim. destruct (_ <=? _); [|by apply victimize_books].
  by apply (requeue_victim_books vs g v c).
Qed.

Lemma insert_victims_books sz g ws : ∀ vs c,
  books (vs ++ ws) g c → books ws g (foldl (insert_victim sz) c vs).
Proof.
  induction vs as [|v vs IH]; intros c H; [done|].
  cbn [foldl]. apply IH. by apply insert_victim_books.
Qed.

Lemma enqueue_ghost_books vs p c :
  books vs [p] c → books vs [] (set_lru1 (que_enqueue p (lru1 c)) c).
Proof.
  intros [Hacct Hsm]. split; [|done].
  unfold held_accounted in *. proj_simpl. unfold que_enqueue. by rewrite app_nil_r.
Qed.

(** The victim selection loop keeps the books. *)
Lemma victim_loop_books e sz q : ∀ c victims,
  lru0 c = q → held_inv victims (held_ghost e) c → books victims (held_ghost e) c →
  match victim_loop q e sz c victims with
  | Linsert c' vs => books vs (held_ghost e) c' ∧ bytes c' + sz ≤ max_bytes c'
  | Lhistory c' vs => books vs (held_ghost e) c'
  | Lreturn0 c' => books [] [] c'
  end.
Proof.
  induction q as [|v q' IH]; intros c victims Hq Hinv Hb; cbn [victim_loop].
  - destruct (bytes c + sz <=? max_bytes c) eqn:Hfit; [by apply Z.leb_le in Hfit|].
    apply (requeue_victims_books [] [] victims). rewrite app_nil_r.
    destruct e as [p|]; [by apply enqueue_ghost_books|done].
  - pose proof (take_victim_inv _ _ _ _ _ Hq Hinv) as H5.
    pose proof (take_victim_books _ _ _ _ _ Hq Hinv Hb) as B5.
    destruct (take_victim_spec v q' c) as (Tl0 & _).
    set (c5 := take_victim v q' c) in *. clearbody c5.
    destruct e as [p|]; [|done].
    destruct (_ && _).
    + apply enqueue_ghost_books.
      apply (requeue_victims_books [p] [] (que_enqueue v victims)). by rewrite app_nil_r.
    + destruct (bytes c5 + sz <=? max_bytes c5) eqn:Hfit; [by apply Z.leb_le in Hfit|].
      by apply IH.
Qed.

Lemma que_remove_split p (q : list nat) : NoDup q → p ∈ q → q ≡ₚ p :: que_remove p q.
Proof.
  intros Hnd Hp. apply list_elem_of_split in Hp as (l1 & l2 & ->).
  rewrite <- Permutation_middle in Hnd. apply NoDup_cons in Hnd as [Hnp Hnd].
  rewrite que_remove_app. unfold que_remove at 2.
  rewrite (filter_cons_False (λ x, x ≠ p)) by naive_solver.
  fold (que_remove p l2). rewrite <- que_remove_app, que_remove_notin by done.
  by rewrite <- Permutation_middle.
Qed.

Lemma small_alter (h : gmap nat RamCacheCLFUSEntry) p f :
  (∀ e, small_entry e → small_entry (f e)) →
  map_Forall (λ _ e, small (size e) ∧ small (len e) ∧ small (compressed_len e)) h →
  map_Forall (λ _ e, small (size e) ∧ small (len e) ∧ small (compressed_len e)) (alter f p h).
Proof.
  intros Hf Hs x e' He'. rewrite lookup_alter in He'. case_decide; [subst|by apply (Hs x)].
  destruct (h !! x) as [e|] eqn:He; [|done]. injection He' as <-.
  apply Hf. by apply (Hs x).
Qed.

Lemma small_insert (h : gmap nat RamCacheCLFUSEntry) p e0 :
  small_entry e0 →
  map_Forall (λ _ e, small (size e) ∧ small (len e) ∧ small (compressed_len e)) h →
  map_Forall (λ _ e, small (size e) ∧ small (len e) ∧ small (compressed_len e)) (<[p := e0]> h).
Proof.
  intros H0 Hs x e He.
  apply lookup_insert_Some in He as [[<- <-]|[_ He]]; [done|by apply (Hs x)].
Qed.

Ltac small_fun := by (intros [] (? & ? & ?); split_and!).

Lemma small_0 : small 0.
Proof. unfold small, ENTRY_OVERHEAD. lia. Qed.

Lemma put_install_books d l copy sz p c :
  installable p c → small sz → small l → books [] [] (put_install d l copy sz p c).
Proof.
  intros ([e He] & Hp0 & Ho & Hb & Hh & Hq & Hsm) Hsz Hl. split.
  - unfold held_accounted, put_install. proj_simpl. rewrite !app_nil_r.
    eapply (acct_install (lru0 c) (lru1 c) (lru0 c) (heap c) _ (objects c) (bytes c)
              (history c) p
              (set_len l (set_size sz (set_flag_copy copy
                 (set_data (Some (put_buffer d l copy)) (clear_flags e))))));
      try done.
    + intros q Hne. by rewrite !lookup_alter_ne.
    + by rewrite !lookup_alter_eq, He.
  - unfold small_sizes, put_install. proj_simpl.
    repeat (apply small_alter; [small_fun|]). done.
Qed.

Lemma put_insert_books k d l copy a1 a2 i sz e c vs :
  small sz → small l → held_inv vs (held_ghost e) c → books vs (held_ghost e) c →
  books [] [] (put_insert k d l copy a1 a2 i sz e c vs).2.
Proof.
  intros Hsz Hl Hinv Hb. unfold put_insert.
  pose proof (insert_victims_inv sz (held_ghost e) [] vs c) as H1.
  rewrite app_nil_r in H1. specialize (H1 Hinv).
  pose proof (insert_victims_books sz (held_ghost e) [] vs c) as B1.
  rewrite app_nil_r in B1. specialize (B1 Hb).
  set (c1 := foldl _ c vs) in *. clearbody c1.
  destruct B1 as [(Ho & Hby & Hh & Hq) Hsm]. rewrite !app_nil_r in *.
  destruct e as [p|]; cbn [snd held_ghost] in *.
  - pose proof H1 as (Hnd & _ & Hgh & _). rewrite app_nil_r in Hnd.
    destruct (Hgh p) as (x & Hx & _); [set_solver|].
    assert (Hp0 : p ∉ lru0 c1).
    { apply NoDup_app in Hnd as (_ & Hd & _). intros Hp. apply (Hd p Hp). set_solver. }
    assert (Hp1 : p ∉ lru1 c1).
    { apply NoDup_app in Hnd as (_ & _ & Hd). apply NoDup_app in Hd as (_ & Hd & _).
      intros Hp. apply (Hd p Hp). set_solver. }
    apply put_install_books; [|done|done].
    unfold installable. proj_simpl. split_and!; try done.
    + rewrite Hh, length_app. cbn [length]. lia.
    + intros q y Hy Hne. specialize (Hq q y Hy). destruct (flag_lru y); [|done].
      apply elem_of_app in Hq as [?|Hq%list_elem_of_singleton]; done.
  - rewrite !app_nil_r in *. destruct (cache_inv_fresh c1 H1) as (Hfresh & Hn0 & Hn1).
    destruct (put_new_entry_spec k a1 a2 i c1)
      as (Np & _ & Nh & Nby & No & Nhi & _ & Nl0 & Nl1 & _).
    destruct (put_new_entry _ _ _ _ c1) as [p cn]. cbn [fst snd] in *. subst p.
    apply put_install_books; [|done|done].
    unfold installable. rewrite Nh, Nby, No, Nhi, Nl0, Nl1. split_and!; try done.
    + by rewrite lookup_insert_eq.
    + rewrite Hby. symmetry. apply fp_sum_ext. intros x Hx.
      rewrite lookup_insert_ne; [done|]. by intros <-.
    + intros q y Hy Hne. rewrite lookup_insert_ne in Hy by done. by apply Hq.
    + eapply small_sizes_insert; [exact Nh| |done].
      split_and!; apply small_0.
Qed.

Lemma put_history_books k d a1 a2 i c vs :
  small (u32 (block_size d)) → held_inv vs [] c → books vs [] c →
  books [] [] (put_history k d a1 a2 i c vs).2.
Proof.
  intros Hbs Hinv Hb. unfold put_history. cbn [snd].
  pose proof (requeue_victims_inv [] [] vs c) as H1. rewrite app_nil_r in H1.
  specialize (H1 Hinv).
  pose proof (requeue_victims_books [] [] vs c) as B1. rewrite app_nil_r in B1.
  specialize (B1 Hb).
  set (c1 := requeue_victims c vs) in *. clearbody c1.
  destruct (cache_inv_fresh c1 H1) as (Hfresh & Hn0 & Hn1).
  destruct B1 as [B1 Hsm].
  set (e0 := Entry k a1 a2 1 (u32 (block_size d)) 0 0 0 false false false None).
  split.
  - unfold held_accounted in *. unfold chain. proj_simpl. rewrite !app_nil_r in *.
    rewrite alter_insert_eq. by apply acct_alloc_ghost.
  - unfold small_sizes. proj_simpl. apply small_alter; [small_fun|].
    apply small_insert; [|done].
    split_and!; [done|apply small_0|apply small_0].
Qed.

Lemma destroy_books p e c :
  cache_inv c → books [] [] c → heap c !! p = Some e → books [] [] (destroy p c).
Proof.
  intros Hinv [Hacct Hsm] He. pose proof Hinv as (Hnd & Hres & Hgh & _).
  pose proof Hacct as (_ & _ & _ & Hq). specialize (Hq p e He).
  unfold held_accounted in Hacct. rewrite !app_nil_r in *.
  assert (Hd : deref c p = e) by (unfold deref; by rewrite He).
  unfold books, held_accounted. rewrite !app_nil_r.
  destruct (flag_lru e) eqn:Hfl.
  - destruct (destroy_ghost p c) as (Hh & -> & -> & -> & -> & -> & _); [by rewrite Hd|].
    split; [|by eapply small_sizes_delete]. rewrite Hh.
    apply NoDup_app in Hnd as (Hnd0 & Hdis & Hnd1).
    eapply acct_free_ghost; [by apply que_remove_split| |by intros [? _]%elem_of_que_remove| |done].
    + intros Hp. by apply (Hdis p Hp).
    + intros Hp. by apply (Hdis p Hp).
  - destruct (destroy_resident p c) as (Hh & -> & -> & -> & -> & -> & _); [by rewrite Hd|].
    split; [|by eapply small_sizes_delete]. rewrite Hh, Hd.
    apply NoDup_app in Hnd as (Hnd0 & Hdis & Hnd1).
    replace (size e) with (size (default proto_entry (heap c !! p))) by (by rewrite He).
    eapply acct_free_resident; [by apply que_remove_split|by apply que_remove_split
      |by intros [? _]%elem_of_que_remove| |by intros [? _]%elem_of_que_remove|done].
    by apply Hdis.
Qed.

Lemma put_lookup_books k a1 a2 : ∀ ch c,
  cache_inv c → books [] [] c → NoDup ch → (∀ p, p ∈ ch → is_Some (heap c !! p)) →
  books [] [] (put_lookup k a1 a2 ch c).2.
Proof.
  induction ch as [|p ch IH]; intros c Hinv Hb Hnd Hall; cbn [put_lookup]; [done|].
  apply NoDup_cons in Hnd as [Hp Hnd].
  assert (Hrest : ∀ q, q ∈ ch → is_Some (heap c !! q)) by (intros q ?; apply Hall; by right).
  destruct (decide (key (deref c p) = k)) as [Hk|Hk]; [|by apply IH].
  destruct (_ && _); [done|].
  destruct (Hall p) as [e He]; [by left|].
  destruct (destroy_frame p c) as (Dh & _).
  apply IH; [by eapply destroy_inv|by eapply destroy_books|done|].
  intros q Hq. rewrite Dh, lookup_delete_ne; [by apply Hrest|]. by intros ->.
Qed.

Lemma requeue_books p e c :
  cache_inv c → books [] [] c → heap c !! p = Some e → books [] [] (requeue p c).
Proof.
  intros Hinv [Hacct Hsm] He. pose proof Hinv as (Hnd & _).
  pose proof Hacct as (Ho & Hby & Hh & Hq). specialize (Hq p e He).
  rewrite !app_nil_r in *. apply NoDup_app in Hnd as (Hnd0 & _ & Hnd1).
  assert (Hd : deref c p = e) by (unfold deref; by rewrite He).
  split; [|by destruct (requeue_frame p c) as (Hh' & _); apply (small_sizes_core c)].
  unfold held_accounted, requeue. rewrite Hd.
  destruct (flag_lru e) eqn:Hfl; cbn [set_lru lru]; proj_simpl; rewrite !app_nil_r.
  - split_and!; try done.
    + rewrite Hh. unfold que_enqueue. rewrite length_app. cbn [length].
      rewrite (Permutation_length (que_remove_split p _ Hnd1 Hq)). cbn [length]. lia.
    + intros q y Hy. pose proof Hacct as (_ & _ & _ & Hq'). specialize (Hq' q y Hy).
      rewrite !app_nil_r in Hq'. destruct (flag_lru y); [|done].
      unfold que_enqueue. apply elem_of_app. destruct (decide (q = p)) as [->|Hne];
        [right; by left|left; by apply elem_of_que_remove].
  - assert (Hperm : que_enqueue p (que_remove p (lru0 c)) ≡ₚ lru0 c).
    { unfold que_enqueue. rewrite <- Permutation_cons_append. symmetry.
      by apply que_remove_split. }
    split_and!; try done.
    + by rewrite Hperm.
    + by rewrite (fp_sum_perm _ _ _ Hperm).
    + intros q y Hy. pose proof Hacct as (_ & _ & _ & Hq'). specialize (Hq' q y Hy).
      rewrite !app_nil_r in Hq'. destruct (flag_lru y); [done|]. by rewrite Hperm.
Qed.

Lemma requeue_resident p e c :
  cache_inv c → books [] [] c → heap c !! p = Some e → flag_lru e = false →
  p ∈ lru0 (requeue p c) ∧ NoDup (lru0 (requeue p c)).
Proof.
  intros Hinv Hb He Hfl.
  pose proof (requeue_inv p e c Hinv He) as (Hnd & _).
  rewrite !app_nil_r in Hnd. apply NoDup_app in Hnd as (Hnd0 & _).
  split; [|done]. unfold requeue. unfold deref. rewrite He. cbn. rewrite Hfl.
  cbn. unfold que_enqueue. apply elem_of_app. right. by left.
Qed.

Lemma put_hit_books d l copy sz p e c :
  small sz → cache_inv c → books [] [] c → heap c !! p = Some e → flag_lru e = false →
  books [] [] (put_hit d l copy sz p c).2.
Proof.
  intros Hsz Hinv Hb He Hfl. unfold put_hit. cbn [snd].
  destruct (move_compressed_frame p c) as (Hh & Hl0 & Hl1 & _ & Hby & Ho & Hhi & _).
  pose proof (move_compressed_inv p c Hinv) as H1.
  assert (B1 : books [] [] (move_compressed p c)).
  { destruct Hb as [Ha Hs]. split; [|by apply (small_sizes_core c)].
    unfold held_accounted. by rewrite Hl0, Hl1, Hh, Hby, Ho, Hhi. }
  set (c1 := move_compressed p c) in *. clearbody c1. rewrite <- Hh in He.
  pose proof (requeue_inv p e c1 H1 He) as H2.
  pose proof (requeue_books p e c1 H1 B1 He) as B2.
  destruct (requeue_resident p e c1 H1 B1 He Hfl) as [Hin Hnd].
  destruct (requeue_frame p c1) as (Hh2 & _).
  set (c2 := requeue p c1) in *. clearbody c2. rewrite <- Hh2 in He.
  assert (Hd : deref c2 p = e) by (unfold deref; by rewrite He).
  rewrite Hd. destruct B2 as [A2 S2]. pose proof (S2 _ _ He) as (Hse & _).
  split.
  - apply held_accounted_upd; [by intros []|]. apply held_accounted_upd; [by intros []|].
    unfold held_accounted in *. proj_simpl. rewrite !app_nil_r in *.
    pose proof (acct_resize _ _ _ _ _ _ _ p e
                  (λ e0, set_size sz (set_data (Some (put_buffer d l copy)) e0))
                  Hnd Hin He eq_refl Hse Hsz A2) as Hr.
    exact Hr.
  - unfold small_sizes. proj_simpl. repeat (apply small_alter; [small_fun|]). done.
Qed.

Lemma reachable_small_reachable c : reachable_small c → reachable c.
Proof.
  induction 1 as [abytes|k d l copy a1 a2 c Hr IH [Hl _] _|fl hz zl hl lz bl k a1 a2 c Hr IH
                 |k o1 o2 n1 n2 c Hr IH|ctype p l b failed c Hr IH _ [Hl _]].
  - apply reachable_init.
  - by apply reachable_put.
  - by apply reachable_get.
  - by apply reachable_fixup.
  - by apply reachable_compress_commit.
Qed.

Lemma put_select_books k d l copy a1 a2 i sz e c :
  small sz → small l → small (u32 (block_size d)) →
  held_inv [] (held_ghost e) c → books [] (held_ghost e) c →
  books [] [] (put_select k d l copy a1 a2 i sz e c).2.
Proof.
  intros Hsz Hl Hbs Hinv Hb. unfold put_select.
  pose proof (victim_loop_inv e sz (lru0 c) c [] eq_refl Hinv) as Hloop.
  pose proof (victim_loop_books e sz (lru0 c) c [] eq_refl Hinv Hb) as Bloop.
  pose proof (victim_loop_lru0 e sz (lru0 c) c [] eq_refl) as Hexit.
  destruct (victim_loop _ _ _ _ _) as [c' vs|c' vs|c'].
  - destruct Hloop as [H1 _]. destruct Bloop as [B1 _]. by apply put_insert_books.
  - destruct Hloop as [H1 _]. destruct Hexit as [-> _]. by apply put_history_books.
  - done.
Qed.

Lemma put_admission_books k d l copy a1 a2 i sz e c :
  small sz → small l → small (u32 (block_size d)) →
  held_inv [] (held_ghost e) c → books [] (held_ghost e) c →
  books [] [] (put_admission k d l copy a1 a2 i sz e c).2.
Proof.
  intros Hsz Hl Hbs Hinv Hb. unfold put_admission.
  destruct (_ && (bytes c + sz <=? max_bytes c)); [by apply put_insert_books|].
  destruct e as [p|]; [by apply put_select_books|].
  set (cs := set_seen _ c). destruct (_ && negb _); [done|].
  by apply (put_select_books k d l copy a1 a2 i sz None cs).
Qed.

Lemma put_found_books k d l copy a1 a2 i sz e c :
  small sz → small l → small (u32 (block_size d)) →
  cache_inv c → books [] [] c → (∀ p, e = Some p → is_Some (heap c !! p)) →
  books [] [] (put_found k d l copy a1 a2 i sz e c).2.
Proof.
  intros Hsz Hl Hbs Hinv Hb He. unfold put_found.
  destruct e as [p|]; [|by apply put_admission_books].
  destruct (He p eq_refl) as [e He']. clear He.
  set (bump := λ x, set_hits (u64 (hits x + 1)) x).
  set (c1 := upd p bump c).
  assert (Hd1 : deref c1 p = bump e) by (by apply deref_upd_eq).
  assert (Hinv1 : cache_inv c1) by (subst c1; apply held_inv_upd; [keeps_entry_tac|done]).
  assert (B1 : books [] [] c1) by (subst c1; apply books_upd; [by intros []|by intros []|done]).
  assert (He1 : heap c1 !! p = Some (bump e)).
  { subst c1. by rewrite heap_upd, decide_True, He'. }
  rewrite Hd1. change (flag_lru (bump e)) with (flag_lru e).
  destruct (flag_lru e) eqn:Hfl; cbn [negb].
  - set (c2 := set_lru1 _ c1).
    pose proof Hinv1 as (Hnd & Hres & _). rewrite !app_nil_r in *.
    destruct B1 as [A1 S1]. pose proof A1 as (_ & _ & _ & Hq).
    specialize (Hq p _ He1). change (flag_lru (bump e)) with (flag_lru e) in Hq.
    rewrite Hfl, app_nil_r in Hq.
    apply NoDup_app in Hnd as (Hnd0 & Hdis & Hnd1).
    assert (Hperm : que_remove p (lru1 c1) ++ [p] ≡ₚ lru1 c1).
    { rewrite <- Permutation_cons_append. symmetry. by apply que_remove_split. }
    apply (put_admission_books k d l copy a1 a2 i sz (Some p) c2); try done.
    + subst c2. unfold held_inv, held_ghost. proj_simpl.
      eapply store_inv_perm; [done| |exact Hinv1]. by rewrite app_nil_r, Hperm.
    + split; [|done]. subst c2. unfold held_accounted, held_ghost in *. proj_simpl.
      eapply acct_perm; [done| |exact A1]. by rewrite app_nil_r, Hperm.
  - apply (put_hit_books d l copy sz p (bump e)); done.
Qed.

Lemma put_size_small d l copy :
  small l → small (u32 (block_size d)) → small (put_size d l copy).
Proof.
  intros Hl Hbs. unfold put_size. destruct copy; [|done].
  destruct Hl as [? ?]. unfold u32. rewrite Z.mod_small; [done|].
  unfold ENTRY_OVERHEAD in *. lia.
Qed.

(** [put] keeps the books. *)
Lemma put_books k d l copy a1 a2 c :
  small l → small (u32 (block_size d)) → cache_inv c → books [] [] c →
  books [] [] (put k d l copy a1 a2 c).2.
Proof.
  intros Hl Hbs Hinv Hb. destruct (decide (max_bytes c = 0)) as [Hz|Hmax].
  { unfold put. apply Z.eqb_eq in Hz. by rewrite Hz. }
  rewrite put_unfold by done.
  pose proof Hinv as (_ & _ & _ & _ & Hch & Hcd).
  assert (Hall : ∀ p, p ∈ chain c (word k 3 mod nbuckets c) → is_Some (heap c !! p)).
  { intros p Hp. destruct (Hch _ _ Hp) as (e & He & _). by exists e. }
  destruct (put_lookup_inv k a1 a2 (chain c (word k 3 mod nbuckets c)) c Hinv (Hcd _) Hall)
    as (H1 & H2 & H3).
  pose proof (put_lookup_books k a1 a2 _ c Hinv Hb (Hcd _) Hall) as B1.
  set (lk := put_lookup k a1 a2 _ c) in *. clearbody lk.
  apply put_found_books; try done. by apply put_size_small.
Qed.

(** A new size for an entry of [lru[0]] with the matching change of [bytes]. *)
Lemma books_resize p e f c :
  NoDup (lru0 c) → p ∈ lru0 c → heap c !! p = Some e →
  flag_lru (f e) = flag_lru e → small (size (f e)) →
  (∀ x, small_entry x → small (size (f e)) → small_entry (f x) ∨ size (f x) = size (f e)
        ∧ len (f x) = len x ∧ compressed_len (f x) = compressed_len x) →
  books [] [] c →
  books [] [] (upd p f (set_bytes (bytes c + (size (f e) - size e)) c)).
Proof.
  intros Hnd Hin He Hfl Hs Hf [Hacct Hsm]. pose proof (Hsm _ _ He) as (Hse & Hle & Hce).
  split.
  - unfold held_accounted in *. proj_simpl. rewrite !app_nil_r in *.
    by apply acct_resize.
  - intros x y Hy. rewrite heap_upd in Hy. case_decide; [subst|by apply (Hsm x)].
    change (heap (set_bytes _ c)) with (heap c) in Hy.
    rewrite He in Hy. injection Hy as <-.
    destruct (Hf e) as [?|(E1 & E2 & E3)]; [by split_and!|done|done|].
    rewrite E2, E3. by split_and!.
Qed.

Lemma get_books fastlz has_libz zlib has_lzma lzma block k a1 a2 c :
  cache_inv c → books [] [] c →
  books [] [] (get fastlz has_libz zlib has_lzma lzma block k a1 a2 c).2.
Proof.
  intros Hinv Hb. unfold get. destruct (max_bytes c =? 0); [done|].
  destruct (List.find _ _) as [p|] eqn:Hfind; [|done].
  apply find_matches in Hfind as [Hin _].
  pose proof Hinv as (_ & _ & _ & Hok & Hch & _).
  destruct (Hch _ _ Hin) as (e & He & _).
  destruct (move_compressed_frame p c) as (Hh & Hl0 & Hl1 & _ & Hby & Ho & Hhi & _).
  pose proof (move_compressed_inv p c Hinv) as H1.
  assert (B1 : books [] [] (move_compressed p c)).
  { destruct Hb as [Ha Hs]. split; [|by apply (small_sizes_core c)].
    unfold held_accounted. by rewrite Hl0, Hl1, Hh, Hby, Ho, Hhi. }
  set (c1 := move_compressed p c) in *. clearbody c1. rewrite <- Hh in He.
  pose proof (requeue_inv p e c1 H1 He) as H2.
  pose proof (requeue_books p e c1 H1 B1 He) as B2.
  pose proof (requeue_resident p e c1 H1 B1 He) as Hres.
  destruct (requeue_frame p c1) as (Hh2 & _).
  set (c2 := requeue p c1) in *. clearbody c2. rewrite <- Hh2 in He.
  assert (Hd2 : deref c2 p = e) by (unfold deref; by rewrite He).
  rewrite Hd2. destruct (flag_lru e) eqn:Hfl; cbn [negb]; [done|].
  destruct (Hres eq_refl) as [Hin0 Hnd0].
  set (bump := λ x, set_hits (u64 (hits x + 1)) x).
  set (c3 := upd p bump c2).
  assert (H3 : cache_inv c3) by (subst c3; apply held_inv_upd; [keeps_entry_tac|done]).
  assert (B3 : books [] [] c3) by (subst c3; apply books_upd; [by intros []|by intros []|done]).
  assert (He3 : heap c3 !! p = Some (bump e)).
  { subst c3. by rewrite heap_upd, decide_True, He. }
  assert (Hl3 : lru0 c3 = lru0 c2) by done.
  assert (Hd3 : deref c3 p = bump e) by (unfold deref; by rewrite He3).
  clearbody c3. rewrite Hd3.
  destruct (negb (flag_compressed (bump e) =? 0)); [|done].
  destruct (decompress _ _ _ _ _ _) as [b|]; cbn [snd].
  - destruct (negb (flag_copy (bump e))); [|done].
    destruct B3 as [A3 S3]. pose proof (S3 _ _ He3) as (Hs1 & Hs2 & Hs3).
    set (f := λ e0, set_data (Some (IOBuf b (len (bump e))))
                      (set_flag_compressed 0 (set_size (compressed_len e0) e0))).
    apply (books_resize p (bump e) f c3); try done; [by rewrite Hl3..|].
    intros [] (? & ? & ?) _. left. by split_and!.
  - by eapply destroy_books.
Qed.

Lemma fixup_books k o1 o2 n1 n2 c : books [] [] c → books [] [] (fixup k o1 o2 n1 n2 c).2.
Proof.
  intros Hb. unfold fixup. destruct (max_bytes c =? 0); [done|].
  destruct (List.find _ _) as [p|]; [|done].
  cbn [snd]. apply books_upd; [by intros []|by intros []|done].
Qed.

Lemma compress_commit_books ctype p l b failed c :
  small l → p ∈ lru0 c → cache_inv c → books [] [] c →
  books [] [] (compress_commit ctype p l b failed c).
Proof.
  intros Hl Hin Hinv Hb. unfold compress_commit.
  destruct failed; [apply books_upd; [by intros []|by intros []|done]|].
  pose proof Hinv as (Hnd & Hres & _). rewrite !app_nil_r in *.
  apply NoDup_app in Hnd as (Hnd0 & _).
  destruct (Hres p Hin) as (e & He & Hfl).
  set (c1 := if exceeds _ _ _ then _ else c).
  assert (H1 : books [] [] c1 ∧ lru0 c1 = lru0 c
               ∧ ∃ e1, heap c1 !! p = Some e1 ∧ size e1 = size e ∧ len e1 = len e).
  { subst c1. destruct (exceeds _ _ _).
    - split_and!; [apply books_upd; [by intros []|by intros []|done]|done|].
      exists (set_flag_incompressible true e). by rewrite heap_upd, decide_True, He.
    - split_and!; [done|done|]. by exists e. }
  clearbody c1. destruct H1 as (B1 & Hl1 & e1 & He1 & Hs1 & Hle1).
  assert (Hd1 : deref c1 p = e1) by (unfold deref; by rewrite He1).
  rewrite Hd1.
  destruct (exceeds _ _ _); [apply books_upd; [by intros []|by intros []|done]|].
  pose proof (proj2 B1 _ _ He1) as (Hsm1 & Hsm2 & Hsm3).
  destruct (l <? len e1).
  - apply books_upd; [by intros []|by intros []|].
    set (c2 := upd p (set_compressed_len l) (upd p (set_flag_compressed (ctype mod 8)) c1)).
    assert (B2 : books [] [] c2).
    { subst c2. apply books_upd; [by intros []|by intros [] (? & ? & ?); split_and!|].
      apply books_upd; [by intros []|by intros []|done]. }
    assert (He2 : heap c2 !! p
                  = Some (set_compressed_len l (set_flag_compressed (ctype mod 8) e1))).
    { subst c2. by rewrite !heap_upd, !decide_True, He1. }
    pose proof (books_resize p (set_compressed_len l (set_flag_compressed (ctype mod 8) e1))
                  (set_size l) c2) as Hr.
    cbn [size set_size set_compressed_len set_flag_compressed] in Hr.
    apply Hr; try done.
    + by rewrite <- Hl1 in Hnd0.
    + by rewrite <- Hl1 in Hin.
    + intros [] (? & ? & ?) _. left. by split_and!.
  - apply books_upd; [by intros []|by intros []|].
    set (c2 := upd p (set_flag_compressed 0) c1).
    assert (B2 : books [] [] c2).
    { subst c2. apply books_upd; [by intros []|by intros []|done]. }
    assert (He2 : heap c2 !! p = Some (set_flag_compressed 0 e1)).
    { subst c2. by rewrite !heap_upd, !decide_True, He1. }
    pose proof (books_resize p (set_flag_compressed 0 e1) (set_size (len e1)) c2) as Hr.
    cbn [size set_size set_flag_compressed] in Hr.
    apply Hr; try done.
    + by rewrite <- Hl1 in Hnd0.
    + by rewrite <- Hl1 in Hin.
    + intros [] (? & ? & ?) _. left. by split_and!.
Qed.

Lemma init_books abytes : books [] [] (init abytes new_RamCacheCLFUS).
Proof.
  assert (H0 : ∀ m, books [] [] (set_max_bytes m new_RamCacheCLFUS)).
  { intros m. split; [|by intros x e He]. unfold held_accounted, acct_inv. cbn.
    split_and!; try done. }
  unfold init. destruct (_ =? 0); [apply H0|]. exact (H0 abytes).
Qed.

Lemma reachable_books c : reachable_small c → books [] [] c.
Proof.
  induction 1 as [abytes|k d l copy a1 a2 c Hr IH Hl Hbs|fl hz zl hl lz bl k a1 a2 c Hr IH
                 |k o1 o2 n1 n2 c Hr IH|ctype p l b failed c Hr IH Hin Hl].
  - apply init_books.
  - apply put_books; try done. by apply reachable_inv, reachable_small_reachable.
  - apply get_books; [|done]. by apply reachable_inv, reachable_small_reachable.
  - by apply fixup_books.
  - apply compress_commit_books; try done. by apply reachable_inv, reachable_small_reachable.
Qed.

(** ** Queues, chains and counters of a reachable state *)

(** X1.  In every state the cache reaches no entry is twice on the queues or on
    both, the entries of [lru[0]] are allocated and no ghosts, the entries
    of [lru[1]] are allocated ghosts, and every allocated address was
    handed out by the entry allocator. *)
Theorem reachable_queues c :
  reachable c →
  NoDup (lru0 c ++ lru1 c)
  ∧ (∀ p, p ∈ lru0 c → ∃ e, heap c !! p = Some e ∧ flag_lru e = false)
  ∧ (∀ p, p ∈ lru1 c → ∃ e, heap c !! p = Some e ∧ flag_lru e = true)
  ∧ (∀ p e, heap c !! p = Some e → (p < next_ptr c)%nat).
Proof.
  intros (Hnd & H0 & H1 & Hok & _)%reachable_inv. rewrite !app_nil_r in *.
  split_and!; try done. intros p e He. by destruct (Hok p e He).
Qed.

(** X2.  In every reachable state each address on a hash chain is allocated, its
    digest hashes to that chain, and it occurs there once. *)
Theorem reachable_chains c :
  reachable c →
  (∀ i p, p ∈ chain c i →
     ∃ e, heap c !! p = Some e ∧ word (key e) 3 mod nbuckets c = i)
  ∧ (∀ i, NoDup (chain c i)).
Proof. by intros (_ & _ & _ & _ & Hch & Hnd)%reachable_inv. Qed.

(** X3.  In every reachable state the chains hold at most one entry per digest,
    whatever the aux keys. *)
Theorem reachable_one_entry_per_digest c i j p q :
  reachable c →
  p ∈ chain c i → q ∈ chain c j → key (deref c p) = key (deref c q) → p = q.
Proof. intros (Hu & _)%reachable_index. apply Hu. Qed.

(** X4.  While the table has not outgrown [bucket_sizes], the hash index of a
    reachable state is consistent: every allocated entry is on the chain of
    its bucket, every address on a chain is allocated, and a cache of zero
    bytes holds nothing. *)
Theorem reachable_index_inv c :
  reachable c → table_in_range c → index_inv c.
Proof.
  intros Hr Hrange. destruct (reachable_index c Hr) as (_ & Hc & Ht & _).
  pose proof (reachable_inv c Hr) as Hinv. split_and!.
  - intros p e He. by apply Hc.
  - intros i ch Hi. apply Forall_forall. intros p Hp.
    destruct (held_inv_chains _ _ _ Hinv i p) as (e & He & _); [|by exists e].
    unfold chain. by rewrite Hi.
  - exact Ht.
Qed.

(** X5.  The debug check [check_accounting] passes in every state reached with
    lengths to which [ENTRY_OVERHEAD] can be added within [uint32_t]:
    [objects] and [history] are the lengths of the two queues and [bytes]
    is the sum of [size + ENTRY_OVERHEAD] over [lru[0]]. *)
Theorem reachable_check_accounting c :
  reachable_small c → check_accounting c = true.
Proof. intros [Ha _]%reachable_books. by apply accounted_check. Qed.

(** X6.  No entry leaks: in every such state an allocated entry is on the queue
    its [lru] flag names. *)
Theorem reachable_no_leak c p e :
  reachable_small c → heap c !! p = Some e → p ∈ lru c (flag_lru e).
Proof.
  intros [(_ & _ & _ & Hq) _]%reachable_books He. specialize (Hq p e He).
  rewrite !app_nil_r in Hq. unfold lru. by destruct (flag_lru e).
Qed.

(** X7.  [resize_hashtable] loses and invents no entry: an address is on a chain
    of the new table exactly when it was on one of the [nbuckets] chains of
    the old table, and it is on the chain its digest hashes to. *)
Theorem resize_hashtable_keeps_entries c :
  cache_inv c →
  let c' := resize_hashtable c in
  (∀ j p, p ∈ chain c' j →
     (∃ i, 0 ≤ i < nbuckets c ∧ p ∈ chain c i)
     ∧ j = word (key (deref c p)) 3 mod nbuckets c')
  ∧ (∀ i p, 0 ≤ i < nbuckets c → p ∈ chain c i →
       p ∈ chain c' (word (key (deref c p)) 3 mod nbuckets c'))
  ∧ heap c' = heap c ∧ lru0 c' = lru0 c ∧ lru1 c' = lru1 c.
Proof.
  intros Hinv c'. destruct (resize_hashtable_chains c Hinv) as [H1 H2].
  split_and!; done.
Qed.

(** ** What [get] returns *)

(** In a reachable state whose table is in range, the chain walk for the
    key and aux keys of an allocated entry finds that entry. *)
Lemma find_entry c p e :
  reachable c → table_in_range c → heap c !! p = Some e →
  List.find (λ q, entry_matches (key e) (auxkey1 e) (auxkey2 e) (deref c q))
            (chain c (word (key e) 3 mod nbuckets c)) = Some p.
Proof.
  intros Hr Hrange He. destruct (reachable_index c Hr) as (Hu & Hc & _).
  pose proof (Hc Hrange p e He) as Hp. unfold bucket_of in Hp.
  assert (Hd : deref c p = e) by (unfold deref; by rewrite He).
  assert (Hm : entry_matches (key e) (auxkey1 e) (auxkey2 e) (deref c p) = true).
  { rewrite Hd. by apply entry_matches_spec. }
  destruct (proj1 (find_first_match (key e) (auxkey1 e) (auxkey2 e) c
                     (chain c (word (key e) 3 mod nbuckets c)))) as [q Hq];
    [by exists p|].
  rewrite Hq. f_equal. apply find_matches in Hq as [Hqin Hqm].
  apply entry_matches_spec in Hqm as (Hk & _).
  apply (Hu _ _ q p Hqin Hp). by rewrite Hd.
Qed.

(** Without a match in the heap the chain walk finds nothing. *)
Lemma find_absent k a1 a2 c :
  reachable c →
  (∀ p e, heap c !! p = Some e → ¬ (key e = k ∧ auxkey1 e = a1 ∧ auxkey2 e = a2)) →
  List.find (λ q, entry_matches k a1 a2 (deref c q)) (chain c (word k 3 mod nbuckets c)) = None.
Proof.
  intros Hr Hno. destruct (List.find _ _) as [p|] eqn:Hfind; [|done].
  apply find_matches in Hfind as [Hin Hm].
  destruct (held_inv_chains _ _ _ (reachable_inv c Hr) _ _ Hin) as (e & He & _).
  unfold deref in Hm. rewrite He in Hm. apply entry_matches_spec in Hm. by destruct (Hno p e He).
Qed.

Section GetMore.
Context (fastlz_decompress : list byte → Z → Z → Z * list byte)
        (TS_HAS_LIBZ : bool)
        (uncompress : list byte → Z → Z → Z * list byte)
        (TS_HAS_LZMA : bool)
        (lzma_stream_buffer_decode : Z → list byte → Z → Z → Z * list byte)
        (iobuffer_block_size : Z → Z).

Local Abbreviation the_decompress :=
  (decompress fastlz_decompress TS_HAS_LIBZ uncompress TS_HAS_LZMA lzma_stream_buffer_decode).
Local Abbreviation the_get :=
  (get fastlz_decompress TS_HAS_LIBZ uncompress TS_HAS_LZMA lzma_stream_buffer_decode
       iobuffer_block_size).

(** [get] once it has found the entry [p]: the entry is requeued at the tail
    of its queue, then the rest depends on the entry alone. *)
Lemma get_found k a1 a2 c p e :
  max_bytes c ≠ 0 →
  List.find (λ p, entry_matches k a1 a2 (deref c p)) (chain c (word k 3 mod nbuckets c))
    = Some p →
  heap c !! p = Some e →
  ∃ c2, heap c2 = heap c ∧ same_counters c c2
    ∧ lru c2 (flag_lru e) = que_enqueue p (que_remove p (lru c (flag_lru e)))
    ∧ lru c2 (negb (flag_lru e)) = lru c (negb (flag_lru e))
    ∧ the_get k a1 a2 c =
        if flag_lru e then (0, None, c2)
        else
          let bump := λ x, set_hits (u64 (hits x + 1)) x in
          let c3 := upd p bump c2 in
          if negb (flag_compressed e =? 0) then
            match the_decompress e with
            | None => (0, None, destroy p c3)
            | Some b =>
                let d := IOBuf b (len e) in
                (1, Some d,
                 if negb (flag_copy e) then
                   upd p (λ x, set_data (Some d)
                                 (set_flag_compressed 0 (set_size (compressed_len x) x)))
                       (set_bytes (bytes c + (compressed_len e - size e)) c3)
                 else c3)
            end
          else
            (1, (if flag_copy e then
                   Some (IOBuf (take (Z.to_nat (len e)) (data_bytes e))
                               (iobuffer_block_size (len e)))
                 else data e), c3).
Proof.
  intros Hmax%Z.eqb_neq Hfind He. unfold get. rewrite Hmax, Hfind.
  destruct (move_compressed_frame p c)
    as (Hh1 & Hl01 & Hl11 & Hb1 & Hby1 & Ho1 & Hhi1 & Hn1 & Hm1 & Hs1 & Hi1 & Hx1).
  set (c1 := move_compressed p c) in *.
  destruct (requeue_frame p c1) as (Hh2 & Hb2 & Hby2 & Ho2 & Hhi2 & Hn2 & Hm2 & Hs2 & Hi2 & Hx2 & _).
  pose proof (requeue_lru p c1) as Hrl. cbn zeta in Hrl.
  set (c2 := requeue p c1) in *.
  assert (Hd1 : deref c1 p = e) by (unfold deref; by rewrite Hh1, He).
  assert (Hd2 : deref c2 p = e) by (unfold deref; by rewrite Hh2, Hh1, He).
  rewrite Hd1 in Hrl. destruct Hrl as [Hrl0 Hrl1].
  exists c2. split_and!.
  - by rewrite Hh2, Hh1.
  - unfold same_counters. by rewrite Hb2, Hb1, Hby2, Hby1, Ho2, Ho1, Hhi2, Hhi1, Hn2, Hn1,
      Hi2, Hi1, Hm2, Hm1, Hs2, Hs1, Hx2, Hx1.
  - rewrite Hrl0. unfold lru. by rewrite Hl01, Hl11.
  - rewrite Hrl1. unfold lru. by rewrite Hl01, Hl11.
  - rewrite Hd2. destruct (flag_lru e); cbn [negb]; [done|].
    set (bump := λ x, set_hits (u64 (hits x + 1)) x).
    assert (Hd3 : deref (upd p bump c2) p = bump e).
    { apply deref_upd_eq. by rewrite Hh2, Hh1. }
    rewrite Hd3. change (flag_compressed (bump e)) with (flag_compressed e).
    change (the_decompress (bump e)) with (the_decompress e).
    change (flag_copy (bump e)) with (flag_copy e).
    change (len (bump e)) with (len e). change (data (bump e)) with (data e).
    change (data_bytes (bump e)) with (data_bytes e).
    change (compressed_len (bump e)) with (compressed_len e).
    change (size (bump e)) with (size e).
    change (bytes (upd p bump c2)) with (bytes c2). rewrite Hby2, Hby1.
    destruct (negb (flag_compressed e =? 0)); [|done].
    destruct (the_decompress e); [|done]. by destruct (negb (flag_copy e)).
Qed.

(** X8.  A resident entry that is not compressed is read back through its key
    and aux keys. *)
Theorem get_resident c p e :
  reachable c → table_in_range c →
  heap c !! p = Some e → flag_lru e = false → flag_compressed e = 0 →
  ∃ c', the_get (key e) (auxkey1 e) (auxkey2 e) c =
          (1, (if flag_copy e then
                 Some (IOBuf (take (Z.to_nat (len e)) (data_bytes e))
                             (iobuffer_block_size (len e)))
               else data e), c')
    ∧ heap c' !! p = Some (set_hits (u64 (hits e + 1)) e)
    ∧ (∀ q, q ≠ p → heap c' !! q = heap c !! q)
    ∧ lru0 c' = que_enqueue p (que_remove p (lru0 c)) ∧ lru1 c' = lru1 c
    ∧ same_counters c c'.
Proof.
  intros Hr Hrange He Hfl Hcomp.
  assert (Hmax : max_bytes c ≠ 0).
  { intros Hz. destruct (reachable_index c Hr) as (_ & _ & Ht & _).
    rewrite (Ht Hz) in He. by rewrite lookup_empty in He. }
  destruct (get_found (key e) (auxkey1 e) (auxkey2 e) c p e Hmax (find_entry c p e Hr Hrange He) He)
    as (c2 & Hh & Hsame & Hq & Hq' & Hget).
  rewrite Hfl in *. rewrite Hcomp in Hget. cbn [negb lru Z.eqb] in *.
  eexists. split; [exact Hget|]. proj_simpl. split_and!; try done.
  - by rewrite lookup_alter_eq, Hh, He.
  - intros q Hne. by rewrite lookup_alter_ne, Hh.
Qed.

(** X9.  A key that is only in the history is a miss: the ghost is requeued at
    the tail of [lru[1]], its hit counter is not touched. *)
Theorem get_history_miss c p e :
  reachable c → table_in_range c →
  heap c !! p = Some e → flag_lru e = true →
  ∃ c', the_get (key e) (auxkey1 e) (auxkey2 e) c = (0, None, c')
    ∧ heap c' = heap c
    ∧ lru1 c' = que_enqueue p (que_remove p (lru1 c)) ∧ lru0 c' = lru0 c
    ∧ same_counters c c'.
Proof.
  intros Hr Hrange He Hfl.
  assert (Hmax : max_bytes c ≠ 0).
  { intros Hz. destruct (reachable_index c Hr) as (_ & _ & Ht & _).
    rewrite (Ht Hz) in He. by rewrite lookup_empty in He. }
  destruct (get_found (key e) (auxkey1 e) (auxkey2 e) c p e Hmax (find_entry c p e Hr Hrange He) He)
    as (c2 & Hh & Hsame & Hq & Hq' & Hget).
  rewrite Hfl in *. cbn [negb lru] in *. by exists c2.
Qed.

(** X10.  Without an entry under the key and both aux keys [get] returns 0 and
    changes nothing. *)
Theorem get_absent k a1 a2 c :
  reachable c →
  (∀ p e, heap c !! p = Some e → ¬ (key e = k ∧ auxkey1 e = a1 ∧ auxkey2 e = a2)) →
  the_get k a1 a2 c = (0, None, c).
Proof.
  intros Hr Hno. unfold get. destruct (max_bytes c =? 0); [done|].
  by rewrite (find_absent k a1 a2 c Hr Hno).
Qed.

(** X11.  A compressed resident entry whose decompression succeeds is returned as
    a buffer of [len] bytes; unless the entry is copy-in-copy-out it is kept
    uncompressed, with [size] set to [compressed_len] and [bytes] moved by
    the difference. *)
Theorem get_decompress_success c p e b :
  reachable c → table_in_range c →
  heap c !! p = Some e → flag_lru e = false → flag_compressed e ≠ 0 →
  the_decompress e = Some b →
  let bumped := set_hits (u64 (hits e + 1)) e in
  let d := IOBuf b (len e) in
  ∃ c', the_get (key e) (auxkey1 e) (auxkey2 e) c = (1, Some d, c')
    ∧ heap c' !! p =
        Some (if flag_copy e then bumped
              else set_data (Some d)
                     (set_flag_compressed 0 (set_size (compressed_len e) bumped)))
    ∧ bytes c' = (if flag_copy e then bytes c else bytes c + (compressed_len e - size e))
    ∧ (∀ q, q ≠ p → heap c' !! q = heap c !! q)
    ∧ lru0 c' = que_enqueue p (que_remove p (lru0 c)) ∧ lru1 c' = lru1 c
    ∧ objects c' = objects c ∧ history c' = history c ∧ bucket c' = bucket c.
Proof.
  intros Hr Hrange He Hfl Hcomp Hdec bumped d.
  assert (Hmax : max_bytes c ≠ 0).
  { intros Hz. destruct (reachable_index c Hr) as (_ & _ & Ht & _).
    rewrite (Ht Hz) in He. by rewrite lookup_empty in He. }
  destruct (get_found (key e) (auxkey1 e) (auxkey2 e) c p e Hmax (find_entry c p e Hr Hrange He) He)
    as (c2 & Hh & Hsame & Hq & Hq' & Hget).
  rewrite Hfl in *. apply Z.eqb_neq in Hcomp. rewrite Hcomp, Hdec in Hget.
  cbn [negb lru] in *. destruct Hsame as (Hb & Hby & Ho & Hhi & _).
  eexists. split; [exact Hget|].
  destruct (flag_copy e); cbn [negb]; proj_simpl; split_and!; try done.
  - by rewrite lookup_alter_eq, Hh, He.
  - intros q Hne. by rewrite lookup_alter_ne, Hh.
  - by rewrite !lookup_alter_eq, Hh, He.
  - intros q Hne. by rewrite !lookup_alter_ne, Hh.
Qed.

End GetMore.

(** ** A [put] and the [get] after it *)

Lemma insert_victims_heap sz vs : ∀ c p,
  p ∉ vs → heap (foldl (insert_victim sz) c vs) !! p = heap c !! p.
Proof.
  induction vs as [|v vs IH]; intros c p Hp; cbn [foldl]; [done|].
  apply not_elem_of_cons in Hp as [Hne Hp]. rewrite IH by done.
  unfold insert_victim, victimize. destruct (_ <=? _); proj_simpl; by rewrite lookup_alter_ne.
Qed.

Lemma put_install_entry d l copy sz p c e :
  heap c !! p = Some e →
  heap (put_install d l copy sz p c) !! p
  = Some (set_len l (set_size sz (set_flag_copy copy
            (set_data (Some (put_buffer d l copy)) (clear_flags e))))).
Proof. intros He. unfold put_install. proj_simpl. by rewrite !lookup_alter_eq, He. Qed.

Lemma put_insert_stored k d l copy a1 a2 i e c vs :
  held_inv vs (held_ghost e) c →
  (∀ p, e = Some p →
     key (deref c p) = k ∧ auxkey1 (deref c p) = a1 ∧ auxkey2 (deref c p) = a2) →
  ∃ p x, heap (put_insert k d l copy a1 a2 i (put_size d l copy) e c vs).2 !! p = Some x
    ∧ stored_as k a1 a2 d l copy x ∧ len x = l ∧ (e = None → p = next_ptr c).
Proof.
  intros Hinv He. unfold put_insert.
  pose proof (insert_victims_heap (put_size d l copy) vs c) as Hh.
  assert (Hnx : next_ptr (foldl (insert_victim (put_size d l copy)) c vs) = next_ptr c).
  { clear. revert c. induction vs as [|v vs IH]; intros c; cbn [foldl]; [done|].
    rewrite IH. unfold insert_victim, victimize. by destruct (_ <=? _). }
  set (c1 := foldl _ c vs) in *. clearbody c1.
  destruct e as [p|]; cbn [snd held_ghost] in *.
  - pose proof Hinv as (Hnd & _ & Hgh & _).
    destruct (Hgh p) as (x & Hx & _); [set_solver|].
    assert (Hpv : p ∉ vs).
    { apply NoDup_app in Hnd as (_ & Hd & _).
      intros Hp. apply (Hd p); set_solver. }
    destruct (He p eq_refl) as (Hk & H1 & H2). unfold deref in Hk, H1, H2. rewrite Hx in *.
    cbn in Hk, H1, H2.
    exists p. eexists. split; [apply put_install_entry; proj_simpl; by rewrite Hh|].
    unfold stored_as. by destruct x.
  - destruct (put_new_entry_spec k a1 a2 i c1) as (Np & _ & Nh & _).
    destruct (put_new_entry _ _ _ _ c1) as [p cn]. cbn [fst snd] in *. subst p.
    exists (next_ptr c1). eexists.
    split; [apply put_install_entry; by rewrite Nh, lookup_insert_eq|].
    unfold stored_as. by rewrite Hnx.
Qed.

Lemma held_inv_disjoint vs g c :
  held_inv vs g c → ∀ x, x ∈ lru0 c ++ vs → x ∉ lru1 c.
Proof.
  intros (Hnd & _) x Hx Hin. apply NoDup_app in Hnd as (_ & Hd & _).
  apply (Hd x Hx). set_solver.
Qed.

Lemma held_ghost_off vs p c :
  held_inv vs [p] c → (p ∉ lru1 c) ∧ (p ∉ lru0 c ++ vs).
Proof.
  intros (Hnd & _). apply NoDup_app in Hnd as (_ & Hd & Hnd1).
  apply NoDup_app in Hnd1 as (_ & Hd1 & _). split.
  - intros Hp. apply (Hd1 p Hp). set_solver.
  - intros Hp. apply (Hd p Hp). set_solver.
Qed.

Lemma put_select_stored k d l copy a1 a2 i e c c' :
  held_inv [] (held_ghost e) c →
  (∀ p, e = Some p →
     key (deref c p) = k ∧ auxkey1 (deref c p) = a1 ∧ auxkey2 (deref c p) = a2) →
  put_select k d l copy a1 a2 i (put_size d l copy) e c = (1, c') →
  ∃ p x, heap c' !! p = Some x ∧ stored_as k a1 a2 d l copy x ∧ len x = l.
Proof.
  intros Hinv He Hput. unfold put_select in Hput.
  pose proof (victim_loop_inv e (put_size d l copy) (lru0 c) c [] eq_refl Hinv) as Hloop.
  pose proof (victim_loop_spec e (put_size d l copy) (lru0 c) c [] eq_refl
                (held_inv_disjoint _ _ _ Hinv)) as Hspec.
  destruct (victim_loop _ _ _ _ _) as [c1 vs|c1 vs|c1].
  - destruct Hloop as [H1 _]. destruct Hspec as (_ & _ & _ & _ & _ & _ & _ & Hho & _).
    destruct (put_insert_stored k d l copy a1 a2 i e c1 vs H1) as (p & x & Hx & Hst & Hl & _).
    { intros p ->. destruct (held_ghost_off _ _ _ Hinv) as [Hp1 _].
      destruct (hits_only_deref _ _ _ (Hho p Hp1)) as (-> & -> & -> & _). by apply He. }
    rewrite Hput in Hx. by exists p, x.
  - by pose proof (put_history_fst k d a1 a2 i c1 vs) as H; rewrite Hput in H.
  - done.
Qed.

Lemma put_admission_stored k d l copy a1 a2 i e c c' :
  held_inv [] (held_ghost e) c →
  (∀ p, e = Some p →
     key (deref c p) = k ∧ auxkey1 (deref c p) = a1 ∧ auxkey2 (deref c p) = a2) →
  put_admission k d l copy a1 a2 i (put_size d l copy) e c = (1, c') →
  ∃ p x, heap c' !! p = Some x ∧ stored_as k a1 a2 d l copy x ∧ len x = l.
Proof.
  intros Hinv He Hput. unfold put_admission in Hput.
  destruct (_ && (bytes c + _ <=? max_bytes c)).
  { destruct (put_insert_stored k d l copy a1 a2 i e c [] Hinv He) as (p & x & Hx & Hst & Hl & _).
    rewrite Hput in Hx. by exists p, x. }
  destruct e as [p|]; [by eapply put_select_stored|].
  destruct (_ && negb _); [done|].
  refine (put_select_stored k d l copy a1 a2 i None _ c' _ _ Hput); [|done].
  apply (held_inv_core _ _ c); [done..|exact Hinv].
Qed.

(** The entry behind a [put] that returns 1: installed with the new length,
    or updated in place with the length it had. *)
Lemma put_found_stored k d l copy a1 a2 i e c c' :
  cache_inv c →
  (∀ p, e = Some p → ∃ x, heap c !! p = Some x
     ∧ key x = k ∧ auxkey1 x = a1 ∧ auxkey2 x = a2) →
  put_found k d l copy a1 a2 i (put_size d l copy) e c = (1, c') →
  ∃ p x, heap c' !! p = Some x ∧ stored_as k a1 a2 d l copy x
    ∧ (len x = l ∨ ∃ e0, e = Some p ∧ heap c !! p = Some e0 ∧ flag_lru e0 = false
                         ∧ len x = len e0).
Proof.
  intros Hinv He Hput. unfold put_found in Hput.
  destruct e as [p|].
  2: { destruct (put_admission_stored k d l copy a1 a2 i None c c' Hinv) as (p & x & ? & ? & ?);
         [done|done|]. exists p, x. split_and!; [done|done|by left]. }
  destruct (He p eq_refl) as (e & He' & Hk & H1 & H2). clear He.
  set (bump := λ x, set_hits (u64 (hits x + 1)) x) in *.
  set (c1 := upd p bump c) in *.
  assert (Hd1 : deref c1 p = bump e) by (by apply deref_upd_eq).
  assert (Hinv1 : cache_inv c1) by (subst c1; apply held_inv_upd; [keeps_entry_tac|done]).
  rewrite Hd1 in Hput. change (flag_lru (bump e)) with (flag_lru e) in Hput.
  destruct (flag_lru e) eqn:Hfl; cbn [negb] in Hput.
  - set (c2 := set_lru1 _ c1) in *.
    destruct (put_admission_stored k d l copy a1 a2 i (Some p) c2 c') as (q & x & ? & ? & ?);
      [| |done|].
    + pose proof Hinv as (Hnd & Hres & _). rewrite !app_nil_r in *.
      subst c2 c1. unfold held_inv, held_ghost. proj_simpl.
      eapply store_inv_place; [exact Hinv|exact He'|keeps_entry_tac|..];
        change (flag_lru (bump e)) with (flag_lru e); rewrite Hfl, !app_nil_r.
      * rewrite que_remove_notin; [done|].
        intros Hp. destruct (Hres p Hp) as (x & Hx & Hfx). congruence.
      * done.
    + intros ? [= <-]. change (deref c2 p) with (deref c1 p). rewrite Hd1. by destruct e.
    + exists q, x. split_and!; [done|done|by left].
  - unfold put_hit in Hput. injection Hput as <-.
    destruct (move_compressed_frame p c1) as (Hh1 & _).
    destruct (requeue_frame p (move_compressed p c1)) as (Hh2 & _).
    exists p. eexists. split_and!.
    + proj_simpl. rewrite !lookup_alter_eq, Hh2, Hh1. subst c1. proj_simpl.
      rewrite lookup_alter_eq, He'. reflexivity.
    + unfold stored_as. cbn. destruct e. cbn in *. split_and!; try done.
    + right. exists e. by destruct e.
Qed.

Lemma put_lookup_in k a1 a2 : ∀ ch c p, (put_lookup k a1 a2 ch c).1 = Some p → p ∈ ch.
Proof.
  induction ch as [|q ch IH]; intros c p Hp; cbn [put_lookup] in Hp; [done|].
  destruct (decide _); [|right; by eapply IH].
  destruct (_ && _); [injection Hp as <-; by left|right; by eapply IH].
Qed.

(** What is known of the entry that the lookup of [put] returns. *)
Lemma put_lookup_found k a1 a2 c p :
  cache_inv c →
  let i := word k 3 mod nbuckets c in
  let r := put_lookup k a1 a2 (chain c i) c in
  r.1 = Some p →
  ∃ x, heap r.2 !! p = Some x ∧ heap c !! p = Some x
    ∧ key x = k ∧ auxkey1 x = a1 ∧ auxkey2 x = a2 ∧ p ∈ chain r.2 i.
Proof.
  intros Hinv i r Hp.
  pose proof Hinv as (_ & _ & _ & _ & Hch & Hcd).
  destruct (put_lookup_inv k a1 a2 (chain c i) c Hinv (Hcd _)) as (H1 & H2 & H3).
  { intros q Hq. destruct (Hch _ _ Hq) as (e & He & _). by exists e. }
  destruct (put_lookup_spec k a1 a2 (chain c i) c c (lookup_rel_refl _ _ _ _)) as [Hrel Hm].
  fold r in H1, H2, H3, Hrel, Hm. destruct (H2 p Hp) as [x Hx].
  destruct (Hm p Hp) as (Hk & Ha1 & Ha2). unfold deref in Hk, Ha1, Ha2. rewrite Hx in *.
  cbn in Hk, Ha1, Ha2.
  destruct Hrel as (_ & _ & _ & _ & _ & _ & _ & _ & Hh & _).
  exists x. split_and!; try done.
  - destruct (Hh p) as [Heq|[Hnone _]]; [by rewrite <- Heq|congruence].
  - destruct (put_lookup_shrink k a1 a2 (chain c i) c) as (_ & _ & _ & _ & Hkeep & _).
    apply Hkeep; [by eapply put_lookup_in|by exists x].
Qed.

Lemma put_stored k d l copy a1 a2 c c' :
  cache_inv c → put k d l copy a1 a2 c = (1, c') →
  ∃ p x, heap c' !! p = Some x ∧ stored_as k a1 a2 d l copy x
    ∧ (len x = l ∨ ∃ e0, heap c !! p = Some e0 ∧ key e0 = k ∧ flag_lru e0 = false
                         ∧ len x = len e0).
Proof.
  intros Hinv Hput. destruct (decide (max_bytes c = 0)) as [Hz|Hmax].
  { unfold put in Hput. apply Z.eqb_eq in Hz. by rewrite Hz in Hput. }
  rewrite put_unfold in Hput by done.
  pose proof Hinv as (_ & _ & _ & _ & Hch & Hcd).
  destruct (put_lookup_inv k a1 a2 (chain c (word k 3 mod nbuckets c)) c Hinv (Hcd _))
    as (H1 & _ & _).
  { intros q Hq. destruct (Hch _ _ Hq) as (e & He & _). by exists e. }
  pose proof (put_lookup_found k a1 a2 c) as Hfound. cbn zeta in Hfound.
  set (lk := put_lookup k a1 a2 _ c) in *. clearbody lk.
  assert (Hlk : ∀ p, lk.1 = Some p → ∃ x, heap lk.2 !! p = Some x
     ∧ key x = k ∧ auxkey1 x = a1 ∧ auxkey2 x = a2).
  { intros p Hp. destruct (Hfound p Hinv Hp) as (x & Hx & _ & ? & ? & ? & _). by exists x. }
  destruct (put_found_stored k d l copy a1 a2 _ lk.1 lk.2 c' H1 Hlk Hput)
    as (p & x & Hx & Hst & Hlen).
  exists p, x. split_and!; [done|done|].
  destruct Hlen as [?|(e0 & Hp & He0 & Hfl & Hl)]; [by left|right].
  destruct (Hfound p Hinv Hp) as (y & Hy & Hyc & Hk & _).
  rewrite He0 in Hy. injection Hy as <-. by exists e0.
Qed.

Section RoundTrip.
Context (fastlz_decompress : list byte → Z → Z → Z * list byte)
        (TS_HAS_LIBZ : bool)
        (uncompress : list byte → Z → Z → Z * list byte)
        (TS_HAS_LZMA : bool)
        (lzma_stream_buffer_decode : Z → list byte → Z → Z → Z * list byte)
        (iobuffer_block_size : Z → Z).

Local Abbreviation the_get :=
  (get fastlz_decompress TS_HAS_LIBZ uncompress TS_HAS_LZMA lzma_stream_buffer_decode
       iobuffer_block_size).

(** X12.  A [put] that returns 1 is read back by [get] under the same key and aux
    keys: the caller's buffer itself without [copy], a fresh buffer with its
    first [len] bytes with [copy].  With [copy] the length must not differ
    from the one of an entry that the key already had in memory. *)
Theorem put_get_round_trip k d l copy a1 a2 c c' :
  reachable c → 0 ≤ l →
  put k d l copy a1 a2 c = (1, c') → table_in_range c' →
  (copy = true →
   ∀ p e0, heap c !! p = Some e0 → key e0 = k → flag_lru e0 = false → len e0 = l) →
  (the_get k a1 a2 c').1
  = (1, Some (if copy then IOBuf (take (Z.to_nat l) (buf d)) (iobuffer_block_size l)
              else d)).
Proof.
  intros Hr Hl Hput Hrange Hlen.
  assert (Hr' : reachable c').
  { change c' with (1, c').2. rewrite <- Hput. by apply reachable_put. }
  destruct (put_stored k d l copy a1 a2 c c' (reachable_inv c Hr) Hput)
    as (p & x & Hx & (Hk & H1 & H2 & Hfl & Hcomp & Hcopy & Hdata & _) & Hlx).
  assert (Hmax : max_bytes c' ≠ 0).
  { intros Hz. destruct (reachable_index c' Hr') as (_ & _ & Ht & _).
    rewrite (Ht Hz) in Hx. by rewrite lookup_empty in Hx. }
  pose proof (find_entry c' p x Hr' Hrange Hx) as Hfind. rewrite Hk, H1, H2 in Hfind.
  destruct (get_found fastlz_decompress TS_HAS_LIBZ uncompress TS_HAS_LZMA
              lzma_stream_buffer_decode iobuffer_block_size k a1 a2 c' p x Hmax Hfind Hx)
    as (c2 & _ & _ & _ & _ & Hget).
  rewrite Hget, Hfl, Hcomp, Hcopy. cbn [negb Z.eqb fst]. f_equal.
  unfold data_bytes. rewrite Hdata. unfold put_buffer. destruct copy; [|done].
  assert (len x = l) as ->.
  { destruct Hlx as [?|(e0 & He0 & Hk0 & Hf0 & ->)]; [done|]. by eapply Hlen. }
  cbn [buf]. by rewrite take_take, Nat.min_id.
Qed.

End RoundTrip.

Lemma digest_absent_ghost k c : digest_absent k c → digest_ghost k c.
Proof. intros Habs i x Hx Hk. by destruct (Habs i x Hx). Qed.

Lemma take_ghost_inv p e c :
  cache_inv c → heap c !! p = Some e → flag_lru e = true →
  let c1 := upd p (λ x, set_hits (u64 (hits x + 1)) x) c in
  held_inv [] [p] (set_lru1 (que_remove p (lru1 c1)) c1).
Proof.
  intros Hinv He Hfl c1.
  pose proof Hinv as (Hnd & Hres & _). rewrite !app_nil_r in *.
  subst c1. unfold held_inv. proj_simpl.
  eapply store_inv_place; [exact Hinv|exact He|keeps_entry_tac|..]; cbn [flag_lru set_hits];
    rewrite ?Hfl, ?app_nil_r.
  - rewrite que_remove_notin; [done|].
    intros Hp. destruct (Hres p Hp) as (x & Hx & Hfx). congruence.
  - done.
Qed.

Lemma put_history_ghost k d a1 a2 i c vs :
  let c' := (put_history k d a1 a2 i c vs).2 in
  ∃ p, p ∈ chain c' i ∧ key (deref c' p) = k ∧ flag_lru (deref c' p) = true.
Proof.
  unfold put_history. cbn [snd]. set (c1 := requeue_victims c vs). clearbody c1.
  exists (next_ptr c1). unfold chain, deref, bucket_push. proj_simpl.
  rewrite lookup_insert_eq, lookup_alter_eq, lookup_insert_eq. cbn.
  split_and!; try done. by left.
Qed.

Lemma put_select_rejected k d l copy a1 a2 sz e c c' :
  held_inv [] (held_ghost e) c → index_ok c → max_bytes c ≠ 0 →
  match e with
  | Some p => (∃ j, p ∈ chain c j) ∧ key (deref c p) = k
  | None => digest_absent k c
  end →
  put_select k d l copy a1 a2 (word k 3 mod nbuckets c) sz e c = (0, c') →
  digest_ghost k c'.
Proof.
  intros Hinv Hok Hmax He Hput. unfold put_select in Hput.
  pose proof (victim_loop_inv e sz (lru0 c) c [] eq_refl Hinv) as Hloop.
  pose proof (victim_loop_spec e sz (lru0 c) c [] eq_refl (held_inv_disjoint _ _ _ Hinv))
    as Hspec.
  pose proof (victim_loop_shrink e sz (lru0 c) c []) as Hs.
  destruct (victim_loop _ _ _ _ _) as [c1 vs|c1 vs|c1].
  - by pose proof (put_insert_fst k d l copy a1 a2 (word k 3 mod nbuckets c) sz e c1 vs) as H;
      rewrite Hput in H.
  - destruct Hloop as [H1 Hn]. destruct Hspec as [-> _]. cbn [held_ghost] in *.
    pose proof (index_ok_shrink _ _ (held_inv_chains _ _ _ H1) Hok Hs) as Hok1.
    assert (Habs1 : digest_absent k c1).
    { eapply digest_absent_shrink; [exact (held_inv_chains _ _ _ H1)|done|done]. }
    rewrite <- Hn in Hput.
    pose proof (put_history_index k d a1 a2 c1 vs H1 Hok1) as Hok2.
    destruct (put_history_ghost k d a1 a2 (word k 3 mod nbuckets c1) c1 vs)
      as (p & Hp & Hk & Hfl). cbn zeta in *.
    rewrite Hput in Hok2, Hp, Hk, Hfl. cbn [snd] in *.
    destruct Hok2 as (Hu & _); [destruct Hs as (-> & _); done|done|].
    intros j x Hx Hkx. by rewrite (Hu j _ x p Hx Hp) by congruence.
  - injection Hput as <-. destruct e as [p|]; cbn [held_ghost] in *.
    2: { apply digest_absent_ghost.
         eapply digest_absent_shrink; [exact (held_inv_chains _ _ _ Hloop)|done|done]. }
    destruct He as [[j Hj] Hk]. destruct Hok as (Hu & _).
    destruct Hs as (_ & _ & _ & Hsub & _ & Hkeys).
    destruct Hspec as (_ & _ & _ & _ & _ & _ & Hho & _).
    destruct (held_ghost_off _ _ _ Hinv) as [Hp1 _].
    destruct (hits_only_deref _ _ _ (Hho p Hp1)) as (_ & _ & _ & _ & _ & _ & _ & _ & _ & Hfl & _).
    intros j' x Hx Hkx.
    destruct (held_inv_chains _ _ _ Hloop j' x Hx) as (e' & He' & _).
    destruct (Hkeys _ _ He') as (e0 & He0 & Hke).
    assert (x = p) as ->.
    { apply (Hu j' j x p (Hsub _ _ Hx) Hj). rewrite Hk. unfold deref in Hkx |- *.
      rewrite He' in Hkx. rewrite He0. cbn in *. congruence. }
    rewrite Hfl. pose proof Hinv as (_ & _ & Hgh & _).
    destruct (Hgh p) as (y & Hy & Hfy); [set_solver|]. unfold deref. by rewrite Hy.
Qed.

Lemma put_admission_rejected k d l copy a1 a2 sz e c c' :
  held_inv [] (held_ghost e) c → index_ok c → max_bytes c ≠ 0 →
  match e with
  | Some p => (∃ j, p ∈ chain c j) ∧ key (deref c p) = k
  | None => digest_absent k c
  end →
  put_admission k d l copy a1 a2 (word k 3 mod nbuckets c) sz e c = (0, c') →
  digest_ghost k c'.
Proof.
  intros Hinv Hok Hmax He Hput. unfold put_admission in Hput.
  destruct (_ && (bytes c + _ <=? max_bytes c)).
  { by pose proof (put_insert_fst k d l copy a1 a2 (word k 3 mod nbuckets c) sz e c []) as H;
      rewrite Hput in H. }
  destruct e as [p|]; [by eapply (put_select_rejected _ _ _ _ _ _ _ (Some p))|].
  destruct (_ && negb _).
  { injection Hput as <-. apply digest_absent_ghost. exact He. }
  refine (put_select_rejected k d l copy a1 a2 sz None _ c' _ _ _ _ Hput); done.
Qed.

Lemma put_rejected_ghost k d l copy a1 a2 c c' :
  cache_inv c → index_ok c → max_bytes c ≠ 0 →
  put k d l copy a1 a2 c = (0, c') → digest_ghost k c'.
Proof.
  intros Hinv Hok Hmax Hput. rewrite put_unfold in Hput by done.
  pose proof Hinv as (_ & _ & _ & _ & Hch & Hcd).
  destruct (put_lookup_inv k a1 a2 (chain c (word k 3 mod nbuckets c)) c Hinv (Hcd _))
    as (H1 & _ & Hn).
  { intros q Hq. destruct (Hch _ _ Hq) as (e & He & _). by exists e. }
  pose proof (λ p, put_lookup_found k a1 a2 c p Hinv) as Hfound.
  pose proof (put_lookup_absent k a1 a2 c Hinv) as Habs.
  pose proof (put_lookup_shrink k a1 a2 (chain c (word k 3 mod nbuckets c)) c) as Hs.
  cbn zeta in *.
  set (lk := put_lookup k a1 a2 _ c) in *. clearbody lk.
  pose proof (index_ok_shrink _ _ (held_inv_chains _ _ _ H1) Hok Hs) as Hok1.
  destruct Hs as (Hm & _). rewrite <- Hm in Hmax. rewrite <- Hn in Hput, Hfound.
  destruct lk as [e c1]. cbn [fst snd] in *.
  unfold put_found in Hput. destruct e as [p|].
  2: { by eapply (put_admission_rejected _ _ _ _ _ _ _ None); [..|exact Hput]; auto. }
  destruct (Hfound p eq_refl) as (x & Hx & _ & Hk & _ & _ & Hp).
  set (bump := λ x, set_hits (u64 (hits x + 1)) x) in *.
  assert (Hd1 : deref (upd p bump c1) p = bump x) by (by apply deref_upd_eq).
  rewrite Hd1 in Hput. change (flag_lru (bump x)) with (flag_lru x) in Hput.
  destruct (flag_lru x) eqn:Hfl; cbn [negb] in Hput; [|done].
  pose proof (take_ghost_inv p x c1 H1 Hx Hfl) as H2. cbn zeta in H2. fold bump in H2.
  set (c2 := set_lru1 _ (upd p bump c1)) in *.
  refine (put_admission_rejected k d l copy a1 a2 _ (Some p) c2 c' H2 _ _ _ Hput).
  - eapply index_ok_shrink; [exact (held_inv_chains _ _ _ H2)|exact Hok1|].
    subst c2. repeat shrink_step.
  - done.
  - split; [by eexists|]. change (deref c2 p) with (deref (upd p bump c1) p).
    rewrite Hd1. by destruct x.
Qed.

Section Misses.
Context (fastlz_decompress : list byte → Z → Z → Z * list byte)
        (TS_HAS_LIBZ : bool)
        (uncompress : list byte → Z → Z → Z * list byte)
        (TS_HAS_LZMA : bool)
        (lzma_stream_buffer_decode : Z → list byte → Z → Z → Z * list byte)
        (iobuffer_block_size : Z → Z).

Local Abbreviation the_get :=
  (get fastlz_decompress TS_HAS_LIBZ uncompress TS_HAS_LZMA lzma_stream_buffer_decode
       iobuffer_block_size).

Lemma get_ghost_miss k a1 a2 c :
  cache_inv c → digest_ghost k c → (the_get k a1 a2 c).1 = (0, None).
Proof.
  intros Hinv Hgh. destruct (decide (max_bytes c = 0)) as [Hz|Hmax].
  { unfold get. apply Z.eqb_eq in Hz. by rewrite Hz. }
  destruct (List.find (λ p, entry_matches k a1 a2 (deref c p))
              (chain c (word k 3 mod nbuckets c))) as [p|] eqn:Hfind.
  2: { unfold get. apply Z.eqb_neq in Hmax. by rewrite Hmax, Hfind. }
  pose proof Hfind as [Hin Hm]%find_matches.
  destruct (held_inv_chains _ _ _ Hinv _ _ Hin) as (e & He & _).
  apply entry_matches_spec in Hm as (Hk & _).
  pose proof (Hgh _ _ Hin Hk) as Hfl. unfold deref in Hfl. rewrite He in Hfl. cbn in Hfl.
  destruct (get_found fastlz_decompress TS_HAS_LIBZ uncompress TS_HAS_LZMA
              lzma_stream_buffer_decode iobuffer_block_size k a1 a2 c p e Hmax Hfind He)
    as (c2 & _ & _ & _ & _ & Hget).
  by rewrite Hget, Hfl.
Qed.

(** X13.  After a [put] that returned 0 a [get] for the key misses, whatever the
    aux keys: the key has at most a ghost in the history. *)
Theorem put_rejected_get_misses k d l copy a1 a2 b1 b2 c c' :
  reachable c → 0 ≤ l →
  put k d l copy a1 a2 c = (0, c') →
  (the_get k b1 b2 c').1 = (0, None).
Proof.
  intros Hr Hl Hput.
  assert (Hr' : reachable c').
  { change c' with (0, c').2. rewrite <- Hput. by apply reachable_put. }
  destruct (decide (max_bytes c = 0)) as [Hz|Hmax].
  { unfold put in Hput. apply Z.eqb_eq in Hz. rewrite Hz in Hput. injection Hput as <-.
    unfold get. by rewrite Hz. }
  apply get_ghost_miss; [by apply reachable_inv|].
  apply (put_rejected_ghost k d l copy a1 a2 c c');
    [by apply reachable_inv|by apply reachable_index|done|done].
Qed.

End Misses.

(** ** Puts that do not fit, in-place updates, [tick] and [fixup] *)







(** X15.  [RamCacheCLFUS::tick] leaves [lru[0]], [bytes] and [objects] alone and
    touches no entry outside the history; it frees at most one ghost, so
    [history] and the length of [lru[1]] stay or drop by one together. *)
Theorem tick_effect c :
  let c' := tick c in
  lru0 c' = lru0 c ∧ bytes c' = bytes c ∧ objects c' = objects c
  ∧ (∀ x, x ∉ lru1 c → heap c' !! x = heap c !! x)
  ∧ (∀ x, x ∈ lru1 c' → x ∈ lru1 c)
  ∧ (history c' = history c ∧ length (lru1 c') = length (lru1 c)
     ∨ history c' = history c - 1 ∧ S (length (lru1 c')) = length (lru1 c)).
Proof.
  cbn zeta. destruct (tick_frame c) as (Hl0 & Hby & Ho & _).
  split_and!; try done; [intros x; apply tick_heap|intros x; apply tick_lru1|].
  unfold tick. destruct (lru1 c) as [|p q] eqn:E; [left; by rewrite E|].
  repeat case_match; proj_simpl;
    repeat match goal with
    | |- context [tick_free ?x ?y] =>
        destruct (tick_free_frame x y)
          as (_ & -> & _ & _ & _ & _ & _ & _ & _ & _ & _ & -> & _)
    end; proj_simpl; unfold que_enqueue in *.
  all: try (left; split; [done|]; rewrite length_app; cbn; lia).
  all: try (right; split; [done|]; cbn; lia).
  right. split; [done|].
  match goal with H : _ ++ _ = _ :: _ |- _ => apply (f_equal length) in H;
    rewrite length_app in H; cbn in H |- *; lia end.
Qed.

Lemma upd_undo p f g e c :
  heap c !! p = Some e → g (f e) = e → upd p g (upd p f c) = c.
Proof.
  intros He Hgf. destruct c as [? ? ? ? ? ? ? ? ? ? ? ? h ?]. unfold upd, set_heap. cbn in *. f_equal.
  apply map_eq. intros x. rewrite !lookup_alter. case_decide; [subst x|done].
  rewrite He. cbn. rewrite decide_True by done. cbn. by rewrite Hgf.
Qed.

(** X16.  A [fixup] that returned 1 is undone by the [fixup] with the aux keys
    exchanged. *)
Theorem fixup_round_trip k o1 o2 n1 n2 c c' :
  reachable c →
  fixup k o1 o2 n1 n2 c = (1, c') →
  fixup k n1 n2 o1 o2 c' = (1, c).
Proof.
  intros Hr Hfix.
  assert (Hr' : reachable c').
  { change c' with (1, c').2. rewrite <- Hfix. by apply reachable_fixup. }
  destruct (reachable_index c' Hr') as (Hu & _).
  pose proof (reachable_inv c Hr) as Hinv.
  unfold fixup in Hfix |- *.
  destruct (max_bytes c =? 0) eqn:Hmax; [done|].
  destruct (List.find _ _) as [p|] eqn:Hfind; [|done].
  injection Hfix as <-. proj_simpl. rewrite Hmax.
  apply find_matches in Hfind as [Hin Hm].
  destruct (held_inv_chains _ _ _ Hinv _ _ Hin) as (e & He & _).
  unfold deref in Hm. rewrite He in Hm. cbn in Hm.
  apply entry_matches_spec in Hm as (Hk & H1 & H2).
  set (c' := upd p (set_aux n1 n2) c) in *.
  assert (Hd : deref c' p = set_aux n1 n2 e) by (by apply deref_upd_eq).
  assert (Hin' : p ∈ chain c' (word k 3 mod nbuckets c)) by done.
  destruct (proj1 (find_first_match k n1 n2 c' (chain c' (word k 3 mod nbuckets c))))
    as [q Hq].
  { exists p. split; [done|]. rewrite Hd. apply entry_matches_spec. by destruct e. }
  change (chain c (word k 3 mod nbuckets c)) with (chain c' (word k 3 mod nbuckets c)).
  rewrite Hq. apply find_matches in Hq as [Hqin Hqm].
  apply entry_matches_spec in Hqm as (Hqk & _).
  assert (q = p) as ->.
  { apply (Hu _ _ q p Hqin Hin'). rewrite Hqk, Hd. by destruct e. }
  f_equal. subst c'. apply (upd_undo p _ _ e); [done|]. destruct e. cbn in *. by subst.
Qed.

Lemma put_lookup_hit k a1 a2 p c : ∀ ch,
  (∀ q, q ∈ ch → key (deref c q) = k → q = p) → p ∈ ch →
  key (deref c p) = k → auxkey1 (deref c p) = a1 → auxkey2 (deref c p) = a2 →
  put_lookup k a1 a2 ch c = (Some p, c).
Proof.
  intros ch Hu Hp Hk H1 H2. induction ch as [|q ch IH]; [by apply elem_of_nil in Hp|].
  cbn [put_lookup]. destruct (decide (key (deref c q) = k)) as [Hq|Hq].
  - rewrite (Hu q) by (done || by left). by rewrite H1, H2, !Z.eqb_refl.
  - apply elem_of_cons in Hp as [->|Hp]; [done|].
    apply IH; [|done]. intros x Hx. apply Hu. by right.
Qed.

(** X17.  A [put] for a key and aux keys that have an entry in memory updates that
    entry in place and returns 1: nothing is evicted or destroyed, the entry
    moves to the tail of [lru[0]], [bytes] moves by the difference of the
    sizes, and the entry keeps its [len]. *)
Theorem put_in_place k d l copy a1 a2 c p e :
  reachable c → table_in_range c →
  heap c !! p = Some e → key e = k → auxkey1 e = a1 → auxkey2 e = a2 →
  flag_lru e = false →
  ∃ c', put k d l copy a1 a2 c = (1, c')
    ∧ heap c' !! p =
        Some (set_flag_compressed 0 (set_flag_copy copy (set_size (put_size d l copy)
               (set_data (Some (put_buffer d l copy)) (set_hits (u64 (hits e + 1)) e)))))
    ∧ (∀ q, q ≠ p → heap c' !! q = heap c !! q)
    ∧ bytes c' = bytes c + (put_size d l copy - size e)
    ∧ lru0 c' = que_enqueue p (que_remove p (lru0 c)) ∧ lru1 c' = lru1 c
    ∧ objects c' = objects c ∧ history c' = history c ∧ bucket c' = bucket c
    ∧ seen c' = seen c.
Proof.
  intros Hr Hrange He Hk H1 H2 Hfl.
  destruct (reachable_index c Hr) as (Hu & Hc & Ht & _).
  assert (Hmax : max_bytes c ≠ 0).
  { intros Hz. rewrite (Ht Hz) in He. by rewrite lookup_empty in He. }
  pose proof (Hc Hrange p e He) as Hin. unfold bucket_of in Hin. rewrite Hk in Hin.
  assert (Hd : deref c p = e) by (unfold deref; by rewrite He).
  rewrite put_unfold by done. cbn zeta.
  assert (Hlk : put_lookup k a1 a2 (chain c (word k 3 mod nbuckets c)) c = (Some p, c)).
  { apply put_lookup_hit; [|done|by rewrite Hd..].
    intros q Hq Hqk. apply (Hu _ _ q p Hq Hin). by rewrite Hqk, Hd. }
  rewrite Hlk.
  cbn [fst snd]. unfold put_found.
  set (bump := λ x, set_hits (u64 (hits x + 1)) x).
  set (c1 := upd p bump c).
  assert (Hd1 : deref c1 p = bump e) by (by apply deref_upd_eq).
  rewrite Hd1. change (flag_lru (bump e)) with (flag_lru e). rewrite Hfl. cbn [negb].
  unfold put_hit.
  destruct (move_compressed_frame p c1)
    as (Hh1 & Hl01 & Hl11 & Hb1 & Hby1 & Ho1 & Hhi1 & _ & _ & Hs1 & _).
  set (c2 := move_compressed p c1) in *.
  destruct (requeue_frame p c2) as (Hh2 & Hb2 & Hby2 & Ho2 & Hhi2 & _ & _ & Hs2 & _).
  pose proof (requeue_lru p c2) as Hrl. cbn zeta in Hrl.
  assert (Hd2 : deref c2 p = bump e) by (unfold deref; rewrite Hh1; exact Hd1).
  rewrite Hd2 in Hrl. change (flag_lru (bump e)) with (flag_lru e) in Hrl.
  rewrite Hfl in Hrl. cbn [lru negb] in Hrl. destruct Hrl as [Hrl0 Hrl1].
  set (c3 := requeue p c2) in *.
  assert (Hd3 : deref c3 p = bump e) by (unfold deref; rewrite Hh2, Hh1; exact Hd1).
  eexists. split; [reflexivity|]. proj_simpl. rewrite Hd3.
  change (size (bump e)) with (size e).
  split_and!.
  - rewrite !lookup_alter_eq, Hh2, Hh1. subst c1. proj_simpl.
    by rewrite lookup_alter_eq, He.
  - intros q Hne. rewrite !lookup_alter_ne, Hh2, Hh1 by done. subst c1. proj_simpl.
    by rewrite lookup_alter_ne.
  - rewrite Hby2, Hby1. done.
  - by rewrite Hrl0, Hl01.
  - by rewrite Hrl1, Hl11.
  - by rewrite Ho2, Ho1.
  - by rewrite Hhi2, Hhi1.
  - by rewrite Hb2, Hb1.
  - by rewrite Hs2, Hs1.
Qed.


(** ** The examples *)

(** X1 at [ex_full]. *)
Lemma reachable_queues_witness :
  NoDup (lru0 ex_full ++ lru1 ex_full)
  ∧ (∀ p, p ∈ lru1 ex_full → ∃ e, heap ex_full !! p = Some e ∧ flag_lru e = true).
Proof.
  destruct (reachable_queues ex_full) as (H1 & _ & H3 & _); [|done].
  unfold ex_full, ex_put. repeat (apply reachable_put; [|lia]). apply reachable_init.
Defined.

(** X2 at [ex_full]. *)
Lemma reachable_chains_witness :
  NoDup (chain ex_full 1)
  ∧ ∃ e, heap ex_full !! 1%nat = Some e ∧ word (key e) 3 mod nbuckets ex_full = 1.
Proof.
  destruct (reachable_chains ex_full) as [H1 H2].
  - unfold ex_full, ex_put. repeat (apply reachable_put; [|lia]). apply reachable_init.
  - split; [apply H2|]. apply H1. vm_compute. apply list_elem_of_here.
Defined.

(** X3 at [ex_full]. *)
Lemma reachable_one_entry_per_digest_witness :
  Forall (λ q, key (deref ex_full 1%nat) = key (deref ex_full q) → 1%nat = q)
         (chain ex_full 1).
Proof.
  apply Forall_forall. intros q. apply (reachable_one_entry_per_digest ex_full 1 1 1%nat q).
  - unfold ex_full, ex_put. repeat (apply reachable_put; [|lia]). apply reachable_init.
  - vm_compute. apply list_elem_of_here.
Defined.

(** X4 at [ex_warm]. *)
Lemma reachable_index_inv_witness : table_in_range ex_warm ∧ index_inv ex_warm.
Proof.
  assert (H1 : table_in_range ex_warm) by (unfold table_in_range; vm_compute; lia).
  split; [exact H1|]. apply (reachable_index_inv ex_warm); [|exact H1].
  unfold ex_warm, ex_get. repeat apply reachable_get.
  unfold ex_full, ex_put. repeat (apply reachable_put; [|lia]). apply reachable_init.
Defined.

(** X5 at [ex_full]. *)
Lemma reachable_check_accounting_witness : check_accounting ex_full = true.
Proof.
  apply (reachable_check_accounting ex_full). unfold ex_full, ex_put.
  repeat (apply small_put; [|split; vm_compute; congruence..]). apply small_init.
Defined.

(** X6 at [ex_full]. *)
Lemma reachable_no_leak_witness : 4%nat ∈ lru ex_full true.
Proof.
  apply (reachable_no_leak ex_full 4%nat (deref ex_full 4%nat)).
  - unfold ex_full, ex_put.
    repeat (apply small_put; [|split; vm_compute; congruence..]). apply small_init.
  - vm_compute. reflexivity.
Defined.

(** X7 at [ex_full]. *)
Lemma resize_hashtable_keeps_entries_witness :
  Forall (λ p, p ∈ chain (resize_hashtable ex_full)
                 (word (key (deref ex_full p)) 3 mod nbuckets (resize_hashtable ex_full)))
         (chain ex_full 2).
Proof.
  destruct (resize_hashtable_keeps_entries ex_full) as (_ & H2 & _).
  - apply reachable_inv. unfold ex_full, ex_put.
    repeat (apply reachable_put; [|lia]). apply reachable_init.
  - apply Forall_forall. intros p. apply H2. vm_compute. split; [discriminate|reflexivity].
Defined.

(** X8 at [ex_full]. *)
Lemma get_resident_witness :
  ∃ c', ex_get (ex_key 1) 0 0 ex_full
        = (1, Some (IOBuf [x01; x02; x03; x04] 100), c')
    ∧ lru0 c' = [2; 3; 1]%nat.
Proof.
  destruct (get_resident ex_fastlz false ex_zlib false ex_lzma (λ _, 128)
              ex_full 1%nat (deref ex_full 1%nat)) as (c' & Hget & _ & _ & Hl0 & _).
  - unfold ex_full, ex_put. repeat (apply reachable_put; [|lia]). apply reachable_init.
  - unfold table_in_range. vm_compute. lia.
  - vm_compute. reflexivity.
  - vm_compute. reflexivity.
  - vm_compute. reflexivity.
  - exists c'. split; [exact Hget|]. rewrite Hl0. vm_compute. reflexivity.
Defined.

(** X9 at [ex_full]. *)
Lemma get_history_miss_witness :
  ∃ c', ex_get (ex_key 4) 0 0 ex_full = (0, None, c') ∧ heap c' = heap ex_full.
Proof.
  destruct (get_history_miss ex_fastlz false ex_zlib false ex_lzma (λ _, 128)
              ex_full 4%nat (deref ex_full 4%nat)) as (c' & Hget & Hh & _).
  - unfold ex_full, ex_put. repeat (apply reachable_put; [|lia]). apply reachable_init.
  - unfold table_in_range. vm_compute. lia.
  - vm_compute. reflexivity.
  - vm_compute. reflexivity.
  - exists c'. split; [exact Hget|exact Hh].
Defined.

(** X10 at [ex_full]. *)
Lemma get_absent_witness : ex_get (ex_key 1) 5 5 ex_full = (0, None, ex_full).
Proof.
  apply (get_absent ex_fastlz false ex_zlib false ex_lzma (λ _, 128)).
  - unfold ex_full, ex_put. repeat (apply reachable_put; [|lia]). apply reachable_init.
  - assert (H : map_Forall (λ _ e, ¬ (key e = ex_key 1 ∧ auxkey1 e = 5 ∧ auxkey2 e = 5))
                  (heap ex_full)) by by_compute.
    exact H.
Defined.

(** X11 at [ex_packed]. *)
Lemma get_decompress_success_witness :
  ∃ c', get (λ _ _ _, (100, repeat x61 100)) false ex_zlib false ex_lzma (λ _, 128)
            (ex_key 1) 0 0 ex_packed
        = (1, Some (IOBuf (repeat x61 100) 100), c')
    ∧ bytes c' = bytes ex_packed.
Proof.
  destruct (get_decompress_success (λ _ _ _, (100, repeat x61 100)) false ex_zlib false
              ex_lzma (λ _, 128) ex_packed 1%nat (deref ex_packed 1%nat) (repeat x61 100))
    as (c' & Hget & _ & Hby & _).
  - unfold ex_packed, ex_plain. apply reachable_compress_commit; [|lia].
    apply reachable_put; [apply reachable_init|lia].
  - unfold table_in_range. vm_compute. lia.
  - vm_compute. reflexivity.
  - vm_compute. reflexivity.
  - vm_compute. discriminate.
  - vm_compute. reflexivity.
  - exists c'. split; [exact Hget|]. rewrite Hby. vm_compute. reflexivity.
Defined.

(** X12 at [ex_full]. *)
Lemma put_get_round_trip_witness :
  (ex_get (ex_key 2) 0 0 (put (ex_key 2) ex_blob 4 true 0 0 ex_full).2).1
  = (1, Some (IOBuf (repeat x61 4) 128)).
Proof.
  apply (put_get_round_trip ex_fastlz false ex_zlib false ex_lzma (λ _, 128)
           (ex_key 2) ex_blob 4 true 0 0 ex_full).
  - unfold ex_full, ex_put. repeat (apply reachable_put; [|lia]). apply reachable_init.
  - lia.
  - vm_compute. reflexivity.
  - unfold table_in_range. vm_compute. lia.
  - intros _.
    assert (H : map_Forall (λ _ e0, key e0 = ex_key 2 → flag_lru e0 = false → len e0 = 4)
                  (heap ex_full)) by by_compute.
    exact H.
Defined.

(** X13 at [ex_full]. *)
Lemma put_rejected_get_misses_witness :
  (put (ex_key 5) (ex_buf 100) 4 false 0 0 ex_full).1 = 0
  ∧ (ex_get (ex_key 5) 0 0 (put (ex_key 5) (ex_buf 100) 4 false 0 0 ex_full).2).1
    = (0, None).
Proof.
  assert (H : put (ex_key 5) (ex_buf 100) 4 false 0 0 ex_full
              = (0, (put (ex_key 5) (ex_buf 100) 4 false 0 0 ex_full).2))
    by (vm_compute; reflexivity).
  split; [by rewrite H|].
  apply (put_rejected_get_misses ex_fastlz false ex_zlib false ex_lzma (λ _, 128)
           (ex_key 5) (ex_buf 100) 4 false 0 0 0 0 ex_full); [|lia|exact H].
  unfold ex_full, ex_put. repeat (apply reachable_put; [|lia]). apply reachable_init.
Defined.


(** X16 at [ex_tagged]. *)
Lemma fixup_round_trip_witness :
  fixup (ex_key 65536) 7 7 1 1 (fixup (ex_key 65536) 1 1 7 7 ex_tagged).2 = (1, ex_tagged).
Proof.
  apply (fixup_round_trip (ex_key 65536) 1 1 7 7 ex_tagged).
  - unfold ex_tagged. apply reachable_put; [apply reachable_init|lia].
  - vm_compute. reflexivity.
Defined.

(** X17 at [ex_full]. *)
Lemma put_in_place_witness :
  ∃ c', put (ex_key 2) ex_blob 100 false 0 0 ex_full = (1, c')
    ∧ objects c' = objects ex_full ∧ lru0 c' = [3; 1; 2]%nat
    ∧ bytes c' = bytes ex_full + 28.
Proof.
  destruct (put_in_place (ex_key 2) ex_blob 100 false 0 0 ex_full 2%nat (deref ex_full 2%nat))
    as (c' & Hput & _ & _ & Hby & Hl0 & _ & Ho & _).
  - unfold ex_full, ex_put. repeat (apply reachable_put; [|lia]). apply reachable_init.
  - unfold table_in_range. vm_compute. lia.
  - vm_compute. reflexivity.
  - vm_compute. reflexivity.
  - vm_compute. reflexivity.
  - vm_compute. reflexivity.
  - vm_compute. reflexivity.
  - exists c'. split_and!; [exact Hput|exact Ho| |].
    + rewrite Hl0. vm_compute. reflexivity.
    + rewrite Hby. vm_compute. reflexivity.
Defined.

